(** * RAW preview pipeline and unified photo search: a shallow embedding

    This development embeds the Python sources [raw_preview_generator.py]
    and [photo-search-all.py] and proves properties of the embedded
    functions.

    Conventions of the embedding.
    - A Python [str] is a [string]; its characters are read as code points
      0..255.  Character classes of [re] and [str.strip] are the Unicode
      ones restricted to that range.
    - A Python [float] is an IEEE 754 binary64 number, [spec_float] with
      precision 53 and maximal exponent 1024.
    - A Python [int] is a [Z].
    - Path operations ([pathlib.Path], [os.path]) follow the POSIX flavour.
    - Code that talks to the outside world (rawpy, PIL, the file system,
      sqlite3, the clock) runs in the monad [M]: it threads a world state,
      appends to a log of external calls and either returns or raises.
      What [raw_preview_generator.py] prints is not part of the model;
      what [photo-search-all.py] prints is ([search_main]). *)

From Stdlib Require Import ZArith String Ascii List Lia Permutation Sorted.
From Stdlib Require Import Floats.SpecFloat.
From stdpp Require Import base option list strings gmap.

(* ================================================================== *)
(** * Part I: definitions                                              *)
(* ================================================================== *)

(** ** Characters and strings *)

Module Chars.

Definition code (c : ascii) : nat := nat_of_ascii c.

Definition in_range (lo hi : nat) (c : ascii) : bool :=
  (lo <=? code c)%nat && (code c <=? hi)%nat.

(** [\d] of [re] on [str] patterns, restricted to code points below 256:
    there the decimal digits of Unicode are [0] to [9]. The digits of
    other scripts, which [\d] also matches, lie beyond the strings of the
    model. *)
Definition is_digit (c : ascii) : bool := in_range 48 57 c.

(** [\s] of [re] and the characters removed by [str.strip()]: the
    characters for which [str.isspace] holds. *)
Definition is_space (c : ascii) : bool :=
  in_range 9 13 c || in_range 28 32 c
  || (code c =? 133)%nat || (code c =? 160)%nat.

(** [str.lower] on one character. *)
Definition lower (c : ascii) : ascii :=
  if in_range 65 90 c then ascii_of_nat (code c + 32)
  else if in_range 192 222 c && negb (code c =? 215)%nat
       then ascii_of_nat (code c + 32)
  else c.

(** Case folding of SQLite's [LIKE]: ASCII letters only. *)
Definition sql_fold (c : ascii) : ascii :=
  if in_range 65 90 c then ascii_of_nat (code c + 32) else c.

Definition eqb (a b : ascii) : bool := Ascii.eqb a b.

End Chars.

Abbreviation chars := (list ascii).

Definition to_chars (s : string) : chars := list_ascii_of_string s.
Definition of_chars (l : chars) : string := string_of_list_ascii l.

Definition str_lower (s : string) : string :=
  of_chars (map Chars.lower (to_chars s)).

(** [l.startswith(p)] on character lists. *)
Fixpoint starts_with (p l : chars) : bool :=
  match p, l with
  | [], _ => true
  | _ :: _, [] => false
  | a :: p', b :: l' => Chars.eqb a b && starts_with p' l'
  end.

(** [needle in haystack] for strings. *)
Fixpoint contains_chars (needle hay : chars) : bool :=
  starts_with needle hay ||
  match hay with
  | [] => false
  | _ :: hay' => contains_chars needle hay'
  end.

Definition str_contains (needle hay : string) : bool :=
  contains_chars (to_chars needle) (to_chars hay).

Fixpoint take_while {A} (p : A -> bool) (l : list A) : list A :=
  match l with
  | [] => []
  | x :: l' => if p x then x :: take_while p l' else []
  end.

Fixpoint drop_while {A} (p : A -> bool) (l : list A) : list A :=
  match l with
  | [] => []
  | x :: l' => if p x then drop_while p l' else l
  end.

(** [str.strip()]: leading and trailing whitespace removed. *)
Definition strip_chars (l : chars) : chars :=
  rev (drop_while Chars.is_space (rev (drop_while Chars.is_space l))).

Definition str_strip (s : string) : string := of_chars (strip_chars (to_chars s)).

(** Decimal numerals. *)
Definition digit_char (d : Z) : ascii := ascii_of_nat (48 + Z.to_nat d).

Fixpoint decimal_aux (fuel : nat) (n : Z) (acc : chars) : chars :=
  match fuel with
  | O => acc
  | S fuel' =>
      let acc' := digit_char (n mod 10) :: acc in
      if (n / 10 =? 0)%Z then acc' else decimal_aux fuel' (n / 10) acc'
  end.

(** Decimal digits of a natural number given as a non-negative [Z]. *)
Definition decimal_chars (n : Z) : chars :=
  decimal_aux (S (Z.to_nat (Z.log2 n))) n [].

(** [str(n)] for an [int]. *)
Definition str_of_int (n : Z) : string :=
  if (n <? 0)%Z then String "-" (of_chars (decimal_chars (- n)))
  else of_chars (decimal_chars n).

(** ** Floats *)

Module Float.

Definition prec : Z := 53.
Definition emax : Z := 1024.

Abbreviation t := spec_float.

(** The float nearest to [m * 2^e]. *)
Definition of_scaled (m e : Z) : t := binary_normalize prec emax m e false.

(** [float(n)] for an [int] that converts without overflow. *)
Definition of_int (n : Z) : t := of_scaled n 0.

Definition mul (x y : t) : t := SFmul prec emax x y.
Definition div (x y : t) : t := SFdiv prec emax x y.

(** [x >= y]. *)
Definition geb (x y : t) : bool := SFleb y x.
Definition ltb (x y : t) : bool := SFltb x y.

Definition is_nan (x : t) : bool :=
  match x with S754_nan => true | _ => false end.

Definition is_zero (x : t) : bool :=
  match x with S754_zero _ => true | _ => false end.

Definition sign (x : t) : bool :=
  match x with
  | S754_zero s | S754_infinity s => s
  | S754_finite s _ _ => s
  | S754_nan => false
  end.

(** Magnitude scaled by [10^digits] and rounded to the nearest integer,
    ties to even: the digits that [format(x, '.<digits>f')] prints. *)
Definition round_scaled (digits : Z) (m : positive) (e : Z) : Z :=
  let num := (Z.pos m * 10 ^ digits)%Z in
  if (0 <=? e)%Z then (num * 2 ^ e)%Z
  else
    let den := (2 ^ (- e))%Z in
    let q := (num / den)%Z in
    let r := (num mod den)%Z in
    match (2 * r ?= den)%Z with
    | Lt => q
    | Gt => (q + 1)%Z
    | Eq => if Z.even q then q else (q + 1)%Z
    end.

Definition pad_zeros (width : nat) (l : chars) : chars :=
  repeat "0"%char (width - length l) ++ l.

Definition fixed_of_scaled (digits : Z) (n : Z) : chars :=
  let p := (10 ^ digits)%Z in
  let ip := decimal_chars (n / p) in
  if (digits =? 0)%Z then ip
  else ip ++ "."%char :: pad_zeros (Z.to_nat digits) (decimal_chars (n mod p)).

(** [format(x, '.<digits>f')], as in an f-string [{x:.1f}]. *)
Definition format_fixed (digits : Z) (x : t) : string :=
  match x with
  | S754_nan => "nan"
  | S754_infinity s => if s then "-inf" else "inf"
  | S754_zero s =>
      of_chars ((if s then ["-"%char] else []) ++ fixed_of_scaled digits 0)
  | S754_finite s m e =>
      of_chars ((if s then ["-"%char] else [])
                  ++ fixed_of_scaled digits (round_scaled digits m e))
  end.

(** The integer part of a finite float, rounding toward zero. *)
Definition trunc_finite (s : bool) (m : positive) (e : Z) : Z :=
  let a := if (0 <=? e)%Z then (Z.pos m * 2 ^ e)%Z
           else (Z.pos m / 2 ^ (- e))%Z in
  if s then (- a)%Z else a.

(** The nearest integer of a finite float, ties to even: [round(x)]. *)
Definition round_finite (s : bool) (m : positive) (e : Z) : Z :=
  let a := round_scaled 0 m e in
  if s then (- a)%Z else a.

Definition half : t := of_scaled 1 (-1).
Definition one : t := of_int 1.

End Float.

(** ** Exceptions, outcomes and the monad of effects *)

(** A raised exception: its class and the text [str(e)] gives. Every
    exception of the model is an instance of [Exception]. *)
Record exn := Exn { exn_class : string; exn_str : string }.

Definition OperationalError : string := "sqlite3.OperationalError".
Definition ZeroDivisionError : string := "ZeroDivisionError".
Definition ValueError : string := "ValueError".
Definition OverflowError : string := "OverflowError".

Definition is_OperationalError (e : exn) : bool :=
  String.eqb (exn_class e) OperationalError.

Inductive outcome (A : Type) : Type :=
| Ret (a : A)
| Raise (e : exn).
Arguments Ret {A} a.
Arguments Raise {A} e.

Definition raised {A} (o : outcome A) : bool :=
  match o with Ret _ => false | Raise _ => true end.

(** ** Python values that travel through the pipeline *)

Inductive pyval :=
| VNone
| VStr (s : string)
| VInt (n : Z)
| VDatetime (iso : string).
(** A [datetime] object is represented by its ISO text, which is also what
    the sqlite3 module stores for it. *)

Definition of_opt_str (o : option string) : pyval :=
  match o with Some s => VStr s | None => VNone end.

Definition of_opt_int (o : option Z) : pyval :=
  match o with Some n => VInt n | None => VNone end.

Definition is_none (v : pyval) : bool :=
  match v with VNone => true | _ => false end.

(** ** The catalog: rows and statements *)

(** The seventeen values bound by the [INSERT OR REPLACE] of the scan, in
    column order. *)
Record raw_photo := RawPhoto {
  filepath : string;
  preview_path : string;
  client_name : option string;
  date : option string;
  camera_make : pyval;
  camera_model : pyval;
  lens_model : pyval;
  iso : pyval;
  aperture : pyval;
  shutter_speed : pyval;
  focal_length : pyval;
  datetime : pyval;
  gps_latitude : pyval;
  gps_longitude : pyval;
  size_mb : Float.t;
  preview_size_kb : Float.t;
  indexed_at : string
}.

(** A stored row: the [id INTEGER PRIMARY KEY AUTOINCREMENT] column and the
    seventeen others. *)
Record stored_row := StoredRow { row_id : Z; row_data : raw_photo }.

(** The two statements the scan passes to [db_execute_with_retry]. *)
Inductive statement :=
| CreateTableIfNotExists
| InsertOrReplace (r : raw_photo).

(** ** Arguments of the imaging calls *)

(** Keyword arguments of [raw.postprocess]. *)
Record postprocess_args := PostprocessArgs {
  use_camera_wb : bool;
  half_size : bool;
  no_auto_bright : bool;
  output_bps : Z
}.

Inductive resample := LANCZOS.

(** Arguments of [img.save] after the path. *)
Record save_args := SaveArgs {
  save_format : string;
  save_quality : Z;
  save_optimize : bool;
  save_progressive : bool
}.

(** The attributes of [raw.metadata] that the extraction probes; [None]
    stands for an attribute that is absent. *)
Record raw_metadata := RawMetadata {
  md_make : option string;
  md_model : option string;
  md_iso_speed : option Z;
  md_aperture : option Float.t;
  md_shutter : option Float.t;
  md_focal_length : option Float.t;
  md_timestamp : option Z
}.

(** ** External calls *)

Inductive event :=
| EvExecute (q : statement)
| EvSleep (seconds : Float.t)
| EvCommit
| EvImread (path : string)
| EvPostprocess (args : postprocess_args)
| EvClose
| EvFromarray
| EvThumbnail (width height : Z) (filter : resample)
| EvMakedirs (dir : string) (exist_ok : bool)
| EvSave (path : string) (args : save_args)
| EvGetsize (path : string)
| EvExists (path : string).

(** ** The monad: world state, call log, exceptions *)

Definition M (W A : Type) : Type := W -> W * list event * outcome A.

Definition ret {W A} (a : A) : M W A := fun w => (w, [], Ret a).

Definition raise {W A} (e : exn) : M W A := fun w => (w, [], Raise e).

Definition bind {W A B} (m : M W A) (k : A -> M W B) : M W B :=
  fun w =>
    match m w with
    | (w1, l1, Ret a) =>
        match k a w1 with
        | (w2, l2, r) => (w2, l1 ++ l2, r)
        end
    | (w1, l1, Raise e) => (w1, l1, Raise e)
    end.

(** [try: body except Exception as e: handler(e)] *)
Definition try_except {W A} (body : M W A) (handler : exn -> M W A) : M W A :=
  fun w =>
    match body w with
    | (w1, l1, Ret a) => (w1, l1, Ret a)
    | (w1, l1, Raise e) =>
        match handler e w1 with
        | (w2, l2, r) => (w2, l1 ++ l2, r)
        end
    end.

(** [try: body finally: cleanup] *)
Definition try_finally {W A} (body : M W A) (cleanup : M W unit) : M W A :=
  fun w =>
    match body w with
    | (w1, l1, r) =>
        match cleanup w1 with
        | (w2, l2, Ret _) => (w2, l1 ++ l2, r)
        | (w2, l2, Raise e) => (w2, l1 ++ l2, Raise e)
        end
    end.

(** One external call that changes the world and may raise. *)
Definition call {W A} (ev : event) (f : W -> W * outcome A) : M W A :=
  fun w => match f w with (w', r) => (w', [ev], r) end.

(** One external call that only reads the world. *)
Definition query {W A} (ev : event) (f : W -> A) : M W A :=
  fun w => (w, [ev], Ret (f w)).

Definition run_world {W A} (r : W * list event * outcome A) : W := r.1.1.
Definition run_log {W A} (r : W * list event * outcome A) : list event := r.1.2.
Definition run_result {W A} (r : W * list event * outcome A) : outcome A := r.2.

Declare Scope py_scope.
Delimit Scope py_scope with py.
Notation "x <- m ;; k" := (bind m (fun x => k))
  (at level 100, m at next level, right associativity,
   format "'[v' x  <-  m  ;;  '/' k ']'") : py_scope.
Notation "m ;;; k" := (bind m (fun _ => k))
  (at level 100, right associativity,
   format "'[v' m  ;;;  '/' k ']'") : py_scope.
Open Scope py_scope.

(** Running a computation in a component of a larger world. *)
Definition lift_fst {W V A} (m : M W A) : M (W * V) A :=
  fun wv => match m wv.1 with (w', l, r) => ((w', wv.2), l, r) end.

Definition lift_snd {W V A} (m : M V A) : M (W * V) A :=
  fun wv => match m wv.2 with (v', l, r) => ((wv.1, v'), l, r) end.

(** ** [time.sleep] *)

(** [time.sleep(d)] rejects a NaN or negative duration with [ValueError]
    and a duration beyond the range of the C timestamp (in nanoseconds,
    64 bits) with [OverflowError]; otherwise it sleeps. *)
Definition time_sleep {W} (d : Float.t) : M W unit :=
  if Float.is_nan d then
    raise (Exn ValueError "Invalid value NaN (not a number)")
  else if Float.ltb d (Float.of_int 0) then
    raise (Exn ValueError "sleep length must be non-negative")
  else if Float.geb (Float.mul d (Float.of_int 1000000000)) (Float.of_scaled 1 63) then
    raise (Exn OverflowError "timestamp too large to convert to C _PyTime_t")
  else call (EvSleep d) (fun w => (w, Ret tt)).

(** ** [db_execute_with_retry] *)

(** [range(n)] *)
Definition range (n : Z) : list Z := map Z.of_nat (seq 0 (Z.to_nat n)).

(** A cursor: what [cursor.execute(query, params)] does to the world. *)
Definition cursor (W : Type) : Type := statement -> W -> W * outcome unit.

(** One iteration of the loop body. [Some b] is [return b]; [None] is
    [continue]. An exception that is not an [OperationalError] is not
    caught. *)
Definition retry_attempt {W} (cur : cursor W) (q : statement)
    (max_retries : Z) (delay : Float.t) (attempt : Z) : M W (option bool) :=
  try_except
    (call (EvExecute q) (cur q) ;;; ret (Some true))
    (fun e =>
       if is_OperationalError e then
         if str_contains "locked" (exn_str e) && (attempt <? max_retries - 1)%Z
         then time_sleep (Float.mul delay (Float.of_int (attempt + 1))) ;;; ret None
         else raise e
       else raise e).

Fixpoint retry_loop {W} (cur : cursor W) (q : statement)
    (max_retries : Z) (delay : Float.t) (attempts : list Z) : M W bool :=
  match attempts with
  | [] => ret false
  | attempt :: rest =>
      r <- retry_attempt cur q max_retries delay attempt ;;
      match r with
      | Some b => ret b
      | None => retry_loop cur q max_retries delay rest
      end
  end.

Definition db_execute_with_retry {W} (cur : cursor W) (q : statement)
    (max_retries : Z) (delay : Float.t) : M W bool :=
  retry_loop cur q max_retries delay (range max_retries).

(** The defaults of the signature: [max_retries=5, delay=0.5]. *)
Definition default_max_retries : Z := 5.
Definition default_delay : Float.t := Float.half.

Definition db_execute_with_retry_default {W} (cur : cursor W) (q : statement)
  : M W bool :=
  db_execute_with_retry cur q default_max_retries default_delay.

(** ** The sqlite3 catalog *)

Module Sqlite.

(** The table [raw_photos] and its [sqlite_sequence] counter. *)
Record table := Table {
  tbl_exists : bool;
  tbl_rows : list stored_row;
  tbl_seq : Z
}.

(** A connection to the catalog file: the view of the open transaction,
    what was committed and what the next calls will meet. A fault
    [Some e] makes the next call raise [e] and change nothing (the file
    is locked by another process, the disk is full, ...); [None] lets
    it run. Once the list is exhausted every call runs. *)
Record database := Database {
  db_live : table;
  db_saved : table;
  db_faults : list (option exn)
}.

Definition empty_table : table := Table false [] 0.

Definition next_fault (db : database) : option exn * database :=
  match db_faults db with
  | [] => (None, db)
  | f :: rest => (f, Database (db_live db) (db_saved db) rest)
  end.

Definition int64_ok (n : Z) : bool :=
  (- 2 ^ 63 <=? n)%Z && (n <? 2 ^ 63)%Z.

(** Whether the sqlite3 module can bind the value. *)
Definition bind_ok (v : pyval) : bool :=
  match v with
  | VInt n => int64_ok n
  | _ => true
  end.

Definition bind_all_ok (r : raw_photo) : bool :=
  forallb bind_ok
    [camera_make r; camera_model r; lens_model r; iso r; aperture r;
     shutter_speed r; focal_length r; datetime r; gps_latitude r;
     gps_longitude r].

Definition same_file (f : string) (row : stored_row) : bool :=
  String.eqb (filepath (row_data row)) f.

(** [INSERT OR REPLACE]: the row that conflicts on the [UNIQUE] column
    [filepath] is deleted, then the new row is inserted under the next
    [AUTOINCREMENT] id. *)
Definition insert_or_replace (r : raw_photo) (t : table) : table :=
  let id := (tbl_seq t + 1)%Z in
  Table true
    (List.filter (fun row => negb (same_file (filepath r) row)) (tbl_rows t)
       ++ [StoredRow id r])
    id.

Definition apply_statement (q : statement) (t : table) : outcome table :=
  match q with
  | CreateTableIfNotExists =>
      Ret (if tbl_exists t then t else Table true [] (tbl_seq t))
  | InsertOrReplace r =>
      if negb (bind_all_ok r) then
        Raise (Exn OverflowError "Python int too large to convert to SQLite INTEGER")
      else if negb (tbl_exists t) then
        Raise (Exn OperationalError "no such table: raw_photos")
      else Ret (insert_or_replace r t)
  end.

(** [cursor.execute(query, params)] *)
Definition execute : cursor database := fun q db =>
  match next_fault db with
  | (Some e, db') => (db', Raise e)
  | (None, db') =>
      match apply_statement q (db_live db') with
      | Ret t => (Database t (db_saved db') (db_faults db'), Ret tt)
      | Raise e => (db', Raise e)
      end
  end.

(** [conn.commit()] *)
Definition commit : M database unit :=
  call EvCommit (fun db =>
    match next_fault db with
    | (Some e, db') => (db', Raise e)
    | (None, db') =>
        (Database (db_live db') (db_live db') (db_faults db'), Ret tt)
    end).

(** [sqlite3.connect(DB_PATH, timeout=30.0)], then
    [conn.execute('PRAGMA journal_mode=WAL')]: the connection starts
    from what was committed. *)
Definition connect : M database unit :=
  fun db =>
    match next_fault db with
    | (Some e, db') => (db', [], Raise e)
    | (None, db') =>
        (Database (db_saved db') (db_saved db') (db_faults db'), [], Ret tt)
    end.

(** Rows of the live table stored under a file path. *)
Definition rows_for (f : string) (db : database) : list stored_row :=
  List.filter (same_file f) (tbl_rows (db_live db)).

(** The upsert of the catalog store. *)
Definition upsert (r : raw_photo) : M database bool :=
  db_execute_with_retry_default execute (InsertOrReplace r).

End Sqlite.

(** ** [parse_client_info] *)

Module Parse.

(** The class [[\\/]] and its complement [[^\\\/]]. *)
Definition is_sep (c : ascii) : bool :=
  Chars.eqb c "\"%char || Chars.eqb c "/"%char.

Definition not_sep (c : ascii) : bool := negb (is_sep c).

(** [\d{n}] at the head of [l]: what follows the digits. *)
Fixpoint digits (n : nat) (l : chars) : option chars :=
  match n with
  | O => Some l
  | S n' =>
      match l with
      | c :: l' => if Chars.is_digit c then digits n' l' else None
      | [] => None
      end
  end.

(** One literal character. *)
Definition lit (c : ascii) (l : chars) : option chars :=
  match l with
  | c' :: l' => if Chars.eqb c c' then Some l' else None
  | [] => None
  end.

(** The group [(\d{4}-\d{2}-\d{2})] at the head of [l]: the group and
    what follows it. *)
Definition date_token (l : chars) : option (chars * chars) :=
  match digits 4 l with
  | Some r1 =>
    match lit "-" r1 with
    | Some r2 =>
      match digits 2 r2 with
      | Some r3 =>
        match lit "-" r3 with
        | Some r4 =>
          match digits 2 r4 with
          | Some r5 => Some (firstn 10 l, r5)
          | None => None
          end
        | None => None
        end
      | None => None
      end
    | None => None
    end
  | None => None
  end.

(** The group [([^\\\/]+)] at the head of [l]: greedy, one character
    at least. *)
Definition name_run (l : chars) : option chars :=
  match take_while not_sep l with
  | [] => None
  | g => Some g
  end.

(** [\s+([^\\\/]+)] when [\s+] may take at most [k] characters: the
    greedy quantifier takes [k], and gives characters back one at a
    time while the group fails. *)
Fixpoint spaces_then_name (k : nat) (l : chars) : option chars :=
  match k with
  | O => None
  | S k' =>
      match name_run (skipn k l) with
      | Some g => Some g
      | None => spaces_then_name k' l
      end
  end.

(** Pattern 1, [(\d{4}-\d{2}-\d{2})\s+([^\\\/]+)], anchored at the head
    of [l]: groups 1 and 2. *)
Definition pattern1_at (l : chars) : option (chars * chars) :=
  match date_token l with
  | Some (d, r) =>
      match spaces_then_name (length (take_while Chars.is_space r)) r with
      | Some g => Some (d, g)
      | None => None
      end
  | None => None
  end.

(** Pattern 2, [(\d{4}-\d{2}-\d{2})[\\/]], anchored at the head of [l]:
    group 1. *)
Definition pattern2_at (l : chars) : option chars :=
  match date_token l with
  | Some (d, c :: _) => if is_sep c then Some d else None
  | _ => None
  end.

(** [re.search]: the match at the leftmost position that has one. *)
Fixpoint search {A} (at_head : chars -> option A) (l : chars) : option A :=
  match at_head l with
  | Some x => Some x
  | None =>
      match l with
      | [] => None
      | _ :: l' => search at_head l'
      end
  end.

(** [parse_client_info(filepath)]: the pair [(client_name, date_str)]. *)
Definition parse_client_info (filepath : string)
  : option string * option string :=
  match search pattern1_at (to_chars filepath) with
  | Some (d, g) => (Some (of_chars (strip_chars g)), Some (of_chars d))
  | None =>
      match search pattern2_at (to_chars filepath) with
      | Some d => (None, Some (of_chars d))
      | None => (None, None)
      end
  end.

End Parse.

(** ** [pathlib] and [os.path], POSIX flavour *)

Module Pathlib.

Definition slash : ascii := "/"%char.
Definition is_slash (c : ascii) : bool := Chars.eqb c slash.

(** A parsed path: the root (empty, one slash or two) and the
    components. *)
Record path := Path { root : chars; parts : list chars }.

(** [posixpath.splitroot] without the drive. *)
Definition split_root (l : chars) : chars * chars :=
  match l with
  | c1 :: r1 =>
      if is_slash c1 then
        match r1 with
        | c2 :: r2 =>
            if is_slash c2 then
              match r2 with
              | c3 :: _ => if is_slash c3 then ([slash], r1)
                           else ([slash; slash], r2)
              | [] => ([slash; slash], r2)
              end
            else ([slash], r1)
        | [] => ([slash], r1)
        end
      else ([], l)
  | [] => ([], l)
  end.

(** [l.split('/')] *)
Fixpoint split_slash (l : chars) : list chars :=
  match l with
  | [] => [[]]
  | c :: l' =>
      if is_slash c then [] :: split_slash l'
      else match split_slash l' with
           | h :: t => (c :: h) :: t
           | [] => [[c]]
           end
  end.

Definition is_dot (x : chars) : bool :=
  match x with
  | [c] => Chars.eqb c "."%char
  | _ => false
  end.

Definition keep_part (x : chars) : bool :=
  negb (match x with [] => true | _ => false end) && negb (is_dot x).

(** [PurePosixPath(s)] *)
Definition parse (l : chars) : path :=
  let (r, rel) := split_root l in
  Path r (List.filter keep_part (split_slash rel)).

Fixpoint join_slash (ps : list chars) : chars :=
  match ps with
  | [] => []
  | [x] => x
  | x :: ps' => x ++ slash :: join_slash ps'
  end.

(** [str(p)] *)
Definition to_chars (p : path) : chars :=
  match root p, parts p with
  | [], [] => ["."%char]
  | r, ps => r ++ join_slash ps
  end.

(** [p.name] *)
Definition name (p : path) : chars := List.last (parts p) [].

(** Splitting at the last dot: [(name[:i], name[i:])] for
    [i = name.rfind('.')]. *)
Fixpoint rsplit_dot (l : chars) : option (chars * chars) :=
  match l with
  | [] => None
  | c :: l' =>
      match rsplit_dot l' with
      | Some (b, a) => Some (c :: b, a)
      | None => if Chars.eqb c "."%char then Some ([], l) else None
      end
  end.

(** The dot at index [i] starts a suffix when [0 < i < len(name) - 1]. *)
Definition split_suffix (n : chars) : chars * chars :=
  match rsplit_dot n with
  | Some (b, a) =>
      match b with
      | [] => (n, [])
      | _ => if (1 <? length a)%nat then (b, a) else (n, [])
      end
  | None => (n, [])
  end.

(** [p.stem] and [p.suffix] *)
Definition stem (p : path) : chars := (split_suffix (name p)).1.
Definition suffix (p : path) : chars := (split_suffix (name p)).2.

(** [p.parent] *)
Definition parent (p : path) : path :=
  match parts p with
  | [] => p
  | ps => Path (root p) (removelast ps)
  end.

(** [p / s] *)
Definition joinpath (p : path) (s : chars) : path :=
  let q := parse s in
  match root q with
  | [] => Path (root p) (parts p ++ parts q)
  | _ => q
  end.

(** [os.path.join(a, b)] *)
Definition os_path_join (a b : string) : string :=
  let la := list_ascii_of_string a in
  let lb := list_ascii_of_string b in
  if starts_with [slash] lb then b
  else match List.last la slash with
       | c => if is_slash c then of_chars (la ++ lb)
              else of_chars (la ++ slash :: lb)
       end.

(** [os.path.dirname(p)] *)
Definition os_path_dirname (p : string) : string :=
  let l := list_ascii_of_string p in
  (* head = p[:p.rfind('/') + 1] *)
  let head := rev (drop_while (fun c => negb (is_slash c)) (rev l)) in
  if forallb is_slash head then of_chars head
  else of_chars (rev (drop_while is_slash (rev head))).

End Pathlib.

(** [get_preview_path(raw_path, preview_dir=None)]; the second argument is
    not used by the body. *)
Definition get_preview_path (raw_path : string) : string :=
  let raw_file := Pathlib.parse (to_chars raw_path) in
  let preview_file :=
    Pathlib.joinpath (Pathlib.parent raw_file)
      (Pathlib.stem raw_file ++ to_chars "_preview.jpg") in
  of_chars (Pathlib.to_chars preview_file).

(** ** The outside world of the RAW pipeline *)

(** rawpy, PIL, the file system and the clock. Each call may change the
    world and may raise. *)
Record System := {
  world : Type;
  raw_image : Type;      (* an open [rawpy.RawPy] *)
  pixels : Type;         (* the array [postprocess] returns *)
  image : Type;          (* a [PIL.Image] *)
  rawpy_imread : string -> world -> world * outcome raw_image;
  raw_postprocess : raw_image -> postprocess_args -> world -> world * outcome pixels;
  raw_close : raw_image -> world -> world * outcome unit;
  (** [raw.metadata], when [hasattr(raw, 'metadata')] *)
  raw_metadata_of : raw_image -> option raw_metadata;
  Image_fromarray : pixels -> world -> world * outcome image;
  img_thumbnail : image -> Z * Z -> resample -> world -> world * outcome image;
  os_makedirs : string -> bool -> world -> world * outcome unit;
  img_save : image -> string -> save_args -> world -> world * outcome unit;
  os_path_getsize : string -> world -> outcome Z;
  os_path_exists : string -> world -> bool;
  os_walk : string -> world -> list (string * list string * list string);
  (** [datetime.fromtimestamp(ts)], in local time *)
  datetime_fromtimestamp : Z -> outcome string;
  (** [datetime.now().isoformat()] *)
  datetime_now_isoformat : world -> string
}.

(** ** [convert_raw_to_preview] *)

(** The keyword arguments the source passes to [raw.postprocess]. *)
Definition postprocess_kwargs : postprocess_args :=
  {| use_camera_wb := true;
     half_size := true;
     no_auto_bright := false;
     output_bps := 8 |}.

Definition getsize (S : System) (path : string) : M (world S) Z :=
  call (EvGetsize path) (fun w => (w, os_path_getsize S path w)).

(** [with rawpy.imread(path) as raw: body(raw)] *)
Definition with_imread {A} (S : System) (path : string)
    (body : raw_image S -> M (world S) A) : M (world S) A :=
  raw <- call (EvImread path) (rawpy_imread S path) ;;
  try_finally (body raw) (call EvClose (raw_close S raw)).

Definition convert_raw_to_preview (S : System) (raw_path preview_path : string)
    (max_size quality : Z) : M (world S) (bool * pyval) :=
  try_except
    (rgb <- with_imread S raw_path (fun raw =>
              call (EvPostprocess postprocess_kwargs)
                   (raw_postprocess S raw postprocess_kwargs)) ;;
     img <- call EvFromarray (Image_fromarray S rgb) ;;
     img <- call (EvThumbnail max_size max_size LANCZOS)
                 (img_thumbnail S img (max_size, max_size) LANCZOS) ;;
     (let dir := Pathlib.os_path_dirname preview_path in
      call (EvMakedirs dir true) (os_makedirs S dir true)) ;;;
     (let args := SaveArgs "JPEG" quality true true in
      call (EvSave preview_path args) (img_save S img preview_path args)) ;;;
     size <- getsize S preview_path ;;
     ret (true, VInt size))
    (fun e => ret (false, VStr (exn_str e))).

(** ** [extract_exif_from_raw] *)

(** [int(x)] for a float. *)
Definition int_of_float (x : Float.t) : outcome Z :=
  match x with
  | S754_nan => Raise (Exn ValueError "cannot convert float NaN to integer")
  | S754_infinity _ =>
      Raise (Exn OverflowError "cannot convert float infinity to integer")
  | S754_zero _ => Ret 0%Z
  | S754_finite s m e => Ret (Float.trunc_finite s m e)
  end.

(** [round(x)] for a float. *)
Definition round_of_float (x : Float.t) : outcome Z :=
  match x with
  | S754_nan => Raise (Exn ValueError "cannot convert float NaN to integer")
  | S754_infinity _ =>
      Raise (Exn OverflowError "cannot convert float infinity to integer")
  | S754_zero _ => Ret 0%Z
  | S754_finite s m e => Ret (Float.round_finite s m e)
  end.

(** [1/ss] for a float [ss]. *)
Definition reciprocal (ss : Float.t) : outcome Float.t :=
  if Float.is_zero ss then Raise (Exn ZeroDivisionError "float division by zero")
  else Ret (Float.div Float.one ss).

(** The shutter-speed text: [f"{ss:.1f}s"] if [ss >= 1], else
    [f"1/{int(1/ss)}"]. *)
Definition format_shutter (ss : Float.t) : outcome string :=
  if Float.geb ss Float.one then Ret (Float.format_fixed 1 ss +:+ "s")
  else
    match reciprocal ss with
    | Ret r =>
        match int_of_float r with
        | Ret y => Ret ("1/" +:+ str_of_int y)
        | Raise e => Raise e
        end
    | Raise e => Raise e
    end.

Definition format_aperture (a : Float.t) : string :=
  "f/" +:+ Float.format_fixed 1 a.

Definition format_focal_length (f : Float.t) : string :=
  Float.format_fixed 0 f +:+ "mm".

Abbreviation dict := (gmap string pyval).

(** The dictionary the extraction starts from: every key is [None]. *)
Definition empty_metadata : dict :=
  <["camera_make" := VNone]> (
  <["camera_model" := VNone]> (
  <["lens_model" := VNone]> (
  <["iso" := VNone]> (
  <["aperture" := VNone]> (
  <["shutter_speed" := VNone]> (
  <["focal_length" := VNone]> (
  <["datetime" := VNone]> (
  <["gps_latitude" := VNone]> (
  <["gps_longitude" := VNone]> ∅))))))))).

(** [metadata[k] = v]: the dictionary is a mutable object, so it lives in
    the state and keeps its entries when a later step raises. *)
Definition setitem {W} (k : string) (v : pyval) : M (W * dict) unit :=
  fun wd => ((wd.1, <[k := v]> wd.2), [], Ret tt).

(** [metadata[k]] *)
Definition getitem (k : string) (d : dict) : outcome pyval :=
  match d !! k with
  | Some v => Ret v
  | None => Raise (Exn "KeyError" k)
  end.

Definition of_outcome {W A} (o : outcome A) : M W A :=
  match o with Ret a => ret a | Raise e => raise e end.

(** [if hasattr(obj, attr): body(obj.attr)] *)
Definition when_some {W A} (o : option A) (body : A -> M W unit) : M W unit :=
  match o with Some a => body a | None => ret tt end.

(** The statements under [if hasattr(raw, 'metadata'):]. *)
Definition fill_metadata (S : System) (md : raw_metadata)
  : M (world S * dict) unit :=
  setitem "camera_make" (of_opt_str (md_make md)) ;;;
  setitem "camera_model" (of_opt_str (md_model md)) ;;;
  setitem "iso" (of_opt_int (md_iso_speed md)) ;;;
  when_some (md_aperture md) (fun a =>
    setitem "aperture" (VStr (format_aperture a))) ;;;
  when_some (md_shutter md) (fun ss =>
    s <- of_outcome (format_shutter ss) ;;
    setitem "shutter_speed" (VStr s)) ;;;
  when_some (md_focal_length md) (fun f =>
    setitem "focal_length" (VStr (format_focal_length f))) ;;;
  when_some (md_timestamp md) (fun ts =>
    t <- of_outcome (datetime_fromtimestamp S ts) ;;
    setitem "datetime" (VDatetime t)).

(** The [try] block of the extraction, with the dictionary in the state. *)
Definition extract_exif_body (S : System) (raw_path : string)
  : M (world S * dict) unit :=
  try_except
    (raw <- lift_fst (call (EvImread raw_path) (rawpy_imread S raw_path)) ;;
     try_finally
       (when_some (raw_metadata_of S raw) (fill_metadata S))
       (lift_fst (call EvClose (raw_close S raw))))
    (fun e => ret tt).

Definition extract_exif_from_raw (S : System) (raw_path : string)
  : M (world S) dict :=
  fun w =>
    match extract_exif_body S raw_path (w, empty_metadata) with
    | ((w', metadata), l, _) => (w', l, Ret metadata)
    end.

(** ** [scan_raw_files] *)

Definition PREVIEW_SIZE : Z := 1080.
Definition PREVIEW_QUALITY : Z := 85.

Definition RAW_EXTENSIONS : gset string :=
  {[ ".arw"; ".cr2"; ".nef"; ".dng"; ".raf"; ".orf"; ".rw2"; ".pef"; ".srw"; ".cr3" ]}.

(** [Path(file).suffix.lower() in RAW_EXTENSIONS] *)
Definition is_raw_file (file : string) : bool :=
  bool_decide
    (str_lower (of_chars (Pathlib.suffix (Pathlib.parse (to_chars file))))
       ∈ RAW_EXTENSIONS).

(** [limit and len(raw_files) >= limit] *)
Definition limit_reached (limit : option Z) (raw_files : list string) : bool :=
  match limit with
  | Some n => negb (n =? 0)%Z && (n <=? Z.of_nat (length raw_files))%Z
  | None => false
  end.

(** The inner loop over the files of one directory, with its [break]. *)
Fixpoint collect_files (root : string) (files : list string)
    (limit : option Z) (raw_files : list string) : list string :=
  match files with
  | [] => raw_files
  | file :: rest =>
      if is_raw_file file then
        let raw_files' := raw_files ++ [Pathlib.os_path_join root file] in
        if limit_reached limit raw_files' then raw_files'
        else collect_files root rest limit raw_files'
      else collect_files root rest limit raw_files
  end.

(** The outer loop over [os.walk(directory)], with its [break]. *)
Fixpoint collect_dirs (walk : list (string * list string * list string))
    (limit : option Z) (raw_files : list string) : list string :=
  match walk with
  | [] => raw_files
  | (root, _, files) :: rest =>
      let raw_files' := collect_files root files limit raw_files in
      if limit_reached limit raw_files' then raw_files'
      else collect_dirs rest limit raw_files'
  end.

(** What became of the catalog write of a converted file. *)
Inductive catalog_outcome :=
| CatalogOff                      (* [update_db] is false *)
| CatalogWritten
| CatalogFailed (e : exn).        (* the [except] branch printed [e] *)

(** Which branch an iteration of the main loop took. *)
Inductive file_outcome :=
| FileSkipped
| FileFailed (reason : pyval)
| FileConverted (c : catalog_outcome).

(** The three counters of the loop, and a ghost record of the branch each
    iteration took, in order. *)
Record scan_state := ScanState {
  processed : Z;
  skipped : Z;
  failed : Z;
  outcomes : list file_outcome
}.

Definition initial_state : scan_state := ScanState 0 0 0 [].

(** [n / 2^k] for an [int] [n]: true division by a power of two is the
    float nearest to the quotient. *)
Definition truediv_pow2 (n k : Z) : Float.t := Float.of_scaled n (- k).

(** [result / 1024] *)
Definition result_kb (result : pyval) : outcome Float.t :=
  match result with
  | VInt n => Ret (truediv_pow2 n 10)
  | _ => Raise (Exn "TypeError" "unsupported operand type(s) for /")
  end.

(** The tuple of parameters of the [INSERT OR REPLACE], evaluated left to
    right. *)
Definition upsert_params (S : System) (raw_path preview_path : string)
    (client_name date : option string) (metadata : dict)
    (raw_size_mb preview_size_kb : Float.t) : M (world S) raw_photo :=
  v1 <- of_outcome (getitem "camera_make" metadata) ;;
  v2 <- of_outcome (getitem "camera_model" metadata) ;;
  v3 <- of_outcome (getitem "lens_model" metadata) ;;
  v4 <- of_outcome (getitem "iso" metadata) ;;
  v5 <- of_outcome (getitem "aperture" metadata) ;;
  v6 <- of_outcome (getitem "shutter_speed" metadata) ;;
  v7 <- of_outcome (getitem "focal_length" metadata) ;;
  v8 <- of_outcome (getitem "datetime" metadata) ;;
  v9 <- of_outcome (getitem "gps_latitude" metadata) ;;
  v10 <- of_outcome (getitem "gps_longitude" metadata) ;;
  fun w =>
    (w, [], Ret (RawPhoto raw_path preview_path client_name date
                   v1 v2 v3 v4 v5 v6 v7 v8 v9 v10
                   raw_size_mb preview_size_kb (datetime_now_isoformat S w))).

(** The statements under [if update_db:] inside the loop. *)
Definition index_file (S : System) (raw_path preview_path : string)
    (preview_size_kb : Float.t) : M (world S * Sqlite.database) catalog_outcome :=
  let (client_name, date) := Parse.parse_client_info raw_path in
  metadata <- lift_fst (extract_exif_from_raw S raw_path) ;;
  size <- lift_fst (getsize S raw_path) ;;
  let raw_size_mb := truediv_pow2 size 20 in
  try_except
    (row <- lift_fst (upsert_params S raw_path preview_path client_name date
                        metadata raw_size_mb preview_size_kb) ;;
     lift_snd (db_execute_with_retry_default Sqlite.execute (InsertOrReplace row)) ;;;
     ret CatalogWritten)
    (fun e => ret (CatalogFailed e)).

(** The main loop. *)
Fixpoint scan_loop (S : System) (update_db regenerate : bool)
    (raw_files : list string) (st : scan_state)
  : M (world S * Sqlite.database) scan_state :=
  match raw_files with
  | [] => ret st
  | raw_path :: rest =>
      let preview_path := get_preview_path raw_path in
      skip <- (if negb regenerate
               then lift_fst (query (EvExists preview_path)
                                    (os_path_exists S preview_path))
               else ret false) ;;
      if skip : bool then
        scan_loop S update_db regenerate rest
          (ScanState (processed st) (skipped st + 1) (failed st)
                     (outcomes st ++ [FileSkipped]))
      else
        r <- lift_fst (convert_raw_to_preview S raw_path preview_path
                         PREVIEW_SIZE PREVIEW_QUALITY) ;;
        let (success, result) := r : bool * pyval in
        if negb success then
          scan_loop S update_db regenerate rest
            (ScanState (processed st) (skipped st) (failed st + 1)
                       (outcomes st ++ [FileFailed result]))
        else
          preview_size_kb <- of_outcome (result_kb result) ;;
          let processed' := (processed st + 1)%Z in
          c <- (if update_db
                then index_file S raw_path preview_path preview_size_kb
                else ret CatalogOff) ;;
          (if update_db && (processed' mod 50 =? 0)%Z
           then lift_snd Sqlite.commit else ret tt) ;;;
          scan_loop S update_db regenerate rest
            (ScanState processed' (skipped st) (failed st)
                       (outcomes st ++ [FileConverted c]))
  end.

(** The candidate files of a run. *)
Definition candidates (S : System) (directory : string) (limit : option Z)
    (w : world S) : list string :=
  collect_dirs (os_walk S directory w) limit [].

(** [scan_raw_files(directory, update_db, regenerate, limit)]. The result
    is [None] when the function returns early for lack of RAW files, and
    otherwise the counters it prints. *)
Definition scan_raw_files (S : System) (directory : string)
    (update_db regenerate : bool) (limit : option Z)
  : M (world S * Sqlite.database) (option scan_state) :=
  fun w =>
    let raw_files := candidates S directory limit w.1 in
    match raw_files with
    | [] => ret None w
    | _ =>
        ((if update_db
          then lift_snd (Sqlite.connect ;;;
                         db_execute_with_retry_default
                           Sqlite.execute CreateTableIfNotExists ;;;
                         Sqlite.commit)
          else ret tt) ;;;
         st <- scan_loop S update_db regenerate raw_files initial_state ;;
         (if update_db then lift_snd Sqlite.commit else ret tt) ;;;
         ret (Some st)) w
    end.

(** ** The limit of a query *)

(** Python prints no [int] of more than 4300 digits: [f"{n}"] raises
    [ValueError]. *)
Definition int_max_str_digits : nat := 4300.

Definition int_too_long (n : Z) : bool :=
  (int_max_str_digits <? length (decimal_chars (Z.abs n)))%nat.

Definition digits_error : exn :=
  Exn ValueError
    "Exceeds the limit (4300 digits) for integer string conversion; use sys.set_int_max_str_digits() to increase the limit".

(** SQLite reads a [LIMIT] outside the signed 64-bit range as a float
    and rejects it when the statement runs: sqlite3 raises
    [IntegrityError]. *)
Definition mismatch_error : exn :=
  Exn "sqlite3.IntegrityError" "datatype mismatch".

(** What [f"... LIMIT {limit}"] and the run of the statement make of a
    limit: the error raised, if any. *)
Definition limit_error (limit : Z) : option exn :=
  if int_too_long limit then Some digits_error
  else if Sqlite.int64_ok limit then None
  else Some mismatch_error.

(** ** [search_all_photos] *)

Module PhotoSearch.

(** What a query reads of a catalog row: the selected path column
    ([filepath] of [photos], [preview_path] of [raw_photos]), the three
    text columns, and whether each GPS column holds a value (the query
    only tests them with [IS NOT NULL]). *)
Record photo_row := PhotoRow {
  ph_path : option string;
  ph_client : option string;
  ph_date : option string;
  ph_camera : option string;
  ph_has_lat : bool;
  ph_has_lon : bool
}.

(** A fetched row: four selected columns and the literal [type]. *)
Record result_row := ResultRow {
  res_path : option string;
  res_client : option string;
  res_date : option string;
  res_camera : option string;
  res_type : string
}.

(** A catalog file as the search finds it. *)
Inductive catalog :=
| Absent                          (* [os.path.exists] is false *)
| Failing (e : exn)               (* connecting or querying raises *)
| Present (rows : list photo_row).  (* the table can be read *)

(** SQLite's [LIKE]: [%] is any run, [_] any one character, letters of
    ASCII match without case. *)
Fixpoint like (p t : chars) : bool :=
  match p with
  | [] => match t with [] => true | _ => false end
  | c :: p' =>
      if Chars.eqb c "%"%char then
        (fix any (t : chars) : bool :=
           like p' t || match t with [] => false | _ :: t' => any t' end) t
      else
        match t with
        | [] => false
        | c' :: t' =>
            (Chars.eqb c "_"%char
             || Chars.eqb (Chars.sql_fold c) (Chars.sql_fold c'))
            && like p' t'
        end
  end.

(** [if arg: query += " AND col LIKE ?"] with parameter [%arg%]. *)
Definition like_clause (arg : option string) (col : option string) : bool :=
  match arg with
  | None => true
  | Some a =>
      if String.eqb a "" then true
      else match col with
           | None => false
           | Some v => like (to_chars ("%" +:+ a +:+ "%")) (to_chars v)
           end
  end.

(** [if date: query += " AND date = ?"] *)
Definition date_clause (arg : option string) (col : option string) : bool :=
  match arg with
  | None => true
  | Some a =>
      if String.eqb a "" then true
      else match col with
           | None => false
           | Some v => String.eqb v a
           end
  end.

(** [if location: ... gps_latitude IS NOT NULL AND gps_longitude IS NOT NULL] *)
Definition location_clause (location : bool) (r : photo_row) : bool :=
  if location then ph_has_lat r && ph_has_lon r else true.

Definition where_clause (client date camera : option string)
    (location : bool) (r : photo_row) : bool :=
  like_clause client (ph_client r) && date_clause date (ph_date r)
  && like_clause camera (ph_camera r) && location_clause location r.

(** Text order of the [BINARY] collation. *)
Fixpoint chars_leb (a b : chars) : bool :=
  match a, b with
  | [], _ => true
  | _ :: _, [] => false
  | x :: a', y :: b' =>
      (Chars.code x <? Chars.code y)%nat
      || ((Chars.code x =? Chars.code y)%nat && chars_leb a' b')
  end.

(** [a] may come before [b] under [ORDER BY date DESC]: [NULL] sorts
    last. *)
Definition date_desc (a b : photo_row) : bool :=
  match ph_date a, ph_date b with
  | _, None => true
  | None, Some _ => false
  | Some x, Some y => chars_leb (to_chars y) (to_chars x)
  end.

Fixpoint insert_desc (r : photo_row) (l : list photo_row) : list photo_row :=
  match l with
  | [] => [r]
  | x :: l' => if date_desc x r then x :: insert_desc r l' else r :: l
  end.

(** [ORDER BY date DESC]. SQLite does not fix the order of rows with
    equal dates; this sort keeps them in table order. *)
Definition order_by_date_desc (l : list photo_row) : list photo_row :=
  fold_left (fun acc r => insert_desc r acc) l [].

(** [LIMIT n] when the statement runs, that is for a limit without
    [limit_error]: a negative [n] is no limit. *)
Definition sql_limit (n : Z) (l : list photo_row) : list photo_row :=
  if (n <? 0)%Z then l else firstn (Z.to_nat n) l.

Definition tag (type : string) (r : photo_row) : result_row :=
  ResultRow (ph_path r) (ph_client r) (ph_date r) (ph_camera r) type.

Definition has_path (r : photo_row) : bool :=
  match ph_path r with Some _ => true | None => false end.

(** The rows the query on the JPG catalog fetches when it runs. *)
Definition select_jpg (rows : list photo_row)
    (client date camera : option string) (location : bool) (limit : Z)
  : list result_row :=
  map (tag "JPG")
    (sql_limit limit
       (order_by_date_desc
          (List.filter (where_clause client date camera location) rows))).

(** The rows the query on the RAW catalog fetches when it runs:
    [preview_path IS NOT NULL] first. *)
Definition select_raw (rows : list photo_row)
    (client date camera : option string) (location : bool) (limit : Z)
  : list result_row :=
  map (tag "RAW")
    (sql_limit limit
       (order_by_date_desc
          (List.filter
             (fun r => has_path r && where_clause client date camera location r)
             rows))).

(** The [try] block on one catalog file: [None] when the file does not
    exist and the block is not entered. On a catalog that can be read
    the block raises when the limit is refused. *)
Definition fetch_from (c : catalog) (limit : Z)
    (select : list photo_row -> list result_row)
  : option (outcome (list result_row)) :=
  match c with
  | Absent => None
  | Failing e => Some (Raise e)
  | Present rows =>
      Some (match limit_error limit with
            | Some e => Raise e
            | None => Ret (select rows)
            end)
  end.

(** [results.extend(cursor.fetchall())] inside [if exists: try: ...
    except Exception as e: print(...)]. *)
Definition extend_from (results : list result_row)
    (fetched : option (outcome (list result_row))) : list result_row :=
  match fetched with
  | Some (Ret rows) => results ++ rows
  | Some (Raise _) | None => results
  end.

(** What the [except] branch prints. *)
Definition warning (name : string)
    (fetched : option (outcome (list result_row))) : list string :=
  match fetched with
  | Some (Raise e) =>
      ["Warning: Could not search " +:+ name +:+ " database: " +:+ exn_str e]
  | Some (Ret _) | None => []
  end.

(** [search_all_photos(client, date, camera, location, limit)] on the
    two catalog files: what it returns. *)
Definition search_all_photos (jpg_db raw_db : catalog)
    (client date camera : option string) (location : bool) (limit : Z)
  : list result_row :=
  let results := [] in
  let results :=
    extend_from results
      (fetch_from jpg_db limit
         (fun rows => select_jpg rows client date camera location limit)) in
  let results :=
    extend_from results
      (fetch_from raw_db limit
         (fun rows => select_raw rows client date camera location limit)) in
  results.

(** What [search_all_photos] prints, in order. *)
Definition search_all_warnings (jpg_db raw_db : catalog)
    (client date camera : option string) (location : bool) (limit : Z)
  : list string :=
  warning "JPG"
    (fetch_from jpg_db limit
       (fun rows => select_jpg rows client date camera location limit))
  ++ warning "RAW"
       (fetch_from raw_db limit
          (fun rows => select_raw rows client date camera location limit)).

(** The text SQLite keeps in a [TEXT] column for a bound value. *)
Definition sql_text (v : pyval) : option string :=
  match v with
  | VNone => None
  | VStr s => Some s
  | VInt n => Some (str_of_int n)
  | VDatetime t => Some t
  end.

(** A row of [raw_photos] as the search reads it. *)
Definition view (row : stored_row) : photo_row :=
  let r := row_data row in
  PhotoRow (Some (preview_path r)) (client_name r) (date r)
           (sql_text (camera_model r))
           (negb (is_none (gps_latitude r)))
           (negb (is_none (gps_longitude r))).

(** The RAW catalog file as another connection reads it. *)
Definition raw_catalog (db : Sqlite.database) : catalog :=
  let t := Sqlite.db_saved db in
  if Sqlite.tbl_exists t then Present (map view (Sqlite.tbl_rows t))
  else Failing (Exn OperationalError "no such table: raw_photos").

End PhotoSearch.

(** ** A simulated system for running the pipeline on concrete inputs *)

Module Sim.

(** The world is a file system: the size in bytes of each file. A RAW
    file decodes when it exists and is not empty; a preview of a RAW
    file of [n] bytes takes [n / 64 + 1] bytes. *)
Record fs := Fs {
  files : gmap string Z;
  tree : list (string * list string * list string)
}.

Definition imread (path : string) (w : fs) : fs * outcome Z :=
  match files w !! path with
  | Some n =>
      if (0 <? n)%Z then (w, Ret n)
      else (w, Raise (Exn "rawpy.LibRawIOError" "Input/output error"))
  | None => (w, Raise (Exn "rawpy.LibRawIOError" "Input/output error"))
  end.

Definition makedirs (dir : string) (exist_ok : bool) (w : fs) : fs * outcome unit :=
  if String.eqb dir "" then
    (w, Raise (Exn "FileNotFoundError" "[Errno 2] No such file or directory: ''"))
  else (w, Ret tt).

Definition save (img : Z) (path : string) (a : save_args) (w : fs)
  : fs * outcome unit :=
  (Fs (<[path := (img / 64 + 1)%Z]> (files w)) (tree w), Ret tt).

Definition path_getsize (path : string) (w : fs) : outcome Z :=
  match files w !! path with
  | Some n => Ret n
  | None => Raise (Exn "FileNotFoundError" "[Errno 2] No such file or directory")
  end.

Definition system : System := {|
  world := fs;
  raw_image := Z;
  pixels := Z;
  image := Z;
  rawpy_imread := imread;
  raw_postprocess := fun raw _ w => (w, Ret raw);
  raw_close := fun _ w => (w, Ret tt);
  raw_metadata_of := fun _ => None;
  Image_fromarray := fun rgb w => (w, Ret rgb);
  img_thumbnail := fun img _ _ w => (w, Ret img);
  os_makedirs := makedirs;
  img_save := save;
  os_path_getsize := path_getsize;
  os_path_exists := fun path w => bool_decide (is_Some (files w !! path));
  os_walk := fun _ w => tree w;
  datetime_fromtimestamp := fun ts => Ret (str_of_int ts);
  datetime_now_isoformat := fun _ => "2024-05-01T12:00:00"
|}.

(** A cursor that raises the scripted outcomes in turn and then runs. *)
Definition scripted : cursor (list (option exn)) := fun _ script =>
  match script with
  | Some e :: rest => (rest, Raise e)
  | None :: rest => (rest, Ret tt)
  | [] => ([], Ret tt)
  end.

Definition locked : exn := Exn OperationalError "database is locked".

End Sim.

(** ** Vocabulary of the properties *)

(** [sat I P Q m]: from a world that satisfies [I], the computation [m]
    ends in a world that satisfies [I], logs only calls that satisfy [P]
    and its outcome satisfies [Q]. *)
Definition sat {W A} (I : W -> Prop) (P : event -> Prop)
    (Q : outcome A -> Prop) (m : M W A) : Prop :=
  forall w, I w ->
    I (run_world (m w)) /\ Forall P (run_log (m w)) /\ Q (run_result (m w)).

Definition any_world {W} : W -> Prop := fun _ => True.
Definition any_outcome {A} : outcome A -> Prop := fun _ => True.

(** An exception that reports a busy or locked store. *)
Definition locked_exn (e : exn) : Prop :=
  is_OperationalError e = true /\ str_contains "locked" (exn_str e) = true.

(** [lock_held cur q w es w']: from the world [w], the next calls of
    [execute] raise the errors [es] in turn, each of them a locked error,
    and leave the world [w']. *)
Inductive lock_held {W} (cur : cursor W) (q : statement)
  : W -> list exn -> W -> Prop :=
| held_nil w : lock_held cur q w [] w
| held_cons w w1 e es w' :
    cur q w = (w1, Raise e) ->
    locked_exn e ->
    lock_held cur q w1 es w' ->
    lock_held cur q w (e :: es) w'.

Definition is_execute (ev : event) : bool :=
  match ev with EvExecute _ => true | _ => false end.

(** The number of attempts a log records. *)
Definition attempts_of (log : list event) : nat :=
  length (List.filter is_execute log).

(** The durations slept, in order. *)
Definition sleeps_of (log : list event) : list Float.t :=
  flat_map (fun ev => match ev with EvSleep d => [d] | _ => [] end) log.

(** [n] failed attempts, the one of index [k] followed by a sleep of
    [delay * k]. *)
Definition backoff_log (q : statement) (delay : Float.t) (n : nat) : list event :=
  flat_map (fun k => [EvExecute q; EvSleep (Float.mul delay (Float.of_int k))])
           (map Z.of_nat (seq 1 n)).

(** The durations slept before the retries 1 to [n]. *)
Definition backoff_delays (delay : Float.t) (n : nat) : list Float.t :=
  map (fun k => Float.mul delay (Float.of_int k)) (map Z.of_nat (seq 1 n)).

(** Two attempts meet a locked store, the third runs. *)
Definition script_clears : list (option exn) :=
  [Some Sim.locked; Some Sim.locked; None].

(** The store stays locked for longer than the call retries. *)
Definition script_stuck : list (option exn) := repeat (Some Sim.locked) 7.

(** A first extraction that found a lens and a position, and a second one
    of the same file that found nothing. *)
Definition photo_A : raw_photo :=
  RawPhoto "/p/a.CR2" "/p/a_preview.jpg" (Some "Smith") (Some "2024-05-01")
    (VStr "Canon") (VStr "EOS R5") (VStr "RF 50mm") (VInt 100)
    (VStr "f/2.8") (VStr "1/60") (VStr "50mm") (VDatetime "2024-05-01 10:00:00")
    (VStr "48.85") (VStr "2.35")
    (truediv_pow2 26214400 20) (truediv_pow2 204800 10) "2024-05-01T12:00:00".

Definition photo_B : raw_photo :=
  RawPhoto "/p/a.CR2" "/p/a_preview.jpg" None None
    VNone VNone VNone VNone VNone VNone VNone VNone VNone VNone
    (truediv_pow2 26214400 20) (truediv_pow2 102400 10) "2024-05-02T09:30:00".

(** A catalog whose table exists and holds one other file; the store is
    locked once. *)
Definition catalog_0 : Sqlite.database :=
  let t := Sqlite.Table true
             [StoredRow 1 (RawPhoto "/p/z.NEF" "/p/z_preview.jpg" None None
                 VNone VNone VNone VNone VNone VNone VNone VNone VNone VNone
                 (truediv_pow2 1048576 20) (truediv_pow2 1024 10)
                 "2024-04-30T08:00:00")] 1 in
  Sqlite.Database t t [Some Sim.locked].

(** The shape [YYYY-MM-DD]. *)
Definition date_shaped (d : chars) : bool :=
  match d with
  | [y1; y2; y3; y4; h1; m1; m2; h2; d1; d2] =>
      forallb Chars.is_digit [y1; y2; y3; y4; m1; m2; d1; d2]
      && Chars.eqb h1 "-"%char && Chars.eqb h2 "-"%char
  | _ => false
  end.

(** The shutter-speed text as the specification words it: [Y] is the
    reciprocal rounded to the nearest integer. *)
Definition format_shutter_rounded (ss : Float.t) : outcome string :=
  if Float.geb ss Float.one then Ret (Float.format_fixed 1 ss +:+ "s")
  else
    match reciprocal ss with
    | Ret r =>
        match round_of_float r with
        | Ret y => Ret ("1/" +:+ str_of_int y)
        | Raise e => Raise e
        end
    | Raise e => Raise e
    end.

(** [y] is the finite float [(-1)^s * m * 2^e] with its fraction
    dropped. *)
Definition truncation_of (s : bool) (m : positive) (e : Z) (y : Z) : Prop :=
  (if s then (y <= 0)%Z else (0 <= y)%Z)
  /\ if (0 <=? e)%Z then Z.abs y = (Z.pos m * 2 ^ e)%Z
     else (Z.abs y * 2 ^ (- e) <= Z.pos m < (Z.abs y + 1) * 2 ^ (- e))%Z.

(** An exposure of 0.625 s. *)
Definition exposure_0625 : Float.t := Float.of_scaled 5 (-3).

(** An exposure of 2.5 s. *)
Definition exposure_25 : Float.t := Float.of_scaled 5 (-1).

Definition is_postprocess (ev : event) : bool :=
  match ev with EvPostprocess _ => true | _ => false end.

(** The number of calls of [raw.postprocess] a log records. *)
Definition postprocess_calls (log : list event) : nat :=
  length (List.filter is_postprocess log).

(** The configuration the specification describes: half size, camera
    white balance, auto-brightness disabled, 8 bits. *)
Definition postprocess_as_claimed : postprocess_args :=
  {| use_camera_wb := true;
     half_size := true;
     no_auto_bright := true;
     output_bps := 8 |}.

(** A RAW file of 6400 bytes named [/p/a.CR2]. *)
Definition one_raw_file : Sim.fs :=
  Sim.Fs (<["/p/a.CR2" := 6400%Z]> ∅) [("/p", [], ["a.CR2"])].

(** The three keys that the extraction initialises and never assigns. *)
Definition null_lens_gps (d : dict) : Prop :=
  d !! "lens_model" = Some VNone
  /\ d !! "gps_latitude" = Some VNone
  /\ d !! "gps_longitude" = Some VNone.

Definition other_key (k : string) : Prop :=
  k <> "lens_model" /\ k <> "gps_latitude" /\ k <> "gps_longitude".

(** A record with no lens and no position. *)
Definition no_lens_no_gps (r : raw_photo) : Prop :=
  lens_model r = VNone /\ gps_latitude r = VNone /\ gps_longitude r = VNone.

(** Every upsert the log records carries such a record. *)
Definition upserts_without_gps (ev : event) : Prop :=
  match ev with
  | EvExecute (InsertOrReplace r) => no_lens_no_gps r
  | _ => True
  end.

Definition is_skipped (o : file_outcome) : bool :=
  match o with FileSkipped => true | _ => false end.

Definition is_failed (o : file_outcome) : bool :=
  match o with FileFailed _ => true | _ => false end.

(** Converted, whatever became of the catalog write. *)
Definition is_converted (o : file_outcome) : bool :=
  match o with FileConverted _ => true | _ => false end.

Definition count_of (p : file_outcome -> bool) (os : list file_outcome) : Z :=
  Z.of_nat (length (List.filter p os)).

(** Each counter counts the iterations that took its branch. *)
Definition counted (st : scan_state) : Prop :=
  processed st = count_of is_converted (outcomes st)
  /\ skipped st = count_of is_skipped (outcomes st)
  /\ failed st = count_of is_failed (outcomes st).

Definition returns {A} (r : outcome A) : Prop := raised r = false.

(** A shoot with a converted preview already in place, a fresh RAW file
    and a RAW file that cannot be decoded. *)
Definition shoot : Sim.fs :=
  Sim.Fs
    (<["/p/2024-05-01 Smith/a.CR2" := 6400%Z]> (
     <["/p/2024-05-01 Smith/b.nef" := 0%Z]> (
     <["/p/c_preview.jpg" := 5%Z]> (
     <["/p/c.dng" := 500%Z]> ∅))))
    [("/p", ["2024-05-01 Smith"], ["c.dng"; "notes.txt"]);
     ("/p/2024-05-01 Smith", [], ["a.CR2"; "b.nef"])].

(** An empty catalog that another process keeps locked while the scan
    tries to write its first row. *)
Definition busy_catalog : Sqlite.database :=
  Sqlite.Database Sqlite.empty_table Sqlite.empty_table
    ([None; None; None] ++ repeat (Some Sim.locked) 5).

(** An empty catalog that nothing else uses. *)
Definition idle_catalog : Sqlite.database :=
  Sqlite.Database Sqlite.empty_table Sqlite.empty_table [].

(** The record the scan builds for [a.CR2]. *)
Definition photo_a : raw_photo :=
  RawPhoto "/p/2024-05-01 Smith/a.CR2" "/p/2024-05-01 Smith/a_preview.jpg"
    (Some "Smith") (Some "2024-05-01")
    VNone VNone VNone VNone VNone VNone VNone VNone VNone VNone
    (truediv_pow2 6400 20) (truediv_pow2 101 10) "2024-05-01T12:00:00".

Definition no_slash (x : chars) : Prop :=
  Forall (fun c => Pathlib.is_slash c = false) x.

(** A component as the parser keeps it: not empty, not a single dot, free
    of separators. *)
Definition wf_part (x : chars) : Prop :=
  Pathlib.keep_part x = true /\ no_slash x.

Definition wf_root (r : chars) : Prop :=
  r = [] \/ r = [Pathlib.slash] \/ r = [Pathlib.slash; Pathlib.slash].

(** A path in the normal form of [pathlib]. *)
Definition wf_path (p : Pathlib.path) : Prop :=
  wf_root (Pathlib.root p) /\ Forall wf_part (Pathlib.parts p).

(** The file name of the preview of a parsed source path. *)
Definition preview_name (p : Pathlib.path) : chars :=
  Pathlib.stem p ++ to_chars "_preview.jpg".

(** [str(Path(s).parent)]: the directory of a source path. *)
Definition directory_of (s : string) : string :=
  of_chars (Pathlib.to_chars (Pathlib.parent (Pathlib.parse (to_chars s)))).

(** [Path(s).stem] *)
Definition stem_of (s : string) : string :=
  of_chars (Pathlib.stem (Pathlib.parse (to_chars s))).

(** The parsed preview path of a parsed source path: the components of
    the parent, then the preview name. *)
Definition preview_of (p : Pathlib.path) : Pathlib.path :=
  Pathlib.Path (Pathlib.root p)
    (Pathlib.parts (Pathlib.parent p) ++ [preview_name p]).

(** A JPG catalog and a RAW catalog with one photo each. *)
Definition jpg_one : PhotoSearch.catalog :=
  PhotoSearch.Present
    [PhotoSearch.PhotoRow (Some "/jpg/a.jpg") (Some "Smith") (Some "2024-05-01")
       (Some "EOS R5") false false].

Definition raw_one : PhotoSearch.catalog :=
  PhotoSearch.Present
    [PhotoSearch.PhotoRow (Some "/p/a_preview.jpg") (Some "Smith")
       (Some "2024-05-02") None false false].

(** *** What becomes of each file of a scan *)

(** The branch of the loop a file takes, read off the two tests of the
    source: its preview exists and previews are not regenerated;
    otherwise, whether the conversion reports success. The catalog write
    has no part in it. *)
Inductive fate := Skipped | Processed | Failed.

Definition fate_of (S : System) (regenerate : bool) (raw_path : string)
    (w : world S) : fate :=
  let preview_path := get_preview_path raw_path in
  if negb regenerate && os_path_exists S preview_path w then Skipped
  else
    match run_result (convert_raw_to_preview S raw_path preview_path
                        PREVIEW_SIZE PREVIEW_QUALITY w) with
    | Ret (true, _) => Processed
    | _ => Failed
    end.

(** The connection and the creation of the table, before the loop. *)
Definition open_catalog (S : System) (update_db : bool)
  : M (world S * Sqlite.database) unit :=
  if update_db
  then lift_snd (Sqlite.connect ;;;
                 db_execute_with_retry_default
                   Sqlite.execute CreateTableIfNotExists ;;;
                 Sqlite.commit)
  else ret tt.

(** The world in which the loop starts. *)
Definition loop_start (S : System) (update_db : bool)
    (w : world S * Sqlite.database) : world S * Sqlite.database :=
  run_world (open_catalog S update_db w).

(** The state of the file system when the loop comes to the file of
    index [i]: what the run over the files before it has left. *)
Definition world_at (S : System) (update_db regenerate : bool)
    (raw_files : list string) (wv : world S * Sqlite.database) (i : nat)
  : world S :=
  (run_world (scan_loop S update_db regenerate (firstn i raw_files)
                initial_state wv)).1.

(** The fate of each file of a run, in order. *)
Definition fates (S : System) (update_db regenerate : bool)
    (raw_files : list string) (wv : world S * Sqlite.database) : list fate :=
  map (fun i => fate_of S regenerate (List.nth i raw_files "")
                  (world_at S update_db regenerate raw_files wv i))
      (seq 0 (length raw_files)).

Definition fate_eqb (a b : fate) : bool :=
  match a, b with
  | Skipped, Skipped | Processed, Processed | Failed, Failed => true
  | _, _ => false
  end.

(** The number of files with a given fate. *)
Definition tally (f : fate) (fs : list fate) : Z :=
  Z.of_nat (length (List.filter (fate_eqb f) fs)).

(** The fate that a branch of the loop stands for. *)
Definition fate_of_outcome (o : file_outcome) : fate :=
  match o with
  | FileSkipped => Skipped
  | FileFailed _ => Failed
  | FileConverted _ => Processed
  end.

(** ** Vocabulary of the further properties *)

Definition path_of (row : stored_row) : string := filepath (row_data row).

(** The constraints of the schema: [filepath] is unique, [id] is unique
    and no [id] exceeds the [AUTOINCREMENT] counter. *)
Definition table_ok (t : Sqlite.table) : Prop :=
  NoDup (map path_of (Sqlite.tbl_rows t))
  /\ NoDup (map row_id (Sqlite.tbl_rows t))
  /\ Forall (fun row => (row_id row <= Sqlite.tbl_seq t)%Z) (Sqlite.tbl_rows t).

Definition database_ok (db : Sqlite.database) : Prop :=
  table_ok (Sqlite.db_live db) /\ table_ok (Sqlite.db_saved db).

(** A catalog that stays locked through all five attempts. *)
Definition stuck_catalog : Sqlite.database :=
  Sqlite.Database (Sqlite.db_live catalog_0) (Sqlite.db_saved catalog_0)
    (repeat (Some Sim.locked) 5).

(** The RAW files of one directory, joined with its path, in listing
    order. *)
Definition raw_files_of (root : string) (files : list string) : list string :=
  map (Pathlib.os_path_join root) (List.filter is_raw_file files).

(** All the RAW files of a walk, in walk order. *)
Definition all_raw_files (walk : list (string * list string * list string))
  : list string :=
  flat_map (fun entry => raw_files_of entry.1.1 entry.2) walk.

(** A walk with RAW files in its second and third directories only. *)
Definition walk_3 : list (string * list string * list string) :=
  [("/p", ["a"; "b"], ["readme.txt"]);
   ("/p/a", [], ["1.CR2"; "1_preview.jpg"; "2.nef"]);
   ("/p/b", [], ["3.dng"])].

(** [os.makedirs] refuses the empty path, as the real one does. *)
Definition makedirs_rejects_empty (S : System) : Prop :=
  forall ok w, exists w' e, os_makedirs S "" ok w = (w', Raise e).

(** A RAW file in the current directory. *)
Definition raw_in_cwd : Sim.fs :=
  Sim.Fs (<["./a.CR2" := 6400%Z]> ∅) [(".", [], ["a.CR2"])].

(** The keys the extraction may assign. *)
Definition written_keys : list string :=
  ["camera_make"; "camera_model"; "iso"; "aperture"; "shutter_speed";
   "focal_length"; "datetime"].

(** The simulated system with a decoder that reports the metadata [md]
    for every file. *)
Definition system_with (md : raw_metadata) : System := {|
  world := Sim.fs;
  raw_image := Z;
  pixels := Z;
  image := Z;
  rawpy_imread := Sim.imread;
  raw_postprocess := fun raw _ w => (w, Ret raw);
  raw_close := fun _ w => (w, Ret tt);
  raw_metadata_of := fun _ => Some md;
  Image_fromarray := fun rgb w => (w, Ret rgb);
  img_thumbnail := fun img _ _ w => (w, Ret img);
  os_makedirs := Sim.makedirs;
  img_save := Sim.save;
  os_path_getsize := Sim.path_getsize;
  os_path_exists := fun path w => bool_decide (is_Some (Sim.files w !! path));
  os_walk := fun _ w => Sim.tree w;
  datetime_fromtimestamp := fun ts => Ret (str_of_int ts);
  datetime_now_isoformat := fun _ => "2024-05-01T12:00:00"
|}.

(** Metadata with every attribute present and a shutter duration of 0. *)
Definition zero_shutter : raw_metadata :=
  RawMetadata (Some "Canon") (Some "EOS R5") (Some 100%Z)
    (Some (Float.of_scaled 7 (-1))) (Some (Float.of_int 0))
    (Some (Float.of_int 50)) (Some 1714557600%Z).

(** Neither the first nor the last character is whitespace. *)
Definition no_edge_space (l : chars) : Prop :=
  (forall c t, l = c :: t -> Chars.is_space c = false)
  /\ (forall c t, l = t ++ [c] -> Chars.is_space c = false).

(** [a] may come before [b] under [ORDER BY date DESC]: later dates
    first, [NULL] last. *)
Definition date_order (a b : option string) : bool :=
  match a, b with
  | _, None => true
  | None, Some _ => false
  | Some x, Some y => PhotoSearch.chars_leb (to_chars y) (to_chars x)
  end.

(** Insertion sort by a date column, keeping rows of equal dates in
    table order. *)
Fixpoint insert_by {A} (key : A -> option string) (r : A) (l : list A) : list A :=
  match l with
  | [] => [r]
  | x :: l' =>
      if date_order (key x) (key r) then x :: insert_by key r l' else r :: l
  end.

Definition sort_by {A} (key : A -> option string) (l : list A) : list A :=
  fold_left (fun acc r => insert_by key r acc) l [].

(** In descending order of a date column. *)
Definition descending {A} (key : A -> option string) (l : list A) : Prop :=
  Sorted (fun a b => date_order (key a) (key b) = true) l.

(** Where a result row comes from: which catalog, and which of its rows. *)
Definition comes_from (jpg_db raw_db : PhotoSearch.catalog)
    (row : PhotoSearch.result_row) (r : PhotoSearch.photo_row) : Prop :=
  (exists rows, jpg_db = PhotoSearch.Present rows /\ In r rows
                /\ row = PhotoSearch.tag "JPG" r)
  \/ (exists rows, raw_db = PhotoSearch.Present rows /\ In r rows
                   /\ PhotoSearch.has_path r = true
                   /\ row = PhotoSearch.tag "RAW" r).

(** A text without the wildcards of [LIKE]. *)
Definition no_wildcard (a : chars) : Prop :=
  Forall (fun c => Chars.eqb c "%"%char = false /\ Chars.eqb c "_"%char = false) a.

(** [a] occurs in [t] when the case of ASCII letters is ignored. *)
Definition occurs_nocase (a t : chars) : Prop :=
  exists pre post,
    map Chars.sql_fold t = pre ++ map Chars.sql_fold a ++ post.

(** The parsed arguments of [photo-search-all.py]. *)
Record search_args := SearchArgs {
  arg_query : option string;
  arg_client : option string;
  arg_date : option string;
  arg_camera : option string;
  arg_location : bool;
  arg_limit : Z;
  arg_count : bool;
  arg_simple : bool
}.

(** Truth value of an optional string. *)
Definition truthy (o : option string) : bool :=
  match o with
  | Some s => negb (String.eqb s "")
  | None => false
  end.

(** [if args.query: args.client = args.query] *)
Definition effective_client (a : search_args) : option string :=
  if truthy (arg_query a) then arg_query a else arg_client a.

(** [sum(1 for r in results if r[4] == ty)] *)
Definition count_type (ty : string) (results : list PhotoSearch.result_row) : Z :=
  Z.of_nat (length (List.filter
                      (fun r => String.eqb (PhotoSearch.res_type r) ty) results)).

(** [x or 'unknown'] *)
Definition or_unknown (o : option string) : string :=
  if truthy o then match o with Some s => s | None => "" end else "unknown".

(** [str(x)] for a string or [None]. *)
Definition str_of_opt (o : option string) : string :=
  match o with Some s => s | None => "None" end.

Definition newline : string := String (ascii_of_nat 10) EmptyString.

(** The three lines printed for one result in the detailed listing. *)
Definition detailed_lines (r : PhotoSearch.result_row) : list string :=
  ["[" +:+ PhotoSearch.res_type r +:+ "] "
     +:+ or_unknown (PhotoSearch.res_date r) +:+ " | "
     +:+ or_unknown (PhotoSearch.res_client r) +:+ " | "
     +:+ or_unknown (PhotoSearch.res_camera r);
   "  " +:+ str_of_opt (PhotoSearch.res_path r);
   ""].

(** What [main()] prints once the search has returned [results]. *)
Definition report (a : search_args) (results : list PhotoSearch.result_row)
  : list string :=
  if arg_count a then
    ["Total photos found: " +:+ str_of_int (Z.of_nat (length results));
     "  JPG: " +:+ str_of_int (count_type "JPG" results);
     "  RAW previews: " +:+ str_of_int (count_type "RAW" results)]
  else if arg_simple a then
    map (fun r => str_of_opt (PhotoSearch.res_path r)) results
  else
    (newline +:+ "Found " +:+ str_of_int (Z.of_nat (length results))
       +:+ " photos:" +:+ newline)
    :: flat_map detailed_lines results.

(** [main()] of the unified search after argument parsing: the text of
    each call of [print], in order, those of [search_all_photos]
    first. *)
Definition search_main (a : search_args) (jpg_db raw_db : PhotoSearch.catalog)
  : list string :=
  let warnings :=
    PhotoSearch.search_all_warnings jpg_db raw_db (effective_client a)
      (arg_date a) (arg_camera a) (arg_location a) (arg_limit a) in
  let results :=
    PhotoSearch.search_all_photos jpg_db raw_db (effective_client a)
      (arg_date a) (arg_camera a) (arg_location a) (arg_limit a) in
  warnings ++ report a results.

Module RawSearch.

(** A fetched row: [filepath, preview_path, client_name, date,
    camera_model]. *)
Definition fetched : Type :=
  string * string * option string * option string * option string.

Definition fetch (row : stored_row) : fetched :=
  let r := row_data row in
  (filepath r, preview_path r, client_name r, date r,
   PhotoSearch.sql_text (camera_model r)).

Definition date_of (row : stored_row) : option string := date (row_data row).

(** [WHERE 1=1], then [AND client_name LIKE ?] if [client], then
    [AND date = ?] if [date]. *)
Definition where_clause (client date : option string) (row : stored_row) : bool :=
  PhotoSearch.like_clause client (client_name (row_data row))
  && PhotoSearch.date_clause date (date_of row).

(** [LIMIT n]: a negative [n] is no limit. *)
Definition sql_limit (n : Z) (l : list stored_row) : list stored_row :=
  if (n <? 0)%Z then l else firstn (Z.to_nat n) l.

Definition select (rows : list stored_row) (client date : option string)
    (limit : Z) : list fetched :=
  map fetch
    (sql_limit limit (sort_by date_of (List.filter (where_clause client date) rows))).

(** [query += f" ORDER BY date DESC LIMIT {limit}"] *)
Definition format_limit (limit : Z) : M Sqlite.database unit :=
  if int_too_long limit then raise digits_error else ret tt.

(** [cursor.execute(query, params)] then [cursor.fetchall()]: the
    statement is refused when the table does not exist, and its run when
    the limit does not fit 64 bits. *)
Definition fetchall (client date : option string) (limit : Z)
  : M Sqlite.database (list fetched) :=
  fun db =>
    match Sqlite.next_fault db with
    | (Some e, db') => (db', [], Raise e)
    | (None, db') =>
        let t := Sqlite.db_live db' in
        if negb (Sqlite.tbl_exists t)
        then (db', [], Raise (Exn OperationalError "no such table: raw_photos"))
        else if negb (Sqlite.int64_ok limit)
        then (db', [], Raise mismatch_error)
        else (db', [], Ret (select (Sqlite.tbl_rows t) client date limit))
    end.

(** [search_raw_photos(client, date, limit)]: a new connection, which
    reads what was committed. *)
Definition search_raw_photos (client date : option string) (limit : Z)
  : M Sqlite.database (list fetched) :=
  Sqlite.connect ;;; format_limit limit ;;; fetchall client date limit.

End RawSearch.

(** An empty catalog whose table exists. *)
Definition ready_catalog : Sqlite.database :=
  Sqlite.Database (Sqlite.Table true [] 0) (Sqlite.Table true [] 0) [].

(** The preview of one of the files. *)
Definition preview_among (files : list string) (p : string) : Prop :=
  exists f, In f files /\ p = get_preview_path f.

(** The calls a scan of [files] makes on the file system and the imaging
    libraries. *)
Definition file_event (regenerate : bool) (files : list string) (ev : event) : Prop :=
  match ev with
  | EvExists p => regenerate = false /\ preview_among files p
  | EvImread p => In p files
  | EvPostprocess a => a = postprocess_kwargs
  | EvThumbnail w h f => w = 1080%Z /\ h = 1080%Z /\ f = LANCZOS
  | EvMakedirs d ok =>
      ok = true
      /\ exists f, In f files /\ d = Pathlib.os_path_dirname (get_preview_path f)
  | EvSave p a => a = SaveArgs "JPEG" 85 true true /\ preview_among files p
  | EvGetsize p => In p files \/ preview_among files p
  | _ => True
  end.

(** The records a scan of [files] writes. *)
Definition record_event (files : list string) (ev : event) : Prop :=
  match ev with
  | EvExecute (InsertOrReplace r) =>
      In (filepath r) files
      /\ preview_path r = get_preview_path (filepath r)
      /\ (client_name r, date r) = Parse.parse_client_info (filepath r)
  | _ => True
  end.

(** A call on the catalog store, or a pause between two of them. *)
Definition is_catalog_event (ev : event) : bool :=
  match ev with
  | EvExecute _ | EvSleep _ | EvCommit => true
  | _ => false
  end.

Definition scan_event (update_db regenerate : bool) (files : list string)
    (ev : event) : Prop :=
  file_event regenerate files ev
  /\ record_event files ev
  /\ (is_catalog_event ev = true -> update_db = true).

(** The calls of a scan that converts nothing and writes no record. *)
Definition is_probe (ev : event) : bool :=
  match ev with
  | EvExists _ | EvExecute CreateTableIfNotExists | EvSleep _ | EvCommit => true
  | _ => false
  end.

(** A shoot whose only RAW file has its preview. *)
Definition shoot_done : Sim.fs :=
  Sim.Fs (<["/p/c_preview.jpg" := 5%Z]> (<["/p/c.dng" := 500%Z]> ∅))
         [("/p", [], ["c.dng"; "notes.txt"])].

(** Neither opens nor closes a RAW file. *)
Definition no_raw_handle (ev : event) : bool :=
  match ev with
  | EvImread _ | EvClose | EvPostprocess _ => false
  | _ => true
  end.

(* ================================================================== *)
(** * Part II: properties                                              *)
(* ================================================================== *)

(** ** Strings *)

Lemma of_to_chars (s : string) : of_chars (to_chars s) = s.
Proof. apply string_of_list_ascii_of_string. Qed.

Lemma to_of_chars (l : chars) : to_chars (of_chars l) = l.
Proof. apply list_ascii_of_string_of_list_ascii. Qed.

Lemma of_chars_inj (a b : chars) : of_chars a = of_chars b -> a = b.
Proof.
  intros H. rewrite <- (to_of_chars a), <- (to_of_chars b). now rewrite H.
Qed.

(** ** Reasoning about computations *)

Section Rules.
Context {W : Type} (I : W -> Prop) (P : event -> Prop).

Lemma sat_ret {A} (Q : outcome A -> Prop) (a : A) :
  Q (Ret a) -> sat I P Q (ret a).
Proof. intros HQ w Hw. cbn. auto. Qed.

Lemma sat_raise {A} (Q : outcome A -> Prop) (e : exn) :
  Q (Raise e) -> sat I P Q (raise e).
Proof. intros HQ w Hw. cbn. auto. Qed.

Lemma sat_of_outcome {A} (Q : outcome A -> Prop) (o : outcome A) :
  Q o -> sat I P Q (of_outcome o).
Proof. destruct o; [apply sat_ret | apply sat_raise]. Qed.

Lemma sat_bind {A B} (Q1 : outcome A -> Prop) (Q : outcome B -> Prop)
    (m : M W A) (k : A -> M W B) :
  sat I P Q1 m ->
  (forall a, Q1 (Ret a) -> sat I P Q (k a)) ->
  (forall e, Q1 (Raise e) -> Q (Raise e)) ->
  sat I P Q (bind m k).
Proof.
  intros Hm Hk He w Hw. unfold bind.
  destruct (Hm w Hw) as (Hi & Hl & Hq).
  destruct (m w) as [[w1 l1] [a|e]]; cbn in *.
  - destruct (Hk a Hq w1 Hi) as (Hi2 & Hl2 & Hq2).
    destruct (k a w1) as [[w2 l2] r]; cbn in *.
    split; [assumption|]. split; [|assumption].
    apply Forall_app; auto.
  - auto.
Qed.

Lemma sat_try_except {A} (Q1 Q : outcome A -> Prop)
    (body : M W A) (handler : exn -> M W A) :
  sat I P Q1 body ->
  (forall a, Q1 (Ret a) -> Q (Ret a)) ->
  (forall e, Q1 (Raise e) -> sat I P Q (handler e)) ->
  sat I P Q (try_except body handler).
Proof.
  intros Hb Hr Hh w Hw. unfold try_except.
  destruct (Hb w Hw) as (Hi & Hl & Hq).
  destruct (body w) as [[w1 l1] [a|e]]; cbn in *.
  - auto.
  - destruct (Hh e Hq w1 Hi) as (Hi2 & Hl2 & Hq2).
    destruct (handler e w1) as [[w2 l2] r]; cbn in *.
    split; [assumption|]. split; [|assumption].
    apply Forall_app; auto.
Qed.

Lemma sat_try_finally {A} (Q1 Q : outcome A -> Prop)
    (body : M W A) (cleanup : M W unit) :
  sat I P Q1 body ->
  sat I P (fun _ => True) cleanup ->
  (forall a, Q1 (Ret a) -> Q (Ret a)) ->
  (forall e, Q (Raise e)) ->
  sat I P Q (try_finally body cleanup).
Proof.
  intros Hb Hc Hr He w Hw. unfold try_finally.
  destruct (Hb w Hw) as (Hi & Hl & Hq).
  destruct (body w) as [[w1 l1] r]; cbn in *.
  destruct (Hc w1 Hi) as (Hi2 & Hl2 & _).
  destruct (cleanup w1) as [[w2 l2] [u|e]]; cbn in *.
  - split; [assumption|]. split; [apply Forall_app; auto|].
    destruct r; auto.
  - split; [assumption|]. split; [apply Forall_app; auto|]. auto.
Qed.

Lemma sat_call {A} (Q : outcome A -> Prop) (ev : event)
    (f : W -> W * outcome A) :
  P ev ->
  (forall w, I w -> I (f w).1 /\ Q (f w).2) ->
  sat I P Q (call ev f).
Proof.
  intros Hev Hf w Hw. unfold call.
  destruct (Hf w Hw) as [Hi Hq]. destruct (f w) as [w' r]; cbn in *.
  repeat split; auto.
Qed.

Lemma sat_query {A} (Q : outcome A -> Prop) (ev : event) (f : W -> A) :
  P ev -> (forall w, Q (Ret (f w))) -> sat I P Q (query ev f).
Proof. intros Hev Hf w Hw. cbn. repeat split; auto. Qed.

Lemma sat_weaken {A} (Q1 Q : outcome A -> Prop) (m : M W A) :
  sat I P Q1 m -> (forall r, Q1 r -> Q r) -> sat I P Q m.
Proof.
  intros Hm HQ w Hw. destruct (Hm w Hw) as (? & ? & ?). auto.
Qed.

Lemma sat_when_some {A} (Q : outcome unit -> Prop) (o : option A)
    (body : A -> M W unit) :
  Q (Ret tt) -> (forall a, o = Some a -> sat I P Q (body a)) ->
  sat I P Q (when_some o body).
Proof.
  intros H0 Hb. destruct o; cbn; [auto | now apply sat_ret].
Qed.

End Rules.

Lemma sat_lift_fst {W V A} (I2 : V -> Prop)
    (P : event -> Prop) (Q : outcome A -> Prop) (m : M W A) :
  sat any_world P Q m ->
  sat (fun wv : W * V => I2 wv.2) P Q (lift_fst m).
Proof.
  intros Hm [w v] Hv. unfold lift_fst; cbn in *.
  destruct (Hm w Logic.I) as (Hi & Hl & Hq).
  destruct (m w) as [[w' l] r]; cbn in *. auto.
Qed.

Lemma sat_lift_snd {W V A} (I1 : W -> Prop)
    (P : event -> Prop) (Q : outcome A -> Prop) (m : M V A) :
  sat any_world P Q m ->
  sat (fun wv : W * V => I1 wv.1) P Q (lift_snd m).
Proof.
  intros Hm [w v] Hw. unfold lift_snd; cbn in *.
  destruct (Hm v Logic.I) as (Hi & Hl & Hq).
  destruct (m v) as [[v' l] r]; cbn in *. auto.
Qed.

(** Rules for computations of which only the log matters. *)
Section LogRules.
Context {W : Type} (I : W -> Prop) (P : event -> Prop).

Lemma logs_bind {A B} (Q : outcome B -> Prop) (m : M W A) (k : A -> M W B) :
  sat I P any_outcome m ->
  (forall a, sat I P Q (k a)) ->
  (forall e, Q (Raise e)) ->
  sat I P Q (bind m k).
Proof. intros Hm Hk He. eapply sat_bind; eauto. Qed.

Lemma logs_try_except {A} (body : M W A) (handler : exn -> M W A) :
  sat I P any_outcome body ->
  (forall e, sat I P any_outcome (handler e)) ->
  sat I P any_outcome (try_except body handler).
Proof.
  intros Hb Hh. eapply sat_try_except; eauto.
Qed.

Lemma logs_try_finally {A} (body : M W A) (cleanup : M W unit) :
  sat I P any_outcome body ->
  sat I P any_outcome cleanup ->
  sat I P any_outcome (try_finally body cleanup).
Proof.
  intros Hb Hc. eapply sat_try_finally; eauto; intros; exact Logic.I.
Qed.

Lemma logs_call {A} (ev : event) (f : W -> W * outcome A) :
  P ev -> (forall w, I w -> I (f w).1) -> sat I P any_outcome (call ev f).
Proof. intros Hev Hf. apply sat_call; [assumption|]. split; [auto|exact Logic.I]. Qed.

End LogRules.

(** ** The retrying execute *)

Lemma attempts_of_nil : attempts_of [] = 0%nat.
Proof. reflexivity. Qed.

Lemma attempts_of_cons ev l :
  attempts_of (ev :: l) = ((if is_execute ev then 1 else 0) + attempts_of l)%nat.
Proof. unfold attempts_of. cbn. now destruct (is_execute ev). Qed.

Lemma attempts_of_app (l1 l2 : list event) :
  attempts_of (l1 ++ l2) = (attempts_of l1 + attempts_of l2)%nat.
Proof. unfold attempts_of. now rewrite List.filter_app, length_app. Qed.

#[local] Arguments attempts_of : simpl never.

Section Retry.
Context {W : Type} (cur : cursor W) (q : statement).

Lemma retry_attempt_ok max_retries delay attempt w w1 :
  cur q w = (w1, Ret tt) ->
  retry_attempt cur q max_retries delay attempt w
  = (w1, [EvExecute q], Ret (Some true)).
Proof.
  intros H. unfold retry_attempt, try_except, bind, call, ret. now rewrite H.
Qed.

Lemma retry_attempt_locked attempt w w1 e :
  cur q w = (w1, Raise e) ->
  locked_exn e ->
  attempt = 0%Z \/ attempt = 1%Z \/ attempt = 2%Z \/ attempt = 3%Z ->
  retry_attempt cur q default_max_retries default_delay attempt w
  = (w1, [EvExecute q;
          EvSleep (Float.mul default_delay (Float.of_int (attempt + 1)))],
     Ret None).
Proof.
  intros H [Hop Hl] Ha.
  unfold retry_attempt, try_except, bind, call, ret. rewrite H, Hop, Hl.
  destruct Ha as [-> | [-> | [-> | ->]]]; reflexivity.
Qed.

Lemma retry_attempt_final delay w w1 e :
  cur q w = (w1, Raise e) ->
  retry_attempt cur q default_max_retries delay 4 w
  = (w1, [EvExecute q], Raise e).
Proof.
  intros H. unfold retry_attempt, try_except, bind, call, ret, raise.
  rewrite H. rewrite andb_false_r. now destruct (is_OperationalError e).
Qed.

Lemma time_sleep_no_attempt (d : Float.t) (w : W) :
  attempts_of (run_log (time_sleep d w)) = 0%nat.
Proof.
  unfold time_sleep.
  repeat match goal with |- context [if ?b then _ else _] => destruct b end;
    reflexivity.
Qed.

Lemma retry_attempt_one max_retries delay attempt w :
  attempts_of (run_log (retry_attempt cur q max_retries delay attempt w)) = 1%nat.
Proof.
  unfold retry_attempt, try_except, bind, call, ret, raise.
  destruct (cur q w) as [w1 [[]|e]]; cbn; [reflexivity|].
  destruct (is_OperationalError e); [|reflexivity].
  destruct (_ && _); [|reflexivity].
  pose proof (time_sleep_no_attempt
                (Float.mul delay (Float.of_int (attempt + 1))) w1) as Hs.
  destruct (time_sleep _ w1) as [[w2 l2] [u|e2]]; cbn in *;
    rewrite ?app_nil_r, attempts_of_cons, Hs; reflexivity.
Qed.

Lemma retry_loop_attempts max_retries delay attempts w :
  (attempts_of (run_log (retry_loop cur q max_retries delay attempts w))
   <= length attempts)%nat.
Proof.
  revert w. induction attempts as [|a rest IH]; intros w; cbn.
  - rewrite attempts_of_nil. lia.
  - unfold bind.
    pose proof (retry_attempt_one max_retries delay a w) as H1.
    destruct (retry_attempt cur q max_retries delay a w) as [[w1 l1] [r|e]];
      cbn in *.
    + destruct r as [b|].
      * cbn. rewrite app_nil_r. lia.
      * specialize (IH w1).
        destruct (retry_loop cur q max_retries delay rest w1) as [[w2 l2] r2];
          cbn in *.
        rewrite attempts_of_app. lia.
    + lia.
Qed.

(** A call that returns [True] ends with an [execute] that ran. *)
Lemma retry_loop_true max_retries delay attempts w w' l :
  retry_loop cur q max_retries delay attempts w = (w', l, Ret true) ->
  exists w1, cur q w1 = (w', Ret tt).
Proof.
  revert w l. induction attempts as [|a rest IH]; intros w l; cbn.
  - unfold ret. intros [= _ _ ?].
  - unfold bind, retry_attempt, try_except, bind, call, ret, raise.
    destruct (cur q w) as [w1 [[]|e]] eqn:Hc; cbn.
    + intros [= <- _]. eauto.
    + destruct (is_OperationalError e); [|intros [=]].
      destruct (_ && _); [|intros [=]].
      destruct (time_sleep _ w1) as [[w2 l2] [u|e2]]; cbn; [|intros [=]].
      destruct (retry_loop cur q max_retries delay rest w2)
        as [[w3 l3] r3] eqn:Hr.
      intros [= -> _ ->]. eauto.
Qed.

End Retry.

Lemma backoff_log_attempts q delay n : attempts_of (backoff_log q delay n) = n.
Proof.
  unfold backoff_log. generalize 1%nat. induction n as [|n IH]; intros s; cbn.
  - reflexivity.
  - rewrite !attempts_of_cons, IH. reflexivity.
Qed.

Lemma backoff_log_sleeps q delay n :
  sleeps_of (backoff_log q delay n) = backoff_delays delay n.
Proof.
  unfold backoff_log, backoff_delays. generalize 1%nat.
  induction n as [|n IH]; intros s; cbn; [reflexivity|]. now rewrite IH.
Qed.

Lemma sleeps_of_app l1 l2 : sleeps_of (l1 ++ l2) = sleeps_of l1 ++ sleeps_of l2.
Proof. unfold sleeps_of. apply flat_map_app. Qed.

Ltac held_inv :=
  repeat match goal with
         | H : lock_held _ _ _ (_ :: _) _ |- _ => inversion H; subst; clear H
         | H : lock_held _ _ _ [] _ |- _ => inversion H; subst; clear H
         end.

Ltac retry_step :=
  first
    [ erewrite retry_attempt_locked by (eauto; tauto)
    | erewrite retry_attempt_ok by eauto
    | erewrite retry_attempt_final by eauto ];
  cbn [retry_loop ret]; try unfold bind at 1.

Lemma retry_clears {W} (cur : cursor W) (q : statement) w es w1 w2 :
  lock_held cur q w es w1 -> cur q w1 = (w2, Ret tt) -> (length es < 5)%nat ->
  db_execute_with_retry_default cur q w
  = (w2, backoff_log q default_delay (length es) ++ [EvExecute q], Ret true).
Proof.
  intros Hheld Hok Hlen.
  unfold db_execute_with_retry_default, db_execute_with_retry.
  change (range default_max_retries) with [0; 1; 2; 3; 4]%Z.
  destruct es as [|e1 [|e2 [|e3 [|e4 [|e5 es]]]]]; cbn in Hlen; try lia;
    held_inv; cbn [retry_loop]; unfold bind at 1;
    repeat retry_step; reflexivity.
Qed.

Lemma retry_exhausted {W} (cur : cursor W) (q : statement) w es e w' :
  lock_held cur q w (es ++ [e]) w' -> length es = 4%nat ->
  db_execute_with_retry_default cur q w
  = (w', backoff_log q default_delay 4 ++ [EvExecute q], Raise e).
Proof.
  intros Hheld Hlen.
  unfold db_execute_with_retry_default, db_execute_with_retry.
  change (range default_max_retries) with [0; 1; 2; 3; 4]%Z.
  destruct es as [|e1 [|e2 [|e3 [|e4 [|e5 es]]]]]; cbn in Hlen; try lia.
  cbn [app] in Hheld. held_inv. cbn [retry_loop]. unfold bind at 1.
  repeat retry_step. reflexivity.
Qed.

(** C2. With the defaults of its signature, the retrying execute makes at
    most 5 attempts whatever the cursor does. If the first [k - 1] attempts
    meet a locked store and attempt [k <= 5] runs, the call returns [True]
    after exactly [k] attempts. If five attempts in a row meet a locked
    store, the call makes exactly 5 attempts and raises the error of the
    last one. In both cases the sleep before retry number [i] lasts
    [delay * i] and the log ends with an attempt: nothing is slept after
    the last attempt. *)
Theorem retry_bound {W} (cur : cursor W) (q : statement) :
  (forall w,
     (attempts_of (run_log (db_execute_with_retry_default cur q w)) <= 5)%nat)
  /\ (forall w es w1 w2,
        lock_held cur q w es w1 -> cur q w1 = (w2, Ret tt) ->
        (length es < 5)%nat ->
        let r := db_execute_with_retry_default cur q w in
        r = (w2, backoff_log q default_delay (length es) ++ [EvExecute q], Ret true)
        /\ attempts_of (run_log r) = S (length es)
        /\ sleeps_of (run_log r) = backoff_delays default_delay (length es))
  /\ (forall w es e w',
        lock_held cur q w (es ++ [e]) w' -> length es = 4%nat ->
        let r := db_execute_with_retry_default cur q w in
        r = (w', backoff_log q default_delay 4 ++ [EvExecute q], Raise e)
        /\ attempts_of (run_log r) = 5%nat
        /\ sleeps_of (run_log r) = backoff_delays default_delay 4).
Proof.
  split; [|split].
  - intros w. unfold db_execute_with_retry_default, db_execute_with_retry.
    pose proof (retry_loop_attempts cur q default_max_retries default_delay
                  (range default_max_retries) w) as H.
    exact H.
  - intros w es w1 w2 Hheld Hok Hlen r. subst r.
    rewrite (retry_clears cur q w es w1 w2 Hheld Hok Hlen).
    split; [reflexivity|]. unfold run_log; cbn [fst snd].
    rewrite attempts_of_app, sleeps_of_app, backoff_log_attempts,
      backoff_log_sleeps, app_nil_r.
    split; [|reflexivity]. rewrite attempts_of_cons, attempts_of_nil. cbn. lia.
  - intros w es e w' Hheld Hlen r. subst r.
    rewrite (retry_exhausted cur q w es e w' Hheld Hlen).
    split; [reflexivity|]. unfold run_log; cbn [fst snd].
    rewrite attempts_of_app, sleeps_of_app, backoff_log_attempts,
      backoff_log_sleeps, app_nil_r.
    split; [|reflexivity]. now rewrite attempts_of_cons, attempts_of_nil.
Qed.

Lemma retry_bound_witness :
  let clears := db_execute_with_retry_default Sim.scripted CreateTableIfNotExists
                  script_clears in
  let stuck := db_execute_with_retry_default Sim.scripted CreateTableIfNotExists
                 script_stuck in
  (run_result clears = Ret true
   /\ attempts_of (run_log clears) = 3%nat
   /\ sleeps_of (run_log clears) = [Float.half; Float.one])
  /\ (run_result stuck = Raise Sim.locked
      /\ attempts_of (run_log stuck) = 5%nat
      /\ length (sleeps_of (run_log stuck)) = 4%nat
      /\ List.last (run_log stuck) EvCommit = EvExecute CreateTableIfNotExists).
Proof.
  intros clears stuck.
  destruct (retry_bound Sim.scripted CreateTableIfNotExists) as (_ & Hc & Hs).
  split.
  - assert (Hheld : lock_held Sim.scripted CreateTableIfNotExists script_clears
                      [Sim.locked; Sim.locked] [None]).
    { repeat (eapply held_cons; [reflexivity | split; reflexivity |]).
      apply held_nil. }
    destruct (Hc script_clears [Sim.locked; Sim.locked] [None] []
                Hheld eq_refl) as (Hr & Ha & Hsl).
    { cbn. lia. }
    subst clears. rewrite Hr. repeat split.
  - assert (Hheld : lock_held Sim.scripted CreateTableIfNotExists script_stuck
                      (repeat Sim.locked 4 ++ [Sim.locked])
                      (repeat (Some Sim.locked) 2)).
    { repeat (eapply held_cons; [reflexivity | split; reflexivity |]).
      apply held_nil. }
    destruct (Hs script_stuck (repeat Sim.locked 4) Sim.locked
                (repeat (Some Sim.locked) 2) Hheld eq_refl) as (Hr & Ha & Hsl).
    subst stuck. rewrite Hr. repeat split.
Defined.

(** ** Upsert *)

Lemma execute_insert_ret (r : raw_photo) (db db' : Sqlite.database) :
  Sqlite.execute (InsertOrReplace r) db = (db', Ret tt) ->
  exists t, Sqlite.db_live db' = Sqlite.insert_or_replace r t.
Proof.
  unfold Sqlite.execute, Sqlite.next_fault, Sqlite.apply_statement.
  destruct (Sqlite.db_faults db) as [|[e|] rest]; cbn;
    repeat match goal with
           | |- context [if ?b then _ else _] => destruct b; cbn
           end;
    intros [= <-]; cbn; eauto.
Qed.

Lemma same_file_refl (id : Z) (r : raw_photo) :
  Sqlite.same_file (filepath r) (StoredRow id r) = true.
Proof. unfold Sqlite.same_file. cbn. apply String.eqb_refl. Qed.

Lemma filter_same_file_others (f : string) (rows : list stored_row) :
  List.filter (Sqlite.same_file f)
    (List.filter (fun row => negb (Sqlite.same_file f row)) rows) = [].
Proof.
  induction rows as [|row rows IH]; cbn; [reflexivity|].
  destruct (Sqlite.same_file f row) eqn:E; cbn; [assumption|].
  now rewrite E.
Qed.

Lemma rows_for_insert (r : raw_photo) (t : Sqlite.table) :
  List.filter (Sqlite.same_file (filepath r))
    (Sqlite.tbl_rows (Sqlite.insert_or_replace r t))
  = [StoredRow (Sqlite.tbl_seq t + 1) r].
Proof.
  unfold Sqlite.insert_or_replace. cbn.
  rewrite List.filter_app, filter_same_file_others. cbn.
  now rewrite same_file_refl.
Qed.

(** After an upsert that returned, the catalog holds exactly the new row
    under its file path. *)
Lemma upsert_rows_for (r : raw_photo) (db db' : Sqlite.database) l :
  Sqlite.upsert r db = (db', l, Ret true) ->
  exists id, Sqlite.rows_for (filepath r) db' = [StoredRow id r].
Proof.
  intros H. apply retry_loop_true in H. destruct H as [db1 H].
  apply execute_insert_ret in H. destruct H as [t Ht].
  unfold Sqlite.rows_for. rewrite Ht, rows_for_insert. eauto.
Qed.

(** C1. Upserting a record [A] for a file path and then a record [B] for
    the same path leaves exactly one row under that path, and the row
    holds [B]: every column has the value of [B], whatever [A] had. *)
Theorem upsert_overwrite (A B : raw_photo) (db db1 db2 : Sqlite.database)
    (l1 l2 : list event) :
  filepath A = filepath B ->
  Sqlite.upsert A db = (db1, l1, Ret true) ->
  Sqlite.upsert B db1 = (db2, l2, Ret true) ->
  exists id, Sqlite.rows_for (filepath B) db2 = [StoredRow id B].
Proof.
  intros _ _ HB.
  (* the call returned [True]: its last attempt ran the statement *)
  apply retry_loop_true in HB. destruct HB as [db' Hrun].
  apply execute_insert_ret in Hrun. destruct Hrun as [t Ht].
  (* which removed the rows of the path and inserted [B] *)
  unfold Sqlite.rows_for. rewrite Ht, rows_for_insert. eauto.
Qed.

Lemma upsert_overwrite_witness :
  let r1 := Sqlite.upsert photo_A catalog_0 in
  let r2 := Sqlite.upsert photo_B (run_world r1) in
  exists id, Sqlite.rows_for "/p/a.CR2" (run_world r2) = [StoredRow id photo_B].
Proof.
  intros r1 r2.
  apply (upsert_overwrite photo_A photo_B catalog_0 (run_world r1) (run_world r2)
           (run_log r1) (run_log r2)); reflexivity.
Defined.

(** ** The path parser *)

Lemma search_pattern1_first (path : string) d g :
  Parse.search Parse.pattern1_at (to_chars path) = Some (d, g) ->
  Parse.parse_client_info path
  = (Some (of_chars (strip_chars g)), Some (of_chars d)).
Proof. intros H. unfold Parse.parse_client_info. now rewrite H. Qed.

Lemma search_pattern2_second (path : string) d :
  Parse.search Parse.pattern1_at (to_chars path) = None ->
  Parse.search Parse.pattern2_at (to_chars path) = Some d ->
  Parse.parse_client_info path = (None, Some (of_chars d)).
Proof. intros H1 H2. unfold Parse.parse_client_info. now rewrite H1, H2. Qed.

(** A match of [re.search] is a match anchored at some suffix. *)
Lemma search_some {A} (at_head : chars -> option A) (l : chars) (x : A) :
  Parse.search at_head l = Some x ->
  exists pre post, l = pre ++ post /\ at_head post = Some x.
Proof.
  induction l as [|c l IH]; cbn.
  - destruct (at_head []) eqn:E; [|discriminate].
    intros [= ->]. exists [], []. auto.
  - destruct (at_head (c :: l)) eqn:E.
    + intros [= ->]. exists [], (c :: l). auto.
    + intros H. destruct (IH H) as (pre & post & -> & Hp).
      exists (c :: pre), post. auto.
Qed.

Lemma digits_spec (n : nat) (l r : chars) :
  Parse.digits n l = Some r ->
  exists ds, l = ds ++ r /\ length ds = n /\ forallb Chars.is_digit ds = true.
Proof.
  revert l. induction n as [|n IH]; intros l; cbn [Parse.digits].
  - intros [= ->]. exists []. auto.
  - destruct l as [|c l]; [discriminate|].
    destruct (Chars.is_digit c) eqn:E; [|discriminate].
    intros H. destruct (IH l H) as (ds & -> & Hlen & Hd).
    exists (c :: ds). cbn. rewrite E, Hd, Hlen. auto.
Qed.

Lemma lit_spec (c : ascii) (l r : chars) :
  Parse.lit c l = Some r -> l = c :: r.
Proof.
  unfold Parse.lit. destruct l as [|c' l]; [discriminate|].
  destruct (Chars.eqb c c') eqn:E; [|discriminate].
  apply Ascii.eqb_eq in E. now intros [= ->]; subst.
Qed.

Lemma date_token_shaped (l d r : chars) :
  Parse.date_token l = Some (d, r) -> date_shaped d = true /\ l = d ++ r.
Proof.
  unfold Parse.date_token.
  destruct (Parse.digits 4 l) as [r1|] eqn:E1; [|discriminate].
  destruct (Parse.lit "-" r1) as [r2|] eqn:E2; [|discriminate].
  destruct (Parse.digits 2 r2) as [r3|] eqn:E3; [|discriminate].
  destruct (Parse.lit "-" r3) as [r4|] eqn:E4; [|discriminate].
  destruct (Parse.digits 2 r4) as [r5|] eqn:E5; [|discriminate].
  intros [= <- <-].
  apply digits_spec in E1, E3, E5. apply lit_spec in E2, E4.
  destruct E1 as (y & -> & Hy & Dy), E3 as (m & -> & Hm & Dm),
    E5 as (dd & -> & Hd & Dd). subst r1 r3.
  destruct y as [|y1 [|y2 [|y3 [|y4 [|]]]]]; try discriminate.
  destruct m as [|m1 [|m2 [|]]]; try discriminate.
  destruct dd as [|d1 [|d2 [|]]]; try discriminate.
  cbn in Dy, Dm, Dd |- *.
  repeat match goal with
         | H : _ && _ = true |- _ => apply andb_prop in H; destruct H
         end.
  repeat match goal with
         | H : Chars.is_digit _ = true |- _ => rewrite H; clear H
         end.
  split; reflexivity.
Qed.

(** The date the parser returns always has the shape [YYYY-MM-DD], and a
    client name never comes without a date. *)
Lemma parse_client_info_date (path : string) :
  match Parse.parse_client_info path with
  | (_, Some d) => date_shaped (to_chars d) = true
  | (Some _, None) => False
  | (None, None) => True
  end.
Proof.
  unfold Parse.parse_client_info.
  destruct (Parse.search Parse.pattern1_at (to_chars path)) as [[d g]|] eqn:E1.
  - apply search_some in E1. destruct E1 as (pre & post & _ & H).
    unfold Parse.pattern1_at in H.
    destruct (Parse.date_token post) as [[d' r]|] eqn:Ed; [|discriminate].
    destruct (Parse.spaces_then_name _ r); [|discriminate].
    injection H as <- _. rewrite to_of_chars.
    now apply date_token_shaped in Ed.
  - destruct (Parse.search Parse.pattern2_at (to_chars path)) as [d|] eqn:E2;
      [|exact Logic.I].
    apply search_some in E2. destruct E2 as (pre & post & _ & H).
    unfold Parse.pattern2_at in H.
    destruct (Parse.date_token post) as [[d' r]|] eqn:Ed; [|discriminate].
    destruct r as [|c r]; [discriminate|].
    destruct (Parse.is_sep c); [|discriminate].
    injection H as <-. rewrite to_of_chars.
    now apply date_token_shaped in Ed.
Qed.

(** C3. The path parser returns a pair for every path. When the pattern
    with a trailing name matches anywhere in the path, its groups are the
    result, whether or not the bare-date pattern matches too (even at an
    earlier position); the bare-date pattern is used only when the first
    one does not match. The three literal cases of the specification
    evaluate as stated. *)
Theorem parse_client_info_cases :
  (forall path, exists client date, Parse.parse_client_info path = (client, date))
  /\ (forall path d g,
        Parse.search Parse.pattern1_at (to_chars path) = Some (d, g) ->
        Parse.parse_client_info path
        = (Some (of_chars (strip_chars g)), Some (of_chars d)))
  /\ (forall path d,
        Parse.search Parse.pattern1_at (to_chars path) = None ->
        Parse.search Parse.pattern2_at (to_chars path) = Some d ->
        Parse.parse_client_info path = (None, Some (of_chars d)))
  /\ Parse.parse_client_info ".../2024-05-01 Smith Wedding/IMG_01.CR2"
     = (Some "Smith Wedding", Some "2024-05-01")
  /\ Parse.parse_client_info ".../2024-05-01/IMG_02.NEF"
     = (None, Some "2024-05-01")
  /\ Parse.parse_client_info "/misc/IMG_03.DNG" = (None, None)
  /\ Parse.parse_client_info "/2024-01-01/2024-02-02 Bob/x.cr2"
     = (Some "Bob", Some "2024-02-02").
Proof.
  split; [|split; [|split]].
  - intros path. destruct (Parse.parse_client_info path) as [c d]. eauto.
  - exact search_pattern1_first.
  - exact search_pattern2_second.
  - repeat split; reflexivity.
Qed.

Lemma parse_client_info_cases_witness :
  Parse.parse_client_info "x:\shoots\2024-05-01 Smith Wedding\IMG_01.CR2"
  = (Some "Smith Wedding", Some "2024-05-01")
  /\ Parse.parse_client_info "/shoots/2024-05-01/IMG_02.NEF"
     = (None, Some "2024-05-01").
Proof.
  destruct parse_client_info_cases as (_ & H1 & H2 & _).
  split.
  - exact (H1 "x:\shoots\2024-05-01 Smith Wedding\IMG_01.CR2"
              (to_chars "2024-05-01") (to_chars "Smith Wedding") eq_refl).
  - exact (H2 "/shoots/2024-05-01/IMG_02.NEF" (to_chars "2024-05-01")
              eq_refl eq_refl).
Defined.

(** ** The shutter-speed text *)

Lemma trunc_finite_spec (s : bool) (m : positive) (e : Z) :
  truncation_of s m e (Float.trunc_finite s m e).
Proof.
  unfold truncation_of, Float.trunc_finite.
  destruct (0 <=? e)%Z eqn:He.
  - apply Z.leb_le in He.
    assert (0 < Z.pos m * 2 ^ e)%Z by (apply Z.mul_pos_pos; [lia|apply Z.pow_pos_nonneg; lia]).
    destruct s; split; lia.
  - apply Z.leb_gt in He.
    assert (Hp : (0 < 2 ^ (- e))%Z) by (apply Z.pow_pos_nonneg; lia).
    pose proof (Z.div_pos (Z.pos m) (2 ^ (- e)) ltac:(lia) Hp) as Hq.
    pose proof (Z.mul_div_le (Z.pos m) (2 ^ (- e)) Hp) as Hle.
    pose proof (Z.mul_succ_div_gt (Z.pos m) (2 ^ (- e)) Hp) as Hgt.
    assert (Ha : Z.abs (if s then - (Z.pos m / 2 ^ (- e)) else Z.pos m / 2 ^ (- e))
                 = (Z.pos m / 2 ^ (- e))%Z) by (destruct s; lia).
    rewrite Ha. destruct s; split; nia.
Qed.

(** C4, as stated, fails: for an exposure of 0.625 s the reciprocal is 1.6
    and the code prints [1/1], the reciprocal truncated, where rounding to
    the nearest integer would print [1/2]. *)
Lemma format_shutter_not_rounded :
  format_shutter exposure_0625 = Ret "1/1"
  /\ format_shutter_rounded exposure_0625 = Ret "1/2"
  /\ format_shutter exposure_0625 <> format_shutter_rounded exposure_0625.
Proof.
  split; [reflexivity|]. split; [reflexivity|].
  intros H. vm_compute in H. discriminate H.
Qed.

(** C4, amended. For a duration [d >= 1] the text is the duration with one
    decimal followed by [s]. Otherwise, when the reciprocal [1/d] is a
    finite float, the text is [1/Y] where [Y] is the reciprocal with its
    fraction dropped (truncated toward zero), and in the remaining cases
    ([d] zero or NaN, or a reciprocal that overflows) no text is produced:
    the formatting raises. *)
Theorem format_shutter_truncates (d : Float.t) :
  (Float.geb d Float.one = true ->
   format_shutter d = Ret (Float.format_fixed 1 d +:+ "s"))
  /\ (Float.geb d Float.one = false ->
      match reciprocal d with
      | Ret (S754_finite s m e) =>
          exists y, format_shutter d = Ret ("1/" +:+ str_of_int y)
                    /\ truncation_of s m e y
      | Ret (S754_zero _) => format_shutter d = Ret "1/0"
      | Ret S754_nan | Ret (S754_infinity _) | Raise _ =>
          raised (format_shutter d) = true
      end).
Proof.
  unfold format_shutter. split; intros H; rewrite H; [reflexivity|].
  destruct (reciprocal d) as [[z|i| |s m e]|ex]; cbn; try reflexivity.
  exists (Float.trunc_finite s m e). split; [reflexivity|].
  apply trunc_finite_spec.
Qed.

Lemma format_shutter_truncates_witness :
  format_shutter exposure_25 = Ret "2.5s"
  /\ exists y, format_shutter exposure_0625 = Ret ("1/" +:+ str_of_int y)
               /\ truncation_of false 7205759403792794 (-52) y.
Proof.
  split.
  - exact (proj1 (format_shutter_truncates exposure_25) eq_refl).
  - exact (proj2 (format_shutter_truncates exposure_0625) eq_refl).
Defined.

(** ** The conversion *)

(** Case analysis on the outcome of the next external call. *)
Ltac destruct_call :=
  match goal with
  | |- context [match ?x with pair _ _ => _ end] =>
      lazymatch x with
      | context [match _ with pair _ _ => _ end] => fail
      | context [match _ with Ret _ => _ | Raise _ => _ end] => fail
      | _ => destruct x as [? [?|?]] eqn:?; cbn [fst snd app]
      end
  | |- context [match ?x with Ret _ => _ | Raise _ => _ end] =>
      lazymatch x with
      | context [match _ with pair _ _ => _ end] => fail
      | context [match _ with Ret _ => _ | Raise _ => _ end] => fail
      | _ => destruct x as [?|?] eqn:?; cbn [fst snd app]
      end
  end.

Ltac run_convert :=
  unfold convert_raw_to_preview, with_imread, try_except, try_finally, bind,
    getsize, call, ret, run_result, run_world, run_log;
  repeat destruct_call.

(** The two shapes of what the conversion returns. *)
Lemma convert_outcome (S : System) (raw_path preview_path : string)
    (max_size quality : Z) (w : world S) :
  let r := convert_raw_to_preview S raw_path preview_path max_size quality w in
  (exists n, run_result r = Ret (true, VInt n)
             /\ os_path_getsize S preview_path (run_world r) = Ret n
             /\ In (EvSave preview_path (SaveArgs "JPEG" quality true true))
                   (run_log r))
  \/ (exists e, run_result r = Ret (false, VStr (exn_str e))).
Proof.
  intros r. subst r. run_convert.
  all: try (right; eexists; reflexivity).
  left. eexists. split; [reflexivity|]. split; [assumption|].
  cbn. tauto.
Qed.

(** C7. The conversion never raises: whatever the decoder, the image
    library and the file system do, it returns either [(True, n)] where
    [n] is the size in bytes the file system reports for the preview path,
    after the preview was saved there, or [(False, s)] where [s] is the
    text of the exception that a step raised. *)
Theorem convert_never_raises (S : System) (raw_path preview_path : string)
    (max_size quality : Z) (w : world S) :
  let r := convert_raw_to_preview S raw_path preview_path max_size quality w in
  (exists n, run_result r = Ret (true, VInt n)
             /\ os_path_getsize S preview_path (run_world r) = Ret n
             /\ In (EvSave preview_path (SaveArgs "JPEG" quality true true))
                   (run_log r))
  \/ (exists e, run_result r = Ret (false, VStr (exn_str e))).
Proof.
  intros r. subst r. run_convert.
  (* a step raised: the handler reports the text of the exception *)
  all: try (right; eexists; reflexivity).
  (* every step returned: the size is the one reported for the preview *)
  left. eexists. split; [reflexivity|]. split; [assumption|].
  cbn. tauto.
Qed.

(** C8, as stated, fails: a RAW file is converted and the post-processing
    step is invoked with [no_auto_bright=False], so auto-brightness is
    left enabled; there is no call with the configuration of the
    specification. *)
Lemma postprocess_auto_bright_enabled :
  let r := convert_raw_to_preview Sim.system "/p/a.CR2" "/p/a_preview.jpg"
             PREVIEW_SIZE PREVIEW_QUALITY one_raw_file in
  run_result r = Ret (true, VInt 101)
  /\ In (EvPostprocess (PostprocessArgs true true false 8)) (run_log r)
  /\ ~ In (EvPostprocess postprocess_as_claimed) (run_log r).
Proof.
  split; [reflexivity|]. split.
  - vm_compute. tauto.
  - vm_compute. intros H.
    repeat (destruct H as [H|H]; [discriminate H|]). exact H.
Qed.

(** C8, amended. Every call of the post-processing step that the
    conversion makes has half size and camera white balance switched on,
    [no_auto_bright] switched off (auto-brightness stays enabled) and 8
    bits per sample; the step is called exactly once for every RAW file
    that the decoder opens, and in particular for every file that is
    converted. *)
Theorem postprocess_configuration (S : System) (raw_path preview_path : string)
    (max_size quality : Z) (w : world S) :
  let r := convert_raw_to_preview S raw_path preview_path max_size quality w in
  (forall a, In (EvPostprocess a) (run_log r) ->
     use_camera_wb a = true /\ half_size a = true
     /\ no_auto_bright a = false /\ output_bps a = 8%Z)
  /\ (forall w1 raw, rawpy_imread S raw_path w = (w1, Ret raw) ->
        postprocess_calls (run_log r) = 1%nat)
  /\ (forall v, run_result r = Ret (true, v) ->
        postprocess_calls (run_log r) = 1%nat).
Proof.
  intros r. subst r. run_convert.
  all: split; [|split].
  all: try (intros args Hin; cbn in Hin;
            repeat (destruct Hin as [Hin|Hin];
                    [try discriminate Hin; injection Hin as <-;
                     repeat split; reflexivity|]);
            contradiction).
  all: try (intros; reflexivity).
  all: try (intros; discriminate).
Qed.

Lemma postprocess_configuration_witness :
  let r := convert_raw_to_preview Sim.system "/p/a.CR2" "/p/a_preview.jpg"
             PREVIEW_SIZE PREVIEW_QUALITY one_raw_file in
  no_auto_bright (PostprocessArgs true true false 8) = false
  /\ postprocess_calls (run_log r) = 1%nat.
Proof.
  destruct (postprocess_configuration Sim.system "/p/a.CR2" "/p/a_preview.jpg"
              PREVIEW_SIZE PREVIEW_QUALITY one_raw_file) as (Ha & Hopen & Hconv).
  split.
  - refine (proj1 (proj2 (proj2 (Ha (PostprocessArgs true true false 8) _)))).
    vm_compute. tauto.
  - exact (Hconv (VInt 101) eq_refl).
Defined.

(** ** Lens and GPS fields *)

Lemma empty_metadata_null : null_lens_gps empty_metadata.
Proof. repeat split; reflexivity. Qed.

Ltac trivial_post := first [exact Logic.I | intros; exact Logic.I].

(** Discharges goals about computations that never upsert. *)
Ltac logs_auto :=
  repeat first
    [ apply sat_ret; trivial_post
    | apply sat_raise; trivial_post
    | apply sat_of_outcome; trivial_post
    | apply logs_call; [trivial_post | trivial_post]
    | apply sat_query; [trivial_post | trivial_post]
    | apply logs_try_except; [|intros ?]
    | apply logs_try_finally
    | apply logs_bind; [ | intros ? | trivial_post]
    | apply sat_when_some; [trivial_post | intros ? _] ].

Section Exif.
Context (S : System).

#[local] Abbreviation P := upserts_without_gps.
#[local] Abbreviation Inv := (fun wd : world S * dict => null_lens_gps wd.2).

Lemma setitem_keeps (k : string) (v : pyval) :
  other_key k -> sat Inv P any_outcome (setitem k v).
Proof.
  intros (H1 & H2 & H3) [w d] (D1 & D2 & D3). cbn in *.
  split; [|split; [constructor | exact Logic.I]].
  repeat split; rewrite lookup_insert_ne by assumption; assumption.
Qed.

Lemma other_key_literal (k : string) :
  negb (String.eqb k "lens_model") && negb (String.eqb k "gps_latitude")
  && negb (String.eqb k "gps_longitude") = true -> other_key k.
Proof.
  intros H. apply andb_prop in H. destruct H as [H H3].
  apply andb_prop in H. destruct H as [H1 H2].
  repeat split; intros ->; discriminate.
Qed.

Lemma fill_metadata_keeps (md : raw_metadata) :
  sat Inv P any_outcome (fill_metadata S md).
Proof.
  unfold fill_metadata.
  repeat first
    [ apply setitem_keeps; apply other_key_literal; reflexivity
    | progress logs_auto ].
Qed.

Lemma imread_logs (path : string) :
  sat any_world P any_outcome (call (EvImread path) (rawpy_imread S path)).
Proof. logs_auto. Qed.

Lemma close_logs (raw : raw_image S) :
  sat any_world P any_outcome (call EvClose (raw_close S raw)).
Proof. logs_auto. Qed.

Lemma extract_exif_body_keeps (path : string) :
  sat Inv P any_outcome (extract_exif_body S path).
Proof.
  unfold extract_exif_body.
  apply logs_try_except; [|intros e; logs_auto].
  apply logs_bind; [ | intros raw | trivial_post].
  - apply (sat_lift_fst null_lens_gps). apply imread_logs.
  - apply logs_try_finally.
    + apply sat_when_some; [trivial_post | intros md _].
      apply fill_metadata_keeps.
    + apply (sat_lift_fst null_lens_gps). apply close_logs.
Qed.

(** The extraction returns, and its dictionary has no lens and no
    position. *)
Lemma extract_exif_null (path : string) :
  sat any_world P (fun r => exists d, r = Ret d /\ null_lens_gps d)
      (extract_exif_from_raw S path).
Proof.
  intros w _. unfold extract_exif_from_raw.
  destruct (extract_exif_body_keeps path (w, empty_metadata) empty_metadata_null)
    as (Hi & Hl & _).
  destruct (extract_exif_body S path (w, empty_metadata)) as [[[w' d] l] r].
  cbn in *. repeat split; eauto.
Qed.

Lemma upsert_params_null (raw_path preview_path : string)
    (client_name date : option string) (metadata : dict)
    (raw_size_mb preview_size_kb : Float.t) :
  null_lens_gps metadata ->
  sat any_world P (fun r => forall row, r = Ret row -> no_lens_no_gps row)
      (upsert_params S raw_path preview_path client_name date metadata
         raw_size_mb preview_size_kb).
Proof.
  intros (H1 & H2 & H3) w _.
  unfold upsert_params, bind, of_outcome, getitem, ret, raise.
  rewrite H1, H2, H3.
  repeat match goal with
         | |- context [metadata !! ?k] => destruct (metadata !! k)
         end;
    cbn; (split; [exact Logic.I | split; [constructor|]]);
    intros row [= <-]; repeat split.
Qed.

End Exif.

Section RetryLogs.
Context {W : Type} (cur : cursor W) (q : statement) (P : event -> Prop).
Context (Hexec : P (EvExecute q)) (Hsleep : forall d, P (EvSleep d)).

Lemma time_sleep_logs (d : Float.t) :
  sat (@any_world W) P any_outcome (time_sleep d).
Proof.
  unfold time_sleep.
  repeat match goal with |- context [if ?b then _ else _] => destruct b end;
    try (apply sat_raise; exact Logic.I).
  apply logs_call; [apply Hsleep | trivial_post].
Qed.

Lemma retry_attempt_logs max_retries delay attempt :
  sat any_world P any_outcome (retry_attempt cur q max_retries delay attempt).
Proof.
  unfold retry_attempt.
  apply logs_try_except.
  - apply logs_bind; [ | intros ? | trivial_post].
    + apply logs_call; [exact Hexec | trivial_post].
    + apply sat_ret. exact Logic.I.
  - intros e.
    repeat match goal with |- context [if ?b then _ else _] => destruct b end;
      try (apply sat_raise; exact Logic.I).
    apply logs_bind; [apply time_sleep_logs | intros ?; apply sat_ret; exact Logic.I
                     | trivial_post].
Qed.

Lemma retry_loop_logs max_retries delay attempts :
  sat any_world P any_outcome (retry_loop cur q max_retries delay attempts).
Proof.
  induction attempts as [|a rest IH]; cbn [retry_loop].
  - apply sat_ret. exact Logic.I.
  - apply logs_bind; [apply retry_attempt_logs | intros [b|] | trivial_post].
    + apply sat_ret. exact Logic.I.
    + exact IH.
Qed.

End RetryLogs.

(** ** The scan *)

Lemma count_of_snoc (p : file_outcome -> bool) os o :
  count_of p (os ++ [o]) = (count_of p os + if p o then 1 else 0)%Z.
Proof.
  unfold count_of. rewrite List.filter_app, length_app. cbn.
  destruct (p o); cbn; lia.
Qed.

Lemma count_of_total (os : list file_outcome) :
  (count_of is_converted os + count_of is_skipped os + count_of is_failed os
   = Z.of_nat (length os))%Z.
Proof.
  unfold count_of. induction os as [|o os IH]; cbn; [reflexivity|].
  destruct o; cbn; lia.
Qed.

Lemma counted_initial : counted initial_state.
Proof. repeat split. Qed.

Lemma counted_snoc (st : scan_state) (o : file_outcome) :
  counted st ->
  counted (ScanState
             (processed st + if is_converted o then 1 else 0)
             (skipped st + if is_skipped o then 1 else 0)
             (failed st + if is_failed o then 1 else 0)
             (outcomes st ++ [o])).
Proof.
  intros (Hp & Hs & Hf). unfold counted. cbn.
  rewrite !count_of_snoc, Hp, Hs, Hf. auto.
Qed.

Section Scan.
Context (S : System).

#[local] Abbreviation P := upserts_without_gps.

Lemma convert_logs (raw_path preview_path : string) (max_size quality : Z) :
  sat any_world P any_outcome
      (convert_raw_to_preview S raw_path preview_path max_size quality).
Proof. unfold convert_raw_to_preview, with_imread, getsize. logs_auto. Qed.

Lemma getsize_logs (path : string) :
  sat any_world P any_outcome (getsize S path).
Proof. unfold getsize. logs_auto. Qed.

Lemma commit_logs : sat any_world P any_outcome Sqlite.commit.
Proof. unfold Sqlite.commit. logs_auto. Qed.

Lemma connect_logs : sat any_world P any_outcome Sqlite.connect.
Proof.
  intros db _. unfold Sqlite.connect.
  destruct (Sqlite.next_fault db) as [[e|] db']; cbn;
    (split; [exact Logic.I | split; [constructor | exact Logic.I]]).
Qed.

Lemma index_file_logs (raw_path preview_path : string) (kb : Float.t) :
  sat any_world P any_outcome (index_file S raw_path preview_path kb).
Proof.
  unfold index_file.
  destruct (Parse.parse_client_info raw_path) as [client_name date].
  eapply sat_bind with (Q1 := fun r => exists d, r = Ret d /\ null_lens_gps d);
    [ apply (sat_lift_fst any_world), extract_exif_null
    | intros metadata (d & [= <-] & Hnull)
    | trivial_post ].
  apply logs_bind;
    [ apply (sat_lift_fst any_world), getsize_logs | intros size | trivial_post ].
  apply logs_try_except; [|intros e; apply sat_ret; exact Logic.I].
  eapply sat_bind
    with (Q1 := fun r => forall row, r = Ret row -> no_lens_no_gps row);
    [ apply (sat_lift_fst any_world), upsert_params_null, Hnull
    | intros row Hrow
    | trivial_post ].
  apply logs_bind; [ | intros ?; apply sat_ret; exact Logic.I | trivial_post].
  apply (sat_lift_snd any_world).
  apply retry_loop_logs; [exact (Hrow row eq_refl) | intros; exact Logic.I].
Qed.

(** The loop keeps the counters in step with the branches taken, handles
    every file it is given when it returns, and upserts only records
    without lens and position. *)
Lemma scan_loop_sat (update_db regenerate : bool) (raw_files : list string) :
  forall st, counted st ->
    sat any_world P
        (fun r => forall st', r = Ret st' ->
           counted st'
           /\ length (outcomes st')
              = (length (outcomes st) + length raw_files)%nat)
        (scan_loop S update_db regenerate raw_files st).
Proof.
  induction raw_files as [|raw_path rest IH]; intros st Hst; cbn [scan_loop].
  - apply sat_ret. intros st' [= <-]. split; [assumption|]. cbn. lia.
  - assert (Hnext : forall o,
      sat any_world P
        (fun r => forall st', r = Ret st' ->
           counted st'
           /\ length (outcomes st')
              = (length (outcomes st) + length (raw_path :: rest))%nat)
        (scan_loop S update_db regenerate rest
           (ScanState
              (processed st + if is_converted o then 1 else 0)
              (skipped st + if is_skipped o then 1 else 0)
              (failed st + if is_failed o then 1 else 0)
              (outcomes st ++ [o])))).
    { intros o. eapply sat_weaken; [apply IH, counted_snoc, Hst|].
      cbn. intros r Hr st' E. destruct (Hr st' E) as [Hc Hl].
      split; [assumption|]. rewrite Hl, length_app. cbn. lia. }
    apply logs_bind; [ | intros skip | discriminate ].
    { destruct regenerate; cbn; [apply sat_ret; exact Logic.I|].
      apply (sat_lift_fst any_world). logs_auto. }
    destruct skip.
    { specialize (Hnext FileSkipped). cbn in Hnext.
      now rewrite !Z.add_0_r in Hnext. }
    apply logs_bind;
      [ apply (sat_lift_fst any_world), convert_logs
      | intros [success result] | discriminate ].
    destruct success; cbn [negb].
    2:{ specialize (Hnext (FileFailed result)). cbn in Hnext.
        now rewrite !Z.add_0_r in Hnext. }
    apply logs_bind;
      [ apply sat_of_outcome; exact Logic.I | intros kb | discriminate ].
    apply logs_bind; [ | intros c | discriminate ].
    { destruct update_db; [apply index_file_logs | apply sat_ret; exact Logic.I]. }
    apply logs_bind; [ | intros _ | discriminate ].
    { destruct (_ && _); [|apply sat_ret; exact Logic.I].
      apply (sat_lift_snd any_world), commit_logs. }
    specialize (Hnext (FileConverted c)). cbn in Hnext.
    now rewrite !Z.add_0_r in Hnext.
Qed.

Lemma scan_raw_files_sat (directory : string) (update_db regenerate : bool)
    (limit : option Z) (w : world S * Sqlite.database) :
  let r := scan_raw_files S directory update_db regenerate limit w in
  Forall P (run_log r)
  /\ match run_result r with
     | Ret None => candidates S directory limit w.1 = []
     | Ret (Some st) =>
         counted st
         /\ length (outcomes st) = length (candidates S directory limit w.1)
     | Raise _ => True
     end.
Proof.
  intros r. subst r. unfold scan_raw_files.
  destruct (candidates S directory limit w.1) as [|f fs] eqn:Hc.
  { cbn. split; [constructor | reflexivity]. }
  rewrite <- Hc.
  set (files := candidates S directory limit w.1).
  assert (H : sat any_world P
                (fun r => match r with
                          | Ret None => False
                          | Ret (Some st) =>
                              counted st /\ length (outcomes st) = length files
                          | Raise _ => True
                          end)
                ((if update_db
                  then lift_snd (Sqlite.connect ;;;
                                 db_execute_with_retry_default
                                   Sqlite.execute CreateTableIfNotExists ;;;
                                 Sqlite.commit)
                  else ret tt) ;;;
                 st <- scan_loop S update_db regenerate files initial_state ;;
                 (if update_db then lift_snd Sqlite.commit else ret tt) ;;;
                 ret (Some st))).
  { apply logs_bind; [ | intros _ | trivial_post ].
    { destruct update_db; [|apply sat_ret; exact Logic.I].
      apply (sat_lift_snd any_world).
      apply logs_bind; [apply connect_logs | intros _ | trivial_post].
      apply logs_bind; [ | intros _; apply commit_logs | trivial_post].
      apply retry_loop_logs; intros; exact Logic.I. }
    eapply sat_bind;
      [ apply (scan_loop_sat update_db regenerate files initial_state
                 counted_initial)
      | intros st Hst | trivial_post ].
    destruct (Hst st eq_refl) as [Hcnt Hlen].
    apply logs_bind; [ | intros _ | trivial_post ].
    { destruct update_db; [|apply sat_ret; exact Logic.I].
      apply (sat_lift_snd any_world), commit_logs. }
    apply sat_ret. split; [assumption|]. exact Hlen. }
  destruct (H w Logic.I) as (_ & Hl & Hq).
  split; [exact Hl|].
  destruct (run_result _) as [[st|]|e]; [exact Hq | contradiction | exact Logic.I].
Qed.

End Scan.

(** *** Runs that do not write the catalog always complete *)

Lemma sat_of_result {W A} (Q : outcome A -> Prop) (m : M W A) :
  (forall w, Q (run_result (m w))) -> sat any_world (fun _ => True) Q m.
Proof.
  intros H w _. split; [exact Logic.I|]. split; [|apply H].
  apply Forall_forall. intros; exact Logic.I.
Qed.

Lemma scan_loop_returns (S : System) (regenerate : bool)
    (raw_files : list string) :
  forall st, sat any_world (fun _ => True) returns
               (scan_loop S false regenerate raw_files st).
Proof.
  induction raw_files as [|raw_path rest IH]; intros st; cbn [scan_loop].
  - apply sat_ret. reflexivity.
  - eapply sat_bind with (Q1 := returns); [ | intros skip _ | discriminate ].
    { destruct regenerate; cbn; [apply sat_ret; reflexivity|].
      apply (sat_lift_fst any_world), sat_query; [exact Logic.I | reflexivity]. }
    destruct skip; [apply IH|].
    eapply sat_bind
      with (Q1 := fun r => (exists n, r = Ret (true, VInt n))
                           \/ (exists s, r = Ret (false, VStr s)));
      [ apply (sat_lift_fst any_world), sat_of_result
      | intros [success result] Hshape
      | intros e [[n H]|[s H]]; discriminate H ].
    { intros w.
      destruct (convert_outcome S raw_path (get_preview_path raw_path)
                  PREVIEW_SIZE PREVIEW_QUALITY w) as [(n & H & _)|(e & H)];
        eauto. }
    destruct Hshape as [[n [= -> ->]]|[s [= -> ->]]]; cbn [negb]; [|apply IH].
    cbn [result_kb of_outcome andb].
    eapply sat_bind with (Q1 := returns);
      [ apply sat_ret; reflexivity | intros kb _ | discriminate ].
    eapply sat_bind with (Q1 := returns);
      [ apply sat_ret; reflexivity | intros c _ | discriminate ].
    eapply sat_bind with (Q1 := returns);
      [ apply sat_ret; reflexivity | intros _ _; apply IH | discriminate ].
Qed.

Lemma scan_without_catalog_returns (S : System) (directory : string)
    (regenerate : bool) (limit : option Z) (w : world S * Sqlite.database) :
  returns (run_result (scan_raw_files S directory false regenerate limit w)).
Proof.
  unfold scan_raw_files.
  destruct (candidates S directory limit w.1) as [|f fs]; [reflexivity|].
  assert (H : sat any_world (fun _ => True) returns
                (ret tt ;;;
                 st <- scan_loop S false regenerate (f :: fs) initial_state ;;
                 ret tt ;;;
                 ret (Some st))).
  { eapply sat_bind with (Q1 := returns);
      [ apply sat_ret; reflexivity | intros _ _ | discriminate ].
    eapply sat_bind with (Q1 := returns);
      [ apply scan_loop_returns | intros st _ | discriminate ].
    eapply sat_bind with (Q1 := returns);
      [ apply sat_ret; reflexivity | intros _ _ | discriminate ].
    apply sat_ret. reflexivity. }
  exact (proj2 (proj2 (H w Logic.I))).
Qed.

(** *** What the search sees of a record without position *)

Lemma location_filter_rejects (r : raw_photo) (id : Z)
    (client date camera : option string) :
  no_lens_no_gps r ->
  PhotoSearch.where_clause client date camera true (PhotoSearch.view (StoredRow id r))
  = false.
Proof.
  intros (_ & Hlat & _).
  unfold PhotoSearch.where_clause, PhotoSearch.location_clause, PhotoSearch.view. cbn.
  rewrite Hlat. cbn. now rewrite !andb_false_r.
Qed.

(** C9. The dictionary the extraction returns has [None] under the keys
    [lens_model], [gps_latitude] and [gps_longitude], whatever the decoder
    reports; every record that a scan upserts has [None] in these three
    columns; and the search with the GPS-presence filter rejects the row
    of such a record, whatever the other filters are. *)
Theorem lens_and_gps_stay_null :
  (forall (S : System) (raw_path : string) (w : world S),
     exists d, run_result (extract_exif_from_raw S raw_path w) = Ret d
               /\ null_lens_gps d)
  /\ (forall (S : System) directory update_db regenerate limit
             (w : world S * Sqlite.database) (r : raw_photo),
        In (EvExecute (InsertOrReplace r))
           (run_log (scan_raw_files S directory update_db regenerate limit w)) ->
        no_lens_no_gps r
        /\ forall id client date camera,
             PhotoSearch.where_clause client date camera true
               (PhotoSearch.view (StoredRow id r)) = false).
Proof.
  split.
  - intros S raw_path w.
    exact (proj2 (proj2 (extract_exif_null S raw_path w Logic.I))).
  - intros S directory update_db regenerate limit w r Hin.
    destruct (scan_raw_files_sat S directory update_db regenerate limit w)
      as [Hlog _].
    rewrite List.Forall_forall in Hlog. specialize (Hlog _ Hin). cbn in Hlog.
    split; [exact Hlog|]. intros. now apply location_filter_rejects.
Qed.

Lemma lens_and_gps_stay_null_witness :
  no_lens_no_gps photo_a
  /\ PhotoSearch.where_clause None None None true (PhotoSearch.view (StoredRow 1 photo_a))
     = false.
Proof.
  destruct (proj2 lens_and_gps_stay_null Sim.system "/p" true false None
              (shoot, idle_catalog) photo_a) as [H1 H2].
  - vm_compute. tauto.
  - split; [exact H1 | exact (H2 1%Z None None None)].
Defined.

(** *** The counters follow what became of each file *)

Lemma bind_ret_inv {W A B} (m : M W A) (k : A -> M W B)
    (w w' : W) (l : list event) (b : B) :
  bind m k w = (w', l, Ret b) ->
  exists w1 l1 a l2,
    m w = (w1, l1, Ret a) /\ k a w1 = (w', l2, Ret b) /\ l = l1 ++ l2.
Proof.
  unfold bind. destruct (m w) as [[w1 l1] [a|e]]; [|discriminate].
  destruct (k a w1) as [[w2 l2] r] eqn:Ek. intros [= <- <- ->].
  exists w1, l1, a, l2. repeat split. exact Ek.
Qed.

Lemma bind_assoc {W A B C} (m : M W A) (k : A -> M W B) (h : B -> M W C)
    (w : W) :
  bind (bind m k) h w = bind m (fun a => bind (k a) h) w.
Proof.
  unfold bind. destruct (m w) as [[w1 l1] [a|e]]; [|reflexivity].
  destruct (k a w1) as [[w2 l2] [b|e]]; [|reflexivity].
  destruct (h b w2) as [[w3 l3] r]. now rewrite List.app_assoc.
Qed.

Lemma bind_cong {W A B} (m : M W A) (k1 k2 : A -> M W B) (w : W) :
  (forall a w', k1 a w' = k2 a w') -> bind m k1 w = bind m k2 w.
Proof.
  intros H. unfold bind. destruct (m w) as [[w1 l1] [a|e]]; [|reflexivity].
  now rewrite H.
Qed.

Lemma bind_ret_l {W A B} (a : A) (k : A -> M W B) (w : W) :
  bind (ret a) k w = k a w.
Proof. unfold bind, ret. now destruct (k a w) as [[w2 l2] r]. Qed.

Lemma bind_ret_r {W A} (m : M W A) (w : W) :
  bind m (fun a => ret a) w = m w.
Proof.
  unfold bind, ret. destruct (m w) as [[w1 l1] [a|e]]; [|reflexivity].
  now rewrite app_nil_r.
Qed.

(** The loop over a list is the iteration on its first file, then the
    loop over the others. *)
Lemma scan_loop_cons (S : System) (update_db regenerate : bool)
    (raw_path : string) (rest : list string) (st : scan_state)
    (wv : world S * Sqlite.database) :
  scan_loop S update_db regenerate (raw_path :: rest) st wv
  = bind (scan_loop S update_db regenerate [raw_path] st)
         (fun st1 => scan_loop S update_db regenerate rest st1) wv.
Proof.
  cbn [scan_loop].
  rewrite bind_assoc. apply bind_cong. intros [|] w1;
    [now rewrite bind_ret_l|].
  rewrite bind_assoc. apply bind_cong. intros [success result] w2.
  destruct success; cbn [negb]; [|now rewrite bind_ret_l].
  rewrite bind_assoc. apply bind_cong. intros kb w3.
  rewrite bind_assoc. apply bind_cong. intros c w4.
  rewrite bind_assoc. apply bind_cong. intros [] w5.
  now rewrite bind_ret_l.
Qed.

Lemma scan_loop_app (S : System) (update_db regenerate : bool)
    (l1 l2 : list string) :
  forall st wv,
    scan_loop S update_db regenerate (l1 ++ l2) st wv
    = bind (scan_loop S update_db regenerate l1 st)
           (fun st1 => scan_loop S update_db regenerate l2 st1) wv.
Proof.
  induction l1 as [|f l1 IH]; intros st wv.
  - cbn [app scan_loop]. now rewrite bind_ret_l.
  - cbn [app]. rewrite scan_loop_cons.
    rewrite (bind_cong _ _
               (fun st1 => bind (scan_loop S update_db regenerate l1 st1)
                             (fun st2 => scan_loop S update_db regenerate l2 st2)))
      by (intros; apply IH).
    rewrite <- bind_assoc. unfold bind at 1 3.
    now rewrite <- scan_loop_cons.
Qed.

(** One iteration moves the counter of the branch that the two tests of
    the source select, whatever becomes of the catalog write. *)
Lemma scan_loop_single (S : System) (update_db regenerate : bool)
    (raw_path : string) (st st' : scan_state)
    (wv wv' : world S * Sqlite.database) (l : list event) :
  scan_loop S update_db regenerate [raw_path] st wv = (wv', l, Ret st') ->
  let f := fate_of S regenerate raw_path wv.1 in
  processed st' = (processed st + tally Processed [f])%Z
  /\ skipped st' = (skipped st + tally Skipped [f])%Z
  /\ failed st' = (failed st + tally Failed [f])%Z
  /\ map fate_of_outcome (outcomes st')
     = map fate_of_outcome (outcomes st) ++ [f].
Proof.
  destruct wv as [w db]. cbn [scan_loop fst]. intros H. cbv zeta.
  unfold fate_of.
  apply bind_ret_inv in H. destruct H as (wv1 & l1 & skip & l1' & Hs & H & _).
  assert (Hskip : wv1 = (w, db)
                  /\ skip = negb regenerate
                            && os_path_exists S (get_preview_path raw_path) w).
  { destruct regenerate; cbn in Hs; injection Hs as <- _ <-; auto. }
  destruct Hskip as [-> Eskip]. rewrite <- Eskip. clear Hs Eskip.
  destruct skip.
  { injection H as _ _ <-. cbn. rewrite map_app. unfold tally. cbn.
    repeat split; first [lia | reflexivity]. }
  apply bind_ret_inv in H.
  destruct H as (wv2 & l2 & [success result] & l2' & Hc & H & _).
  unfold lift_fst in Hc. cbn [fst snd] in Hc.
  pose proof (convert_outcome S raw_path (get_preview_path raw_path)
                PREVIEW_SIZE PREVIEW_QUALITY w) as Ho. cbn zeta in Ho.
  destruct (convert_raw_to_preview S raw_path (get_preview_path raw_path)
              PREVIEW_SIZE PREVIEW_QUALITY w) as [[w2 lc] rc].
  cbn [run_result run_world run_log fst snd] in *.
  injection Hc as <- _ ->.
  destruct Ho as [(n & [= -> ->] & _)|(e & [= -> ->])]; cbn [negb] in H.
  - apply bind_ret_inv in H. destruct H as (wv3 & l3 & kb & l3' & _ & H & _).
    apply bind_ret_inv in H. destruct H as (wv4 & l4 & c & l4' & _ & H & _).
    apply bind_ret_inv in H. destruct H as (wv5 & l5 & [] & l5' & _ & H & _).
    injection H as _ _ <-. cbn. rewrite map_app. unfold tally. cbn.
    repeat split; first [lia | reflexivity].
  - injection H as _ _ <-. cbn. rewrite map_app. unfold tally. cbn.
    repeat split; first [lia | reflexivity].
Qed.

Lemma tally_app (f : fate) (l1 l2 : list fate) :
  tally f (l1 ++ l2) = (tally f l1 + tally f l2)%Z.
Proof. unfold tally. rewrite List.filter_app, length_app. lia. Qed.

Lemma fates_snoc (S : System) (update_db regenerate : bool)
    (raw_files : list string) (raw_path : string)
    (wv : world S * Sqlite.database) :
  fates S update_db regenerate (raw_files ++ [raw_path]) wv
  = fates S update_db regenerate raw_files wv
    ++ [fate_of S regenerate raw_path
          (run_world (scan_loop S update_db regenerate raw_files
                        initial_state wv)).1].
Proof.
  unfold fates, world_at.
  rewrite length_app. cbn [length]. rewrite seq_app, map_app. f_equal.
  - apply map_ext_in. intros i Hi. apply in_seq in Hi.
    rewrite app_nth1 by lia.
    rewrite List.firstn_app.
    replace (i - length raw_files)%nat with 0%nat by lia.
    now rewrite firstn_O, app_nil_r.
  - cbn [seq map]. rewrite Nat.add_0_l.
    rewrite nth_middle, List.firstn_app, Nat.sub_diag, firstn_O, app_nil_r.
    now rewrite List.firstn_all.
Qed.

(** The counters of a loop that returns are the numbers of files of
    each fate. *)
Lemma scan_loop_fates (S : System) (update_db regenerate : bool)
    (raw_files : list string) (wv : world S * Sqlite.database) :
  forall wv' l st',
    scan_loop S update_db regenerate raw_files initial_state wv
    = (wv', l, Ret st') ->
    let fs := fates S update_db regenerate raw_files wv in
    processed st' = tally Processed fs
    /\ skipped st' = tally Skipped fs
    /\ failed st' = tally Failed fs
    /\ map fate_of_outcome (outcomes st') = fs.
Proof.
  induction raw_files as [|f files IH] using rev_ind; intros wv' l st' H fs.
  - injection H as _ _ <-. repeat split.
  - subst fs. rewrite scan_loop_app in H. apply bind_ret_inv in H.
    destruct H as (wv1 & l1 & st1 & l2 & H1 & H2 & _).
    destruct (IH _ _ _ H1) as (Hp & Hs & Hf & Ho).
    apply scan_loop_single in H2. cbn zeta in H2.
    destruct H2 as (Hp2 & Hs2 & Hf2 & Ho2).
    rewrite fates_snoc, H1. cbn [run_world fst].
    rewrite !tally_app, <- Hp, <- Hs, <- Hf, <- Ho.
    auto.
Qed.

Lemma scan_raw_files_loop (S : System) (directory : string)
    (update_db regenerate : bool) (limit : option Z)
    (w w' : world S * Sqlite.database) (l : list event) (st : scan_state) :
  scan_raw_files S directory update_db regenerate limit w
  = (w', l, Ret (Some st)) ->
  exists w2 l2,
    scan_loop S update_db regenerate (candidates S directory limit w.1)
      initial_state (loop_start S update_db w)
    = (w2, l2, Ret st).
Proof.
  unfold scan_raw_files, loop_start, open_catalog.
  destruct (candidates S directory limit w.1) as [|f fs]; [discriminate|].
  intros H.
  apply bind_ret_inv in H. destruct H as (w1 & l1 & [] & l1' & H0 & H & _).
  apply bind_ret_inv in H. destruct H as (w2 & l2 & st2 & l2' & Hloop & H & _).
  apply bind_ret_inv in H. destruct H as (w3 & l3 & [] & l3' & _ & H & _).
  injection H as _ _ <-.
  rewrite H0. cbn [run_world fst]. eauto.
Qed.

(** C10. When a scan returns its counters, every candidate file was
    handled by exactly one branch of the loop and counted once: the three
    counters add up to the number of candidate files. [skipped] counts the
    files whose preview existed when the loop came to them (and previews
    were not regenerated), [failed] the other files whose conversion
    reported a failure and [processed] the other files whose conversion
    reported success, whether the catalog write then succeeded, failed
    or was switched off. A scan that finds no candidate returns before it
    counts. A scan that does not write the catalog always returns. *)
Theorem scan_counters_partition (S : System) (directory : string)
    (update_db regenerate : bool) (limit : option Z)
    (w : world S * Sqlite.database) :
  let r := scan_raw_files S directory update_db regenerate limit w in
  let files := candidates S directory limit w.1 in
  let total := length files in
  let fs := fates S update_db regenerate files (loop_start S update_db w) in
  match run_result r with
  | Ret (Some st) =>
      (skipped st + processed st + failed st = Z.of_nat total)%Z
      /\ length (outcomes st) = total
      /\ processed st = count_of is_converted (outcomes st)
      /\ skipped st = count_of is_skipped (outcomes st)
      /\ failed st = count_of is_failed (outcomes st)
      /\ processed st = tally Processed fs
      /\ skipped st = tally Skipped fs
      /\ failed st = tally Failed fs
      /\ map fate_of_outcome (outcomes st) = fs
  | Ret None => total = 0%nat
  | Raise _ => update_db = true
  end.
Proof.
  intros r files total fs. subst r files total fs.
  pose proof (scan_without_catalog_returns S directory regenerate limit w) as Hr.
  destruct (scan_raw_files_sat S directory update_db regenerate limit w)
    as [_ H].
  pose proof (scan_raw_files_loop S directory update_db regenerate limit w) as Hl.
  destruct update_db; [clear Hr|];
    match goal with
    | |- context [scan_raw_files S directory ?b regenerate limit w] =>
        destruct (scan_raw_files S directory b regenerate limit w)
          as [[w' l] [[st|]|e]]
    end;
    cbv [run_result snd returns raised] in *;
    try reflexivity; try discriminate Hr; try (now rewrite H).
  all: destruct H as [(Hp & Hs & Hf) Hlen];
    pose proof (count_of_total (outcomes st)) as Ht;
    destruct (Hl w' l st eq_refl) as (w2 & l2 & Hloop);
    destruct (scan_loop_fates _ _ _ _ _ _ _ _ Hloop) as (Fp & Fs & Ff & Fo);
    repeat split; try assumption; rewrite <- Hlen; lia.
Qed.

Lemma scan_counters_partition_witness :
  let w := (shoot, busy_catalog) in
  let r := scan_raw_files Sim.system "/p" true false None w in
  run_result r
  = Ret (Some (ScanState 1 1 1
                 [FileSkipped;
                  FileConverted (CatalogFailed Sim.locked);
                  FileFailed (VStr "Input/output error")]))
  /\ (1 + 1 + 1 = Z.of_nat 3)%Z
  /\ fates Sim.system true false (candidates Sim.system "/p" None shoot)
        (loop_start Sim.system true w)
     = [Skipped; Processed; Failed].
Proof.
  intros w r. split; [reflexivity|].
  pose proof (scan_counters_partition Sim.system "/p" true false None w) as H.
  split; [exact (proj1 H)|].
  symmetry.
  exact (proj2 (proj2 (proj2 (proj2 (proj2 (proj2 (proj2 (proj2 H)))))))).
Defined.

(** ** Preview paths *)

Lemma split_slash_no_slash (l : chars) : Forall no_slash (Pathlib.split_slash l).
Proof.
  induction l as [|c l IH]; cbn.
  - repeat constructor.
  - destruct (Pathlib.is_slash c) eqn:E.
    + constructor; [constructor | assumption].
    + destruct (Pathlib.split_slash l) as [|h t].
      * repeat constructor. assumption.
      * inversion IH; subst. constructor; [|assumption].
        constructor; assumption.
Qed.

Lemma split_slash_single (l : chars) :
  no_slash l -> Pathlib.split_slash l = [l].
Proof.
  induction 1 as [|c l Hc Hl IH]; cbn; [reflexivity|].
  now rewrite Hc, IH.
Qed.

Lemma split_slash_app (x l : chars) :
  no_slash x ->
  Pathlib.split_slash (x ++ Pathlib.slash :: l) = x :: Pathlib.split_slash l.
Proof.
  induction 1 as [|c x Hc Hx IH]; cbn.
  - reflexivity.
  - now rewrite Hc, IH.
Qed.

Lemma split_slash_join (ps : list chars) :
  ps <> [] -> Forall no_slash ps ->
  Pathlib.split_slash (Pathlib.join_slash ps) = ps.
Proof.
  induction ps as [|x ps IH]; [contradiction|]. intros _ H.
  inversion H as [|? ? Hx Hps]; subst.
  destruct ps as [|y ps].
  - cbn. now apply split_slash_single.
  - cbn [Pathlib.join_slash]. rewrite split_slash_app by assumption.
    f_equal. apply IH; [discriminate | assumption].
Qed.

Lemma filter_keep_all (ps : list chars) :
  Forall wf_part ps -> List.filter Pathlib.keep_part ps = ps.
Proof.
  induction 1 as [|x ps [Hk _] _ IH]; cbn; [reflexivity|].
  now rewrite Hk, IH.
Qed.

Lemma wf_parts_no_slash (ps : list chars) :
  Forall wf_part ps -> Forall no_slash ps.
Proof. apply List.Forall_impl. now intros x [_ H]. Qed.

Lemma wf_part_head (x : chars) :
  wf_part x -> exists c t, x = c :: t /\ Pathlib.is_slash c = false.
Proof.
  intros [Hk Hn]. destruct x as [|c t]; [discriminate|].
  inversion Hn; subst. eauto.
Qed.

Lemma parse_parts_wf (rel : chars) :
  Forall wf_part (List.filter Pathlib.keep_part (Pathlib.split_slash rel)).
Proof.
  pose proof (split_slash_no_slash rel) as H.
  induction H as [|x ps Hx _ IH]; cbn; [constructor|].
  destruct (Pathlib.keep_part x) eqn:E; [|assumption].
  constructor; [split; assumption | assumption].
Qed.

Lemma split_root_wf (l : chars) : wf_root (Pathlib.split_root l).1.
Proof.
  unfold Pathlib.split_root, wf_root.
  destruct l as [|c1 [|c2 [|c3 l]]]; cbn;
    repeat match goal with
           | |- context [if ?b then _ else _] => destruct b; cbn
           end; auto.
Qed.

Lemma parse_wf (l : chars) : wf_path (Pathlib.parse l).
Proof.
  unfold Pathlib.parse. pose proof (split_root_wf l) as Hr.
  destruct (Pathlib.split_root l) as [r rel]. split; [exact Hr|].
  apply parse_parts_wf.
Qed.

(** Parsing a relative run of components gives them back. *)
Lemma parse_parts_join (ps : list chars) :
  Forall wf_part ps ->
  List.filter Pathlib.keep_part (Pathlib.split_slash (Pathlib.join_slash ps)) = ps.
Proof.
  intros H. destruct ps as [|x ps]; [reflexivity|].
  rewrite split_slash_join; [|discriminate|now apply wf_parts_no_slash].
  now apply filter_keep_all.
Qed.

Lemma join_head (x : chars) (ps : list chars) :
  wf_part x ->
  exists c t, Pathlib.join_slash (x :: ps) = c :: t /\ Pathlib.is_slash c = false.
Proof.
  intros H. destruct (wf_part_head x H) as (c & t & -> & Hc).
  destruct ps; cbn; eauto.
Qed.

Lemma is_slash_slash : Pathlib.is_slash Pathlib.slash = true.
Proof. reflexivity. Qed.

(** The root of a text that starts with zero, one or two slashes before
    a relative part. *)
Lemma split_root_rel (l : chars) :
  l = [] \/ (exists c t, l = c :: t /\ Pathlib.is_slash c = false) ->
  Pathlib.split_root l = ([], l)
  /\ Pathlib.split_root (Pathlib.slash :: l) = ([Pathlib.slash], l)
  /\ Pathlib.split_root (Pathlib.slash :: Pathlib.slash :: l)
     = ([Pathlib.slash; Pathlib.slash], l).
Proof.
  intros [-> | (c & t & -> & Hc)]; unfold Pathlib.split_root;
    rewrite ?is_slash_slash, ?Hc; auto.
Qed.

(** Printing a path in normal form and parsing the text gives the path
    back. *)
Lemma parse_to_chars (p : Pathlib.path) :
  wf_path p -> Pathlib.parse (Pathlib.to_chars p) = p.
Proof.
  destruct p as [r ps]. intros [Hr Hps]. cbn in Hr, Hps.
  pose proof (parse_parts_join ps Hps) as Hj.
  assert (Hrel : Pathlib.join_slash ps = []
                 \/ exists c t, Pathlib.join_slash ps = c :: t
                                /\ Pathlib.is_slash c = false).
  { destruct ps as [|x ps]; [now left|right].
    inversion Hps; subst. now apply join_head. }
  destruct (split_root_rel _ Hrel) as (H0 & H1 & H2).
  unfold Pathlib.to_chars, Pathlib.parse. cbn [Pathlib.root Pathlib.parts].
  destruct Hr as [-> | [-> | ->]].
  - destruct ps as [|x ps]; [reflexivity|].
    cbn [app]. rewrite H0. now rewrite Hj.
  - cbn [app]. rewrite H1. now rewrite Hj.
  - cbn [app]. rewrite H2. now rewrite Hj.
Qed.

Lemma rsplit_dot_app (l b a : chars) :
  Pathlib.rsplit_dot l = Some (b, a) -> l = b ++ a.
Proof.
  revert b a. induction l as [|c l IH]; intros b a; cbn; [discriminate|].
  destruct (Pathlib.rsplit_dot l) as [[b' a']|].
  - intros [= <- <-]. cbn. f_equal. now apply IH.
  - destruct (Chars.eqb c "."%char); [|discriminate].
    now intros [= <- <-].
Qed.

Lemma split_suffix_app (n : chars) :
  n = (Pathlib.split_suffix n).1 ++ (Pathlib.split_suffix n).2.
Proof.
  unfold Pathlib.split_suffix.
  destruct (Pathlib.rsplit_dot n) as [[b a]|] eqn:E;
    [|cbn [fst snd]; now rewrite app_nil_r].
  apply rsplit_dot_app in E.
  destruct b as [|c b]; [cbn [fst snd]; now rewrite app_nil_r|].
  destruct (1 <? length a)%nat; cbn [fst snd];
    [exact E | now rewrite app_nil_r].
Qed.

Lemma name_no_slash (p : Pathlib.path) : wf_path p -> no_slash (Pathlib.name p).
Proof.
  intros [_ Hps]. unfold Pathlib.name.
  destruct (Pathlib.parts p) as [|x ps] eqn:E; [constructor|].
  rewrite (app_removelast_last [] (l := x :: ps)) in Hps by discriminate.
  apply Forall_app in Hps. destruct Hps as [_ H].
  inversion H as [|? ? [_ Hn] _]; subst. exact Hn.
Qed.

Lemma stem_no_slash (p : Pathlib.path) : wf_path p -> no_slash (Pathlib.stem p).
Proof.
  intros H. apply name_no_slash in H. unfold Pathlib.stem.
  rewrite (split_suffix_app (Pathlib.name p)) in H.
  unfold no_slash in H. apply Forall_app in H. now destruct H.
Qed.

Lemma preview_name_wf (p : Pathlib.path) : wf_path p -> wf_part (preview_name p).
Proof.
  intros H. apply stem_no_slash in H. unfold preview_name. split.
  - destruct (Pathlib.stem p) as [|c [|c' s]]; reflexivity.
  - apply Forall_app. split; [exact H|]. repeat constructor.
Qed.

Lemma parse_single (x : chars) :
  wf_part x -> Pathlib.parse x = Pathlib.Path [] [x].
Proof.
  intros Hx. unfold Pathlib.parse.
  destruct (split_root_rel x) as (H0 & _).
  { right. now apply wf_part_head. }
  rewrite H0, split_slash_single by apply Hx. cbn.
  destruct Hx as [-> _]. reflexivity.
Qed.

Lemma removelast_wf (ps : list chars) :
  Forall wf_part ps -> Forall wf_part (removelast ps).
Proof.
  induction 1 as [|x ps Hx Hps IH]; cbn; [constructor|].
  destruct ps; [constructor|]. constructor; assumption.
Qed.

Lemma parent_wf (p : Pathlib.path) : wf_path p -> wf_path (Pathlib.parent p).
Proof.
  intros [Hr Hps]. unfold Pathlib.parent.
  destruct (Pathlib.parts p) as [|x ps] eqn:E; [split; [assumption|now rewrite E]|].
  split; [exact Hr|]. cbn [Pathlib.parts]. now apply removelast_wf.
Qed.

Lemma parent_root (p : Pathlib.path) :
  Pathlib.root (Pathlib.parent p) = Pathlib.root p.
Proof. unfold Pathlib.parent. now destruct (Pathlib.parts p). Qed.

Lemma joinpath_preview (p : Pathlib.path) :
  wf_path p ->
  Pathlib.joinpath (Pathlib.parent p) (preview_name p) = preview_of p.
Proof.
  intros H. unfold Pathlib.joinpath.
  rewrite (parse_single _ (preview_name_wf p H)). cbn.
  unfold preview_of. now rewrite parent_root.
Qed.

Lemma preview_of_wf (p : Pathlib.path) : wf_path p -> wf_path (preview_of p).
Proof.
  intros H. split; [apply H|]. cbn.
  apply Forall_app. split; [apply (parent_wf p H)|].
  constructor; [now apply preview_name_wf | constructor].
Qed.

Lemma get_preview_path_parsed (s : string) :
  Pathlib.parse (to_chars (get_preview_path s))
  = preview_of (Pathlib.parse (to_chars s)).
Proof.
  unfold get_preview_path. rewrite to_of_chars.
  change (Pathlib.stem (Pathlib.parse (to_chars s)) ++ to_chars "_preview.jpg")
    with (preview_name (Pathlib.parse (to_chars s))).
  rewrite joinpath_preview by apply parse_wf.
  apply parse_to_chars, preview_of_wf, parse_wf.
Qed.

Lemma preview_of_name (p : Pathlib.path) :
  Pathlib.name (preview_of p) = preview_name p.
Proof. unfold Pathlib.name, preview_of. cbn. apply last_last. Qed.

Lemma preview_of_parent (p : Pathlib.path) :
  Pathlib.parent (preview_of p) = Pathlib.parent p.
Proof.
  unfold preview_of, Pathlib.parent at 1. cbn [Pathlib.parts Pathlib.root].
  destruct (Pathlib.parts (Pathlib.parent p) ++ [preview_name p]) eqn:E.
  { now destruct (Pathlib.parts (Pathlib.parent p)). }
  rewrite <- E, removelast_last.
  destruct p as [r ps]. unfold Pathlib.parent. cbn.
  now destruct ps.
Qed.

(** C6. The preview path is a function of the source path alone; parsed
    as a path, its name is the stem of the source followed by
    [_preview.jpg] and its parent is the parent of the source; and two
    source paths with the same stem in different directories have
    different preview paths. *)
Theorem preview_path_deterministic :
  (forall s1 s2 : string, s1 = s2 -> get_preview_path s1 = get_preview_path s2)
  /\ (forall s : string,
        let src := Pathlib.parse (to_chars s) in
        let out := Pathlib.parse (to_chars (get_preview_path s)) in
        Pathlib.name out = Pathlib.stem src ++ to_chars "_preview.jpg"
        /\ Pathlib.parent out = Pathlib.parent src)
  /\ (forall s1 s2 : string,
        stem_of s1 = stem_of s2 ->
        directory_of s1 <> directory_of s2 ->
        get_preview_path s1 <> get_preview_path s2).
Proof.
  split; [|split].
  - intros s1 s2 ->. reflexivity.
  - intros s src out. subst src out. rewrite get_preview_path_parsed.
    split; [apply preview_of_name | apply preview_of_parent].
  - intros s1 s2 _ Hdir Heq. apply Hdir. unfold directory_of.
    rewrite <- (preview_of_parent (Pathlib.parse (to_chars s1))),
            <- (preview_of_parent (Pathlib.parse (to_chars s2))),
            <- !get_preview_path_parsed.
    now rewrite Heq.
Qed.

Lemma preview_path_deterministic_witness :
  get_preview_path "/shoots/a/IMG_01.CR2" = "/shoots/a/IMG_01_preview.jpg"
  /\ get_preview_path "/shoots/b/IMG_01.NEF" = "/shoots/b/IMG_01_preview.jpg"
  /\ get_preview_path "/shoots/a/IMG_01.CR2"
     <> get_preview_path "/shoots/b/IMG_01.NEF".
Proof.
  split; [reflexivity|]. split; [reflexivity|].
  apply (proj2 (proj2 preview_path_deterministic)
           "/shoots/a/IMG_01.CR2" "/shoots/b/IMG_01.NEF").
  - reflexivity.
  - vm_compute. discriminate.
Defined.

(** ** The unified search *)

Lemma insert_desc_length r l :
  length (PhotoSearch.insert_desc r l) = Datatypes.S (length l).
Proof.
  induction l as [|x l IH]; cbn; [reflexivity|].
  destruct (PhotoSearch.date_desc x r); cbn; [now rewrite IH | reflexivity].
Qed.

Lemma order_by_date_desc_length l :
  length (PhotoSearch.order_by_date_desc l) = length l.
Proof.
  unfold PhotoSearch.order_by_date_desc.
  assert (H : forall acc,
             length (fold_left (fun acc r => PhotoSearch.insert_desc r acc) l acc)
             = (length acc + length l)%nat).
  { induction l as [|x l IH]; intros acc; cbn; [lia|].
    rewrite IH, insert_desc_length. lia. }
  now rewrite H.
Qed.

Lemma sql_limit_length (n : Z) l :
  (0 <= n)%Z -> (Z.of_nat (length (PhotoSearch.sql_limit n l)) <= n)%Z.
Proof.
  intros Hn. unfold PhotoSearch.sql_limit.
  destruct (n <? 0)%Z eqn:E; [apply Z.ltb_lt in E; lia|].
  rewrite length_firstn. lia.
Qed.

(** Each catalog contributes at most [limit] rows. *)
Lemma select_length rows client date camera location (limit : Z) :
  (0 <= limit)%Z ->
  (Z.of_nat (length (PhotoSearch.select_jpg rows client date camera location limit))
   <= limit)%Z
  /\ (Z.of_nat (length (PhotoSearch.select_raw rows client date camera location limit))
      <= limit)%Z.
Proof.
  intros H. unfold PhotoSearch.select_jpg, PhotoSearch.select_raw.
  rewrite !length_map. split; now apply sql_limit_length.
Qed.

(** The rows of the JPG catalog come first, then those of the RAW
    catalog, each list in the order of its own query. *)
Lemma search_all_concat jpg raw client date camera location limit :
  limit_error limit = None ->
  PhotoSearch.search_all_photos (PhotoSearch.Present jpg) (PhotoSearch.Present raw)
    client date camera location limit
  = PhotoSearch.select_jpg jpg client date camera location limit
    ++ PhotoSearch.select_raw raw client date camera location limit.
Proof.
  intros H. unfold PhotoSearch.search_all_photos, PhotoSearch.fetch_from.
  now rewrite H.
Qed.

(** Every row carries the tag of the catalog it comes from. *)
Lemma select_tags rows client date camera location limit :
  Forall (fun r => PhotoSearch.res_type r = "JPG")
         (PhotoSearch.select_jpg rows client date camera location limit)
  /\ Forall (fun r => PhotoSearch.res_type r = "RAW")
            (PhotoSearch.select_raw rows client date camera location limit).
Proof.
  unfold PhotoSearch.select_jpg, PhotoSearch.select_raw.
  split; apply List.Forall_map, List.Forall_forall; reflexivity.
Qed.

(** The fan-out returns at most twice the limit. *)
Lemma search_all_bound jpg_db raw_db client date camera location (limit : Z) :
  (0 <= limit)%Z ->
  (Z.of_nat (length (PhotoSearch.search_all_photos jpg_db raw_db
                       client date camera location limit))
   <= 2 * limit)%Z.
Proof.
  intros H. unfold PhotoSearch.search_all_photos, PhotoSearch.extend_from,
    PhotoSearch.fetch_from.
  destruct jpg_db as [| |jpg], raw_db as [| |raw], (limit_error limit);
    cbn [app length];
    rewrite ?length_app, ?app_nil_r;
    try pose proof (proj1 (select_length jpg client date camera location limit H));
    try pose proof (proj2 (select_length raw client date camera location limit H));
    lia.
Qed.

(** C5. With one matching photo in each catalog and a limit of 1, the
    unified search returns two rows: the limit is applied to each catalog
    and not to the concatenation. The rows are tagged with their catalog
    and the union is not sorted by date. *)
Theorem search_all_exceeds_limit :
  let results :=
    PhotoSearch.search_all_photos jpg_one raw_one None None None false 1 in
  length results = 2%nat
  /\ map PhotoSearch.res_type results = ["JPG"; "RAW"]
  /\ map PhotoSearch.res_date results = [Some "2024-05-01"; Some "2024-05-02"].
Proof. repeat split. Qed.

(* ================================================================== *)
(** * Part III: further properties of the code                         *)
(* ================================================================== *)

(** ** The retrying execute, for any number of retries *)

Lemma range_cons (n : Z) :
  (1 <= n)%Z -> range n = 0%Z :: map Z.of_nat (seq 1 (Z.to_nat n - 1)).
Proof.
  intros H. unfold range.
  destruct (Z.to_nat n) as [|k] eqn:E; [lia|].
  cbn. now rewrite Nat.sub_0_r.
Qed.

Lemma range_snoc (n : Z) :
  (1 <= n)%Z -> exists pre, range n = pre ++ [(n - 1)%Z].
Proof.
  intros H. unfold range.
  destruct (Z.to_nat n) as [|k] eqn:E; [lia|].
  rewrite seq_S, map_app. cbn. exists (map Z.of_nat (seq 0 k)).
  do 2 f_equal. lia.
Qed.

Lemma time_sleep_cases {W} (d : Float.t) (w : W) :
  (exists e, time_sleep d w = (w, [], Raise e))
  \/ time_sleep d w = (w, [EvSleep d], Ret tt).
Proof.
  unfold time_sleep, raise, call.
  repeat match goal with |- context [if ?b then _ else _] => destruct b end;
    eauto.
Qed.

(** The four ways an iteration of the loop can end. *)
Lemma retry_attempt_cases {W} (cur : cursor W) (q : statement)
    (max_retries : Z) (delay : Float.t) (attempt : Z) (w : W) :
  let r := retry_attempt cur q max_retries delay attempt w in
  (exists w1, cur q w = (w1, Ret tt) /\ r = (w1, [EvExecute q], Ret (Some true)))
  \/ (exists w1 e, cur q w = (w1, Raise e) /\ r = (w1, [EvExecute q], Raise e)
                   /\ (locked_exn e -> (max_retries - 1 <= attempt)%Z))
  \/ (exists w1 e e', cur q w = (w1, Raise e) /\ locked_exn e
                      /\ (attempt < max_retries - 1)%Z
                      /\ r = (w1, [EvExecute q], Raise e'))
  \/ (exists w1 e d, cur q w = (w1, Raise e) /\ locked_exn e
                     /\ (attempt < max_retries - 1)%Z
                     /\ d = Float.mul delay (Float.of_int (attempt + 1))
                     /\ r = (w1, [EvExecute q; EvSleep d], Ret None)).
Proof.
  intros r. subst r.
  unfold retry_attempt, try_except, bind, call, ret, raise.
  destruct (cur q w) as [w1 [[]|e]] eqn:Hc; cbn [app]; [left; eauto|right].
  destruct (is_OperationalError e) eqn:Hop.
  2:{ left. exists w1, e. repeat split. intros [H _]. congruence. }
  destruct (str_contains "locked" (exn_str e)) eqn:Hl; cbn [andb].
  2:{ left. exists w1, e. repeat split. intros [_ H]. congruence. }
  destruct (attempt <? max_retries - 1)%Z eqn:Ha.
  2:{ left. exists w1, e. repeat split. intros _. apply Z.ltb_ge in Ha. lia. }
  apply Z.ltb_lt in Ha. right.
  destruct (time_sleep_cases (Float.mul delay (Float.of_int (attempt + 1))) w1)
    as [[e' Hs] | Hs]; rewrite Hs; cbn [app].
  - left. exists w1, e, e'. repeat split; auto.
  - right. exists w1, e, (Float.mul delay (Float.of_int (attempt + 1))).
    repeat split; auto.
Qed.

Lemma retry_loop_last {W} (cur : cursor W) (q : statement)
    (max_retries : Z) (delay : Float.t) (pre : list Z) :
  forall w,
    let r := retry_loop cur q max_retries delay (pre ++ [(max_retries - 1)%Z]) w in
    run_result r <> Ret false
    /\ (length (sleeps_of (run_log r)) < attempts_of (run_log r))%nat.
Proof.
  induction pre as [|a pre IH]; intros w; cbn [app retry_loop].
  - unfold bind.
    destruct (retry_attempt_cases cur q max_retries delay (max_retries - 1) w)
      as [(w1 & _ & ->) | [(w1 & e & _ & -> & _)
         | [(w1 & e & e' & _ & _ & Hlt & _) | (w1 & e & d & _ & _ & Hlt & _)]]];
      try lia; cbn; split; try discriminate; rewrite ?attempts_of_cons; cbn; lia.
  - unfold bind.
    destruct (retry_attempt_cases cur q max_retries delay a w)
      as [(w1 & _ & ->) | [(w1 & e & _ & -> & _)
         | [(w1 & e & e' & _ & _ & _ & ->) | (w1 & e & d & _ & _ & _ & _ & ->)]]];
      try (cbn; split; try discriminate; rewrite ?attempts_of_cons; cbn; lia).
    specialize (IH w1). cbn zeta in IH.
    destruct (retry_loop cur q max_retries delay
                (pre ++ [(max_retries - 1)%Z]) w1) as [[w2 l2] r2].
    unfold run_result, run_log in *. cbn [fst snd] in *.
    destruct IH as [IH1 IH2]. split; [exact IH1|].
    cbn [app sleeps_of flat_map]. rewrite !attempts_of_cons. cbn.
    change (flat_map _ l2) with (sleeps_of l2). lia.
Qed.

(** X1. The call returns [False] exactly when [max_retries] is not
    positive, and then it does not touch the cursor; with a positive
    [max_retries] it makes at least one attempt and at most [max_retries],
    and it sleeps fewer times than it attempts: no sleep follows the last
    attempt. *)
Theorem retry_any_bound {W} (cur : cursor W) (q : statement)
    (max_retries : Z) (delay : Float.t) (w : W) :
  let r := db_execute_with_retry cur q max_retries delay w in
  ((max_retries <= 0)%Z -> r = (w, [], Ret false))
  /\ ((1 <= max_retries)%Z ->
      run_result r <> Ret false
      /\ (1 <= attempts_of (run_log r) <= Z.to_nat max_retries)%nat
      /\ (length (sleeps_of (run_log r)) < attempts_of (run_log r))%nat).
Proof.
  intros r. subst r. unfold db_execute_with_retry. split.
  - intros H. unfold range. replace (Z.to_nat max_retries) with 0%nat by lia.
    reflexivity.
  - intros H. destruct (range_snoc max_retries H) as [pre Hpre].
    pose proof (retry_loop_attempts cur q max_retries delay (range max_retries) w)
      as Hle.
    unfold range in Hle at 2. rewrite length_map, length_seq in Hle.
    rewrite Hpre in *.
    destruct (retry_loop_last cur q max_retries delay pre w) as [Hf Hs].
    repeat split; try assumption. lia.
Qed.

Lemma retry_any_bound_witness :
  db_execute_with_retry Sim.scripted CreateTableIfNotExists 0 Float.half
    script_clears
  = (script_clears, [], Ret false)
  /\ run_result (db_execute_with_retry Sim.scripted CreateTableIfNotExists 2
                   Float.half script_clears) <> Ret false.
Proof.
  split.
  - apply (proj1 (retry_any_bound Sim.scripted CreateTableIfNotExists 0
                    Float.half script_clears)). lia.
  - apply (proj2 (retry_any_bound Sim.scripted CreateTableIfNotExists 2
                    Float.half script_clears)). lia.
Defined.

(** X2. An error that does not report a locked store is not retried: the
    call makes one attempt, does not sleep and raises that error. *)
Theorem retry_other_error {W} (cur : cursor W) (q : statement)
    (max_retries : Z) (delay : Float.t) (w w1 : W) (e : exn) :
  (1 <= max_retries)%Z ->
  cur q w = (w1, Raise e) ->
  ~ locked_exn e ->
  db_execute_with_retry cur q max_retries delay w = (w1, [EvExecute q], Raise e).
Proof.
  intros Hn Hc Hnl. unfold db_execute_with_retry.
  rewrite (range_cons max_retries Hn). cbn [retry_loop]. unfold bind.
  destruct (retry_attempt_cases cur q max_retries delay 0 w)
    as [(w' & Hc' & _) | [(w' & e' & Hc' & -> & _)
       | [(w' & e' & e'' & Hc' & Hl & _) | (w' & e' & d & Hc' & Hl & _)]]];
    rewrite Hc in Hc'; try discriminate; injection Hc' as <- <-;
    [reflexivity | contradiction | contradiction].
Qed.

Lemma retry_other_error_witness :
  db_execute_with_retry Sim.scripted CreateTableIfNotExists 5 Float.half
    [Some (Exn OperationalError "disk I/O error"); None]
  = ([None], [EvExecute CreateTableIfNotExists],
     Raise (Exn OperationalError "disk I/O error")).
Proof.
  apply retry_other_error; [lia | reflexivity |].
  intros [_ H]. vm_compute in H. discriminate H.
Defined.

(** ** The catalog store *)


Lemma execute_cases (q : statement) (db : Sqlite.database) :
  let r := Sqlite.execute q db in
  Sqlite.db_saved r.1 = Sqlite.db_saved db
  /\ match r.2 with
     | Ret _ => Sqlite.apply_statement q (Sqlite.db_live db)
                = Ret (Sqlite.db_live r.1)
     | Raise _ => Sqlite.db_live r.1 = Sqlite.db_live db
     end.
Proof.
  unfold Sqlite.execute, Sqlite.next_fault.
  destruct (Sqlite.db_faults db) as [|[e|] rest]; cbn;
    destruct (Sqlite.apply_statement q (Sqlite.db_live db)); cbn; auto.
Qed.

Lemma time_sleep_world {W} (d : Float.t) (w : W) :
  run_world (time_sleep d w) = w.
Proof.
  destruct (time_sleep_cases d w) as [[e H] | H]; now rewrite H.
Qed.

(** What a retried statement does to the catalog. *)
Lemma retry_loop_sqlite (q : statement) (max_retries : Z) (delay : Float.t)
    (attempts : list Z) (db : Sqlite.database) :
  let r := retry_loop Sqlite.execute q max_retries delay attempts db in
  Sqlite.db_saved (run_world r) = Sqlite.db_saved db
  /\ match run_result r with
     | Ret true => Sqlite.apply_statement q (Sqlite.db_live db)
                   = Ret (Sqlite.db_live (run_world r))
     | _ => Sqlite.db_live (run_world r) = Sqlite.db_live db
     end.
Proof.
  revert db. induction attempts as [|a rest IH]; intros db; cbn [retry_loop].
  - cbn. auto.
  - unfold bind.
    pose proof (execute_cases q db) as [Hs Hl].
    destruct (retry_attempt_cases Sqlite.execute q max_retries delay a db)
      as [(w1 & Hc & ->) | [(w1 & e & Hc & -> & _)
         | [(w1 & e & e' & Hc & _ & _ & ->) | (w1 & e & d & Hc & _ & _ & _ & ->)]]];
      rewrite Hc in Hs, Hl; cbn in Hs, Hl; try (cbn; auto; fail).
    specialize (IH w1). cbn zeta in IH.
    destruct (retry_loop Sqlite.execute q max_retries delay rest w1)
      as [[w2 l2] r2].
    unfold run_world, run_result in *. cbn [fst snd] in *.
    destruct IH as [IH1 IH2]. rewrite Hs in IH1. split; [exact IH1|].
    rewrite Hl in IH2. exact IH2.
Qed.

(** X3. An upsert that does not return [True] leaves the catalog as it
    was: the rows of the open transaction and the committed rows are
    unchanged, whatever the error and however many attempts were made. *)
Theorem upsert_failure_unchanged (r : raw_photo) (db : Sqlite.database) :
  let run := Sqlite.upsert r db in
  run_result run <> Ret true ->
  Sqlite.db_live (run_world run) = Sqlite.db_live db
  /\ Sqlite.db_saved (run_world run) = Sqlite.db_saved db.
Proof.
  intros run H. subst run.
  unfold Sqlite.upsert, db_execute_with_retry_default, db_execute_with_retry in *.
  pose proof (retry_loop_sqlite (InsertOrReplace r) default_max_retries
                default_delay (range default_max_retries) db) as [Hs Hl].
  cbn zeta in Hl.
  destruct (run_result _) as [[|]|e]; [contradiction| |]; auto.
Qed.


Lemma upsert_failure_unchanged_witness :
  Sqlite.db_live (run_world (Sqlite.upsert photo_A stuck_catalog))
  = Sqlite.db_live stuck_catalog
  /\ Sqlite.db_saved (run_world (Sqlite.upsert photo_A stuck_catalog))
     = Sqlite.db_saved stuck_catalog.
Proof.
  apply (upsert_failure_unchanged photo_A stuck_catalog).
  vm_compute. discriminate.
Defined.

(** An upsert that returns [True] has replaced the table of the open
    transaction by the result of the statement on it. *)
Lemma upsert_live (r : raw_photo) (db db' : Sqlite.database) l :
  Sqlite.upsert r db = (db', l, Ret true) ->
  Sqlite.db_live db' = Sqlite.insert_or_replace r (Sqlite.db_live db)
  /\ Sqlite.tbl_exists (Sqlite.db_live db) = true
  /\ Sqlite.db_saved db' = Sqlite.db_saved db.
Proof.
  intros H.
  unfold Sqlite.upsert, db_execute_with_retry_default, db_execute_with_retry in H.
  pose proof (retry_loop_sqlite (InsertOrReplace r) default_max_retries
                default_delay (range default_max_retries) db) as [Hs Hl].
  cbn zeta in Hl. rewrite H in Hs, Hl.
  unfold run_world, run_result in Hs, Hl. cbn [fst snd] in Hs, Hl.
  unfold Sqlite.apply_statement in Hl.
  destruct (Sqlite.bind_all_ok r); cbn [negb] in Hl; [|discriminate].
  destruct (Sqlite.tbl_exists (Sqlite.db_live db)); cbn [negb] in Hl;
    [|discriminate].
  injection Hl as <-. auto.
Qed.

(** X4. An upsert that returns [True] touches the rows of no other file:
    under every other path the catalog holds the rows it held before. *)
Theorem upsert_other_rows (r : raw_photo) (db db' : Sqlite.database) l
    (f : string) :
  Sqlite.upsert r db = (db', l, Ret true) ->
  f <> filepath r ->
  Sqlite.rows_for f db' = Sqlite.rows_for f db.
Proof.
  intros H Hf. apply upsert_live in H. destruct H as (Hl & _ & _).
  unfold Sqlite.rows_for. rewrite Hl. unfold Sqlite.insert_or_replace. cbn.
  rewrite List.filter_app. cbn.
  assert (Hnew : Sqlite.same_file f (StoredRow (Sqlite.tbl_seq (Sqlite.db_live db) + 1) r)
                 = false).
  { unfold Sqlite.same_file. cbn. apply String.eqb_neq. congruence. }
  rewrite Hnew, app_nil_r.
  induction (Sqlite.tbl_rows (Sqlite.db_live db)) as [|row rows IH]; cbn;
    [reflexivity|].
  destruct (Sqlite.same_file (filepath r) row) eqn:E1; cbn.
  - destruct (Sqlite.same_file f row) eqn:E2; [|exact IH].
    unfold Sqlite.same_file in E1, E2.
    apply String.eqb_eq in E1, E2. congruence.
  - destruct (Sqlite.same_file f row); [f_equal|]; exact IH.
Qed.

Lemma upsert_other_rows_witness :
  Sqlite.rows_for "/p/z.NEF" (run_world (Sqlite.upsert photo_A catalog_0))
  = Sqlite.rows_for "/p/z.NEF" catalog_0.
Proof.
  apply (upsert_other_rows photo_A catalog_0
           (run_world (Sqlite.upsert photo_A catalog_0))
           (run_log (Sqlite.upsert photo_A catalog_0)) "/p/z.NEF").
  - reflexivity.
  - discriminate.
Defined.

Lemma in_filter_paths (f : string) (rows : list stored_row) :
  ~ In f (map path_of
            (List.filter (fun row => negb (Sqlite.same_file f row)) rows)).
Proof.
  induction rows as [|row rows IH]; cbn; [tauto|].
  destruct (Sqlite.same_file f row) eqn:E; cbn; [exact IH|].
  intros [H | H]; [|now apply IH].
  unfold Sqlite.same_file in E. apply String.eqb_neq in E.
  unfold path_of in H. congruence.
Qed.

Lemma NoDup_map_filter {A B} (g : A -> B) (p : A -> bool) (l : list A) :
  NoDup (map g l) -> NoDup (map g (List.filter p l)).
Proof.
  induction l as [|x l IH]; cbn; [auto|].
  intros H. apply NoDup_cons in H. destruct H as [Hx Hl].
  destruct (p x); cbn; [|auto].
  apply NoDup_cons. split; [|auto].
  intros Hin. apply Hx. apply list_elem_of_In. apply list_elem_of_In in Hin.
  apply in_map_iff in Hin.
  destruct Hin as (y & <- & Hy). apply List.filter_In in Hy.
  apply in_map. tauto.
Qed.

Lemma insert_or_replace_ok (r : raw_photo) (t : Sqlite.table) :
  table_ok t -> table_ok (Sqlite.insert_or_replace r t).
Proof.
  intros (Hp & Hi & Hs). unfold table_ok, Sqlite.insert_or_replace. cbn.
  set (keep := List.filter (fun row => negb (Sqlite.same_file (filepath r) row))
                           (Sqlite.tbl_rows t)).
  assert (Hk : Forall (fun row => (row_id row <= Sqlite.tbl_seq t)%Z) keep).
  { apply List.Forall_forall. intros row Hin. apply List.filter_In in Hin.
    rewrite List.Forall_forall in Hs. apply Hs. tauto. }
  rewrite !map_app. cbn. repeat split.
  - apply NoDup_app. split; [now apply NoDup_map_filter|].
    split; [|apply NoDup_singleton].
    intros f Hin Hf. apply list_elem_of_In in Hin.
    apply list_elem_of_In in Hf. destruct Hf as [<- | []].
    now apply (in_filter_paths (filepath r) (Sqlite.tbl_rows t)).
  - apply NoDup_app. split; [now apply NoDup_map_filter|].
    split; [|apply NoDup_singleton].
    intros i Hin Hi'. apply list_elem_of_In in Hin.
    apply list_elem_of_In in Hi'. destruct Hi' as [<- | []].
    apply in_map_iff in Hin. destruct Hin as (row & Hid & Hrow).
    rewrite List.Forall_forall in Hk. specialize (Hk row Hrow). lia.
  - apply Forall_app. split.
    + eapply List.Forall_impl; [|exact Hk]. cbn. intros; lia.
    + constructor; [cbn; lia | constructor].
Qed.

Lemma apply_statement_ok (q : statement) (t t' : Sqlite.table) :
  table_ok t -> Sqlite.apply_statement q t = Ret t' -> table_ok t'.
Proof.
  intros Ht. destruct q as [|r]; unfold Sqlite.apply_statement.
  - destruct (Sqlite.tbl_exists t); intros [= <-]; [assumption|].
    repeat split; cbn; constructor.
  - destruct (Sqlite.bind_all_ok r); cbn [negb]; [|discriminate].
    destruct (Sqlite.tbl_exists t); cbn [negb]; [|discriminate].
    intros [= <-]. now apply insert_or_replace_ok.
Qed.

Lemma execute_ok (q : statement) (db : Sqlite.database) :
  database_ok db -> database_ok (Sqlite.execute q db).1.
Proof.
  intros [Hl Hs]. pose proof (execute_cases q db) as [Es El]. cbn zeta in *.
  destruct (Sqlite.execute q db) as [db' [u|e]]; cbn [fst snd] in *.
  - split; [|now rewrite Es]. exact (apply_statement_ok q _ _ Hl El).
  - split; [now rewrite El | now rewrite Es].
Qed.

(** X5. The schema's constraints are kept by every statement the scan
    executes, whether it runs or raises: no two rows share a file path,
    no two rows share an id, and no id exceeds the counter. *)
Theorem execute_keeps_unique (q : statement) (db : Sqlite.database) :
  database_ok db ->
  database_ok (Sqlite.execute q db).1
  /\ forall f, (length (Sqlite.rows_for f (Sqlite.execute q db).1) <= 1)%nat.
Proof.
  intros H. pose proof (execute_ok q db H) as [[Hp _] _].
  split; [now apply execute_ok|]. intros f. unfold Sqlite.rows_for.
  revert Hp. generalize (Sqlite.tbl_rows (Sqlite.db_live (Sqlite.execute q db).1)).
  intros rows. induction rows as [|row rows IH]; cbn; [lia|].
  intros Hnd. apply NoDup_cons in Hnd. destruct Hnd as [Hrow Hnd].
  specialize (IH Hnd). rewrite list_elem_of_In in Hrow.
  destruct (Sqlite.same_file f row) eqn:E; [|exact IH]. cbn.
  destruct (List.filter (Sqlite.same_file f) rows) as [|row' rest] eqn:Ef;
    [cbn; lia|].
  exfalso. apply Hrow.
  assert (Hin : In row' (List.filter (Sqlite.same_file f) rows))
    by (rewrite Ef; now left).
  apply List.filter_In in Hin. destruct Hin as [Hin Hsame].
  unfold Sqlite.same_file in E, Hsame. apply String.eqb_eq in E, Hsame.
  apply in_map_iff. exists row'. unfold path_of. split; [congruence|assumption].
Qed.

Lemma execute_keeps_unique_witness :
  database_ok (Sqlite.execute (InsertOrReplace photo_A) idle_catalog).1
  /\ forall f,
       (length (Sqlite.rows_for f
                  (Sqlite.execute (InsertOrReplace photo_A) idle_catalog).1)
        <= 1)%nat.
Proof.
  apply (execute_keeps_unique (InsertOrReplace photo_A) idle_catalog).
  repeat split; cbn; constructor.
Defined.

(** ** The candidate files of a scan *)


Lemma collect_files_unlimited root files limit acc :
  (forall l, limit_reached limit l = false) ->
  collect_files root files limit acc = acc ++ raw_files_of root files.
Proof.
  intros H. unfold raw_files_of.
  revert acc. induction files as [|file files IH]; intros acc; cbn.
  - now rewrite app_nil_r.
  - destruct (is_raw_file file); cbn; [|apply IH].
    rewrite H, IH, <- List.app_assoc. reflexivity.
Qed.

Lemma collect_dirs_unlimited walk limit acc :
  (forall l, limit_reached limit l = false) ->
  collect_dirs walk limit acc = acc ++ all_raw_files walk.
Proof.
  intros H. unfold all_raw_files.
  revert acc. induction walk as [|[[root dirs] files] walk IH]; intros acc; cbn.
  - now rewrite app_nil_r.
  - rewrite H, IH, collect_files_unlimited by assumption.
    now rewrite <- List.app_assoc.
Qed.

Lemma limit_reached_pos (n : Z) (l : list string) :
  (0 < n)%Z ->
  limit_reached (Some n) l = true <-> (Z.to_nat n <= length l)%nat.
Proof.
  intros Hn. unfold limit_reached.
  destruct (n =? 0)%Z eqn:E; [apply Z.eqb_eq in E; lia|]. cbn.
  rewrite Z.leb_le. lia.
Qed.

Lemma collect_files_pos root files (n : Z) acc :
  (0 < n)%Z -> (length acc < Z.to_nat n)%nat ->
  collect_files root files (Some n) acc
  = firstn (Z.to_nat n) (acc ++ raw_files_of root files).
Proof.
  intros Hn. unfold raw_files_of.
  revert acc. induction files as [|file files IH]; intros acc Hacc;
    cbn [collect_files List.filter map].
  - rewrite app_nil_r, List.firstn_all2; [reflexivity | lia].
  - destruct (is_raw_file file); cbn [map]; [|now apply IH].
    set (p := Pathlib.os_path_join root file).
    set (rest := map (Pathlib.os_path_join root) (List.filter is_raw_file files)).
    change (acc ++ p :: rest) with (acc ++ [p] ++ rest).
    rewrite List.app_assoc.
    assert (Hlen : length (acc ++ [p]) = Datatypes.S (length acc))
      by (rewrite length_app; cbn; lia).
    destruct (limit_reached (Some n) (acc ++ [p])) eqn:E.
    + apply (limit_reached_pos n _ Hn) in E.
      rewrite List.firstn_app.
      replace (Z.to_nat n - length (acc ++ [p]))%nat with 0%nat by lia.
      rewrite List.firstn_all2 by lia.
      cbn [firstn]. now rewrite app_nil_r.
    + assert (Hlt : (length (acc ++ [p]) < Z.to_nat n)%nat).
      { destruct (Nat.le_gt_cases (Z.to_nat n) (length (acc ++ [p])))
          as [Hle|Hgt]; [|exact Hgt].
        apply (limit_reached_pos n _ Hn) in Hle. congruence. }
      now rewrite IH by exact Hlt.
Qed.

Lemma collect_dirs_pos walk (n : Z) acc :
  (0 < n)%Z -> (length acc < Z.to_nat n)%nat ->
  collect_dirs walk (Some n) acc
  = firstn (Z.to_nat n) (acc ++ all_raw_files walk).
Proof.
  intros Hn. unfold all_raw_files.
  revert acc. induction walk as [|[[root dirs] files] walk IH]; intros acc Hacc;
    cbn [collect_dirs flat_map fst snd].
  - rewrite app_nil_r, List.firstn_all2; [reflexivity | lia].
  - rewrite (collect_files_pos root files n acc Hn Hacc).
    set (here := acc ++ raw_files_of root files).
    rewrite List.app_assoc. fold here.
    destruct (limit_reached (Some n) (firstn (Z.to_nat n) here)) eqn:E.
    + apply (limit_reached_pos n _ Hn) in E. rewrite length_firstn in E.
      rewrite List.firstn_app.
      replace (Z.to_nat n - length here)%nat with 0%nat by lia.
      cbn. now rewrite app_nil_r.
    + assert (Hlt : (length (firstn (Z.to_nat n) here) < Z.to_nat n)%nat).
      { destruct (Nat.le_gt_cases (Z.to_nat n)
                    (length (firstn (Z.to_nat n) here))) as [Hle|Hgt];
          [|exact Hgt].
        apply (limit_reached_pos n _ Hn) in Hle. congruence. }
      rewrite length_firstn in Hlt.
      rewrite (List.firstn_all2 here) by lia.
      apply IH. lia.
Qed.

(** X6. Without a limit, and also with a limit of 0, the candidates are
    all the files of the walk whose suffix, in lower case, is a RAW
    extension, each joined with its directory, in walk order. With a
    positive limit [n] they are the first [n] of these. *)
Theorem candidates_limit (S : System) (directory : string) (w : world S) :
  candidates S directory None w = all_raw_files (os_walk S directory w)
  /\ candidates S directory (Some 0%Z) w = all_raw_files (os_walk S directory w)
  /\ (forall n, (0 < n)%Z ->
        candidates S directory (Some n) w
        = firstn (Z.to_nat n) (all_raw_files (os_walk S directory w))).
Proof.
  unfold candidates. split; [|split].
  - now rewrite collect_dirs_unlimited.
  - now rewrite collect_dirs_unlimited.
  - intros n Hn. rewrite collect_dirs_pos; [reflexivity | assumption | cbn; lia].
Qed.

Lemma candidates_limit_witness :
  candidates Sim.system "/p" (Some 2%Z) (Sim.Fs ∅ walk_3)
  = ["/p/a/1.CR2"; "/p/a/2.nef"].
Proof.
  rewrite (proj2 (proj2 (candidates_limit Sim.system "/p" (Sim.Fs ∅ walk_3)))
             2%Z) by lia.
  reflexivity.
Defined.

(** X7. With a negative limit the enumeration stops after the first
    directory of the walk, and after the first RAW file in it: the
    candidates are at most one file, and none when the first directory
    holds no RAW file, whatever the other directories hold. *)
Theorem candidates_negative_limit (S : System) (directory : string)
    (w : world S) (n : Z) :
  (n < 0)%Z ->
  candidates S directory (Some n) w
  = match os_walk S directory w with
    | [] => []
    | (root, _, files) :: _ => firstn 1 (raw_files_of root files)
    end.
Proof.
  intros Hn. unfold candidates.
  assert (Hr : forall l, limit_reached (Some n) l = true).
  { intros l. unfold limit_reached.
    destruct (n =? 0)%Z eqn:E; [apply Z.eqb_eq in E; lia|]. cbn.
    apply Z.leb_le. lia. }
  destruct (os_walk S directory w) as [|[[root dirs] files] walk];
    [reflexivity|].
  cbn [collect_dirs]. rewrite Hr. unfold raw_files_of.
  induction files as [|file files IH]; cbn [collect_files List.filter map];
    [reflexivity|].
  destruct (is_raw_file file); [now rewrite Hr | exact IH].
Qed.

Lemma candidates_negative_limit_witness :
  candidates Sim.system "/p" (Some (-1)%Z) (Sim.Fs ∅ walk_3) = [].
Proof.
  rewrite (candidates_negative_limit Sim.system "/p" (Sim.Fs ∅ walk_3) (-1))
    by lia.
  reflexivity.
Defined.

(** ** More on preview paths *)

Lemma rsplit_dot_preview (l : chars) :
  Pathlib.rsplit_dot (l ++ to_chars "_preview.jpg")
  = Some (l ++ to_chars "_preview", to_chars ".jpg").
Proof.
  induction l as [|c l IH]; [reflexivity|].
  cbn [app Pathlib.rsplit_dot]. now rewrite IH.
Qed.

Lemma split_suffix_preview (l : chars) :
  Pathlib.split_suffix (l ++ to_chars "_preview.jpg")
  = (l ++ to_chars "_preview", to_chars ".jpg").
Proof.
  unfold Pathlib.split_suffix. rewrite rsplit_dot_preview.
  destruct l; reflexivity.
Qed.

Lemma get_preview_path_name (s : string) :
  Pathlib.name (Pathlib.parse (to_chars (get_preview_path s)))
  = preview_name (Pathlib.parse (to_chars s)).
Proof. rewrite get_preview_path_parsed. apply preview_of_name. Qed.

(** X8. A preview is never taken for a RAW file: the file name of every
    preview path has the suffix [.jpg], which is not a RAW extension, so a
    later scan of the same directory does not list the previews among its
    candidates. *)
Theorem preview_is_not_raw (s : string) :
  let file :=
    of_chars (Pathlib.name (Pathlib.parse (to_chars (get_preview_path s)))) in
  Pathlib.suffix (Pathlib.parse (to_chars file)) = to_chars ".jpg"
  /\ is_raw_file file = false.
Proof.
  intros file. subst file. rewrite get_preview_path_name.
  set (p := Pathlib.parse (to_chars s)).
  assert (Hs : Pathlib.suffix (Pathlib.parse (to_chars (of_chars (preview_name p))))
               = to_chars ".jpg").
  { rewrite to_of_chars, (parse_single _ (preview_name_wf p (parse_wf _))).
    unfold Pathlib.suffix, Pathlib.name, preview_name. cbn [Pathlib.parts List.last].
    now rewrite split_suffix_preview. }
  split; [exact Hs|]. unfold is_raw_file. rewrite Hs. reflexivity.
Qed.

(** X9. The preview path depends on the source path only through its
    normal form: spellings that [pathlib] reads as the same path (doubled
    or trailing slashes, [.] components) have the same preview path. *)
Theorem preview_path_of_normal_form (s : string) :
  get_preview_path (of_chars (Pathlib.to_chars (Pathlib.parse (to_chars s))))
  = get_preview_path s
  /\ forall s', Pathlib.parse (to_chars s') = Pathlib.parse (to_chars s) ->
                get_preview_path s' = get_preview_path s.
Proof.
  split.
  - unfold get_preview_path. rewrite to_of_chars.
    now rewrite (parse_to_chars _ (parse_wf (to_chars s))).
  - intros s' H. unfold get_preview_path. now rewrite H.
Qed.

Lemma preview_path_of_normal_form_witness :
  get_preview_path "/shoots//a/./IMG_01.CR2/"
  = get_preview_path "/shoots/a/IMG_01.CR2".
Proof.
  apply (proj2 (preview_path_of_normal_form "/shoots/a/IMG_01.CR2")
           "/shoots//a/./IMG_01.CR2/").
  reflexivity.
Defined.


Lemma drop_while_all {A} (p : A -> bool) (l : list A) :
  Forall (fun x => p x = true) l -> drop_while p l = [].
Proof. induction 1 as [|x l Hx _ IH]; cbn; [reflexivity|]. now rewrite Hx. Qed.

Lemma dirname_no_slash (x : chars) :
  no_slash x -> Pathlib.os_path_dirname (of_chars x) = "".
Proof.
  intros H. unfold Pathlib.os_path_dirname.
  change (list_ascii_of_string (of_chars x)) with (to_chars (of_chars x)).
  rewrite to_of_chars, drop_while_all; [reflexivity|].
  apply List.Forall_rev. eapply List.Forall_impl; [|exact H].
  cbn. intros c Hc. now rewrite Hc.
Qed.

Lemma dot_is_empty_path (q : Pathlib.path) :
  wf_path q -> Pathlib.to_chars q = to_chars "." -> q = Pathlib.Path [] [].
Proof.
  intros Hq H. rewrite <- (parse_to_chars q Hq), H. reflexivity.
Qed.

Lemma preview_in_cwd (s : string) :
  directory_of s = "." ->
  get_preview_path s = of_chars (preview_name (Pathlib.parse (to_chars s))).
Proof.
  intros H. unfold directory_of in H.
  change "."%string with (of_chars (to_chars ".")) in H.
  apply of_chars_inj in H.
  set (p := Pathlib.parse (to_chars s)) in *.
  pose proof (parse_wf (to_chars s)) as Hp. fold p in Hp.
  apply (dot_is_empty_path _ (parent_wf p Hp)) in H.
  unfold get_preview_path. fold p.
  change (Pathlib.stem p ++ to_chars "_preview.jpg") with (preview_name p).
  rewrite (joinpath_preview p Hp). unfold preview_of.
  rewrite <- (parent_root p), H. cbn.
  destruct (preview_name_wf p Hp) as [Hk _].
  destruct (preview_name p); [discriminate|reflexivity].
Qed.

(** X10. For a RAW file given without a directory (as a scan of [.]
    gives its top-level files), the preview path has no directory either,
    so the conversion asks [os.makedirs] to create the empty path; when
    that is refused, as the real [os.makedirs] does, the conversion
    reports a failure and never saves a preview. *)
Theorem convert_in_cwd_fails (S : System) (raw_path : string)
    (max_size quality : Z) (w : world S) :
  makedirs_rejects_empty S ->
  directory_of raw_path = "." ->
  let preview_path := get_preview_path raw_path in
  let r := convert_raw_to_preview S raw_path preview_path max_size quality w in
  Pathlib.os_path_dirname preview_path = ""
  /\ (exists e, run_result r = Ret (false, VStr (exn_str e)))
  /\ forall a, ~ In (EvSave preview_path a) (run_log r).
Proof.
  intros Hmk Hdir preview_path r. subst r.
  assert (Hd : Pathlib.os_path_dirname preview_path = "").
  { subst preview_path. rewrite (preview_in_cwd raw_path Hdir).
    apply dirname_no_slash, preview_name_wf, parse_wf. }
  split; [exact Hd|].
  unfold convert_raw_to_preview. rewrite Hd. run_convert.
  all: try match goal with
       | H : os_makedirs _ _ _ ?w0 = (_, Ret _) |- _ =>
           let He := fresh "He" in
           destruct (Hmk true w0) as (? & ? & He); rewrite He in H;
           discriminate H
       end.
  all: split; [eexists; reflexivity|].
  all: intros args Hin; cbn in Hin;
    repeat (destruct Hin as [Hin|Hin]; [discriminate Hin|]); exact Hin.
Qed.

Lemma convert_in_cwd_fails_witness :
  let r := convert_raw_to_preview Sim.system "./a.CR2"
             (get_preview_path "./a.CR2") PREVIEW_SIZE PREVIEW_QUALITY
             raw_in_cwd in
  get_preview_path "./a.CR2" = "a_preview.jpg"
  /\ exists e, run_result r = Ret (false, VStr (exn_str e)).
Proof.
  intros r. split; [reflexivity|].
  refine (proj1 (proj2 (convert_in_cwd_fails Sim.system "./a.CR2"
                          PREVIEW_SIZE PREVIEW_QUALITY raw_in_cwd _ _))).
  - intros ok w. exists w. eexists. reflexivity.
  - reflexivity.
Defined.

(** ** More on the metadata extraction *)


Section ExifInvariant.
Context (S : System) (J : dict -> Prop) (P : event -> Prop) (path : string).
Context (HJ : forall k v d, In k written_keys -> J d -> J (<[k := v]> d)).
Context (Himread : P (EvImread path)) (Hclose : P EvClose).

#[local] Abbreviation JI := (fun wd : world S * dict => J wd.2).

Lemma setitem_inv (k : string) (v : pyval) :
  In k written_keys -> sat JI P any_outcome (setitem k v).
Proof.
  intros Hk [w d] Hd. cbn in *.
  split; [now apply HJ|]. split; [constructor | exact Logic.I].
Qed.

Lemma fill_metadata_inv (md : raw_metadata) :
  sat JI P any_outcome (fill_metadata S md).
Proof.
  unfold fill_metadata.
  repeat first
    [ apply setitem_inv; cbn; tauto
    | progress logs_auto ].
Qed.

Lemma extract_exif_body_inv :
  sat JI P any_outcome (extract_exif_body S path).
Proof.
  unfold extract_exif_body.
  apply logs_try_except; [|intros e; logs_auto].
  apply logs_bind; [ | intros raw | trivial_post].
  - apply (sat_lift_fst J).
    apply logs_call; [exact Himread | trivial_post].
  - apply logs_try_finally.
    + apply sat_when_some; [trivial_post | intros md _].
      apply fill_metadata_inv.
    + apply (sat_lift_fst J).
      apply logs_call; [exact Hclose | trivial_post].
Qed.

Lemma extract_exif_inv :
  J empty_metadata ->
  sat any_world P (fun r => exists d, r = Ret d /\ J d)
      (extract_exif_from_raw S path).
Proof.
  intros H0 w _. unfold extract_exif_from_raw.
  destruct (extract_exif_body_inv (w, empty_metadata) H0) as (Hi & Hl & _).
  destruct (extract_exif_body S path (w, empty_metadata)) as [[[w' d] l] r].
  cbn in *. repeat split; eauto.
Qed.

End ExifInvariant.

Lemma written_key_present (k : string) :
  In k written_keys -> k ∈ dom empty_metadata.
Proof.
  intros H. apply elem_of_dom. cbn in H.
  repeat (destruct H as [<- | H]; [eexists; reflexivity|]). contradiction.
Qed.

(** X11. The extraction always returns, and always a dictionary with
    exactly its ten keys; so every [metadata[...]] that builds the
    parameters of the upsert finds its key, and building them never
    raises. *)
Theorem extract_exif_keys (S : System) (raw_path : string) (w : world S) :
  exists d,
    run_result (extract_exif_from_raw S raw_path w) = Ret d
    /\ dom d = dom empty_metadata
    /\ forall preview_path client_name date mb kb w',
         exists row,
           run_result (upsert_params S raw_path preview_path client_name date
                         d mb kb w') = Ret row.
Proof.
  destruct (extract_exif_inv S (fun d => dom d = dom empty_metadata)
              (fun _ => True) raw_path) with (w := w)
    as (_ & _ & d & Hr & Hd); try exact Logic.I; try reflexivity.
  { intros k v d Hk Hd. rewrite dom_insert_L, Hd.
    apply written_key_present in Hk.
    apply subseteq_union_1_L, singleton_subseteq_l, Hk. }
  exists d. split; [exact Hr|]. split; [exact Hd|].
  intros preview_path client_name date mb kb w'.
  assert (Hk : forall k, k ∈ dom empty_metadata -> exists v, d !! k = Some v).
  { intros k Hin. rewrite <- Hd in Hin. apply elem_of_dom in Hin.
    destruct Hin as [v Hv]. eauto. }
  unfold upsert_params, bind, of_outcome, getitem, ret, raise, run_result.
  repeat match goal with
         | |- context [d !! ?k] =>
             let v := fresh "v" in let E := fresh "E" in
             destruct (Hk k) as [v E];
             [apply elem_of_dom; eexists; reflexivity | rewrite E; clear E]
         end.
  cbn. eauto.
Qed.

(** X12. When the decoder cannot open the file, or opens it and offers
    no metadata, every one of the ten values is [None]. *)
Theorem extract_exif_nothing (S : System) (raw_path : string) (w : world S) :
  (forall w' e, rawpy_imread S raw_path w = (w', Raise e) ->
     extract_exif_from_raw S raw_path w
     = (w', [EvImread raw_path], Ret empty_metadata))
  /\ (forall w' raw, rawpy_imread S raw_path w = (w', Ret raw) ->
        raw_metadata_of S raw = None ->
        run_result (extract_exif_from_raw S raw_path w) = Ret empty_metadata).
Proof.
  split.
  - intros w' e H.
    unfold extract_exif_from_raw, extract_exif_body, try_except, bind,
      lift_fst, call, ret. cbn. now rewrite H.
  - intros w' raw H Hmd.
    unfold extract_exif_from_raw, extract_exif_body, try_except, try_finally,
      bind, lift_fst, call, ret, when_some, run_result. cbn.
    rewrite H, Hmd. cbn.
    destruct (raw_close S raw w') as [w2 [u|e]]; reflexivity.
Qed.

Lemma extract_exif_nothing_witness :
  extract_exif_from_raw Sim.system "/p/missing.CR2" one_raw_file
  = (one_raw_file, [EvImread "/p/missing.CR2"], Ret empty_metadata)
  /\ run_result (extract_exif_from_raw Sim.system "/p/a.CR2" one_raw_file)
     = Ret empty_metadata.
Proof.
  destruct (extract_exif_nothing Sim.system "/p/missing.CR2" one_raw_file)
    as [H1 _].
  destruct (extract_exif_nothing Sim.system "/p/a.CR2" one_raw_file)
    as [_ H2].
  split.
  - exact (H1 one_raw_file _ eq_refl).
  - exact (H2 one_raw_file 6400%Z eq_refl eq_refl).
Defined.

(** X13. The extraction stops at the first attribute whose formatting
    raises. When the shutter duration cannot be formatted (it is zero or
    NaN, or its reciprocal overflows), the make, model, ISO and aperture
    read before it are kept, and the shutter speed, the focal length and
    the timestamp stay [None], although the decoder reports them. *)
Theorem extract_exif_stops_at_shutter (S : System) (raw_path : string)
    (w w' : world S) (raw : raw_image S) (md : raw_metadata)
    (ss : Float.t) (e : exn) :
  rawpy_imread S raw_path w = (w', Ret raw) ->
  raw_metadata_of S raw = Some md ->
  md_shutter md = Some ss ->
  format_shutter ss = Raise e ->
  exists d,
    run_result (extract_exif_from_raw S raw_path w) = Ret d
    /\ d !! "camera_make" = Some (of_opt_str (md_make md))
    /\ d !! "camera_model" = Some (of_opt_str (md_model md))
    /\ d !! "iso" = Some (of_opt_int (md_iso_speed md))
    /\ d !! "aperture"
       = Some (match md_aperture md with
               | Some a => VStr (format_aperture a)
               | None => VNone
               end)
    /\ d !! "shutter_speed" = Some VNone
    /\ d !! "focal_length" = Some VNone
    /\ d !! "datetime" = Some VNone.
Proof.
  intros Hopen Hmd Hss Hfmt.
  cbv [extract_exif_from_raw extract_exif_body try_except try_finally bind
       lift_fst call ret raise when_some fill_metadata setitem of_outcome
       run_result fst snd].
  rewrite Hopen, Hmd, Hss, Hfmt.
  destruct (md_aperture md) as [a|];
    destruct (raw_close S raw w') as [w2 [u|e2]];
    eexists; (split; [reflexivity|]); repeat split;
    repeat first [ rewrite lookup_insert_eq; reflexivity
                 | rewrite lookup_insert_ne by discriminate ];
    reflexivity.
Qed.

Lemma extract_exif_stops_at_shutter_witness :
  exists d,
    run_result (extract_exif_from_raw (system_with zero_shutter) "/p/a.CR2"
                  one_raw_file) = Ret d
    /\ d !! "camera_model" = Some (VStr "EOS R5")
    /\ d !! "aperture" = Some (VStr "f/3.5")
    /\ d !! "focal_length" = Some VNone.
Proof.
  destruct (extract_exif_stops_at_shutter (system_with zero_shutter) "/p/a.CR2"
              one_raw_file one_raw_file 6400%Z zero_shutter (Float.of_int 0)
              (Exn ZeroDivisionError "float division by zero")
              eq_refl eq_refl eq_refl eq_refl)
    as (d & Hr & _ & Hmodel & _ & Hap & _ & Hfl & _).
  exists d. repeat split; assumption.
Defined.

(** ** More on the path parser *)


Lemma drop_while_head {A} (p : A -> bool) (l : list A) c t :
  drop_while p l = c :: t -> p c = false.
Proof.
  induction l as [|x l IH]; cbn; [discriminate|].
  destruct (p x) eqn:E; [exact IH|]. now intros [= <- _].
Qed.

Lemma drop_while_suffix {A} (p : A -> bool) (l : list A) :
  exists pre, l = pre ++ drop_while p l.
Proof.
  induction l as [|x l [pre IH]]; cbn; [now exists []|].
  destruct (p x); [|now exists []].
  exists (x :: pre). cbn. now f_equal.
Qed.

Lemma strip_no_edge (l : chars) : no_edge_space (strip_chars l).
Proof.
  unfold strip_chars, no_edge_space.
  set (x := drop_while Chars.is_space l).
  set (m := drop_while Chars.is_space (rev x)).
  split; intros c t H.
  - assert (Hm : m = rev t ++ [c]).
    { rewrite <- (rev_involutive m), H. reflexivity. }
    destruct (drop_while_suffix Chars.is_space (rev x)) as [pre Hpre].
    fold m in Hpre. rewrite Hm in Hpre.
    assert (Hx : x = c :: rev (pre ++ rev t)).
    { rewrite <- (rev_involutive x), Hpre, List.app_assoc, rev_app_distr.
      reflexivity. }
    exact (drop_while_head _ _ _ _ Hx).
  - assert (Hm : m = c :: rev t).
    { rewrite <- (rev_involutive m), H, rev_app_distr. reflexivity. }
    exact (drop_while_head _ _ _ _ Hm).
Qed.

Lemma strip_within (l : chars) :
  exists pre post, l = pre ++ strip_chars l ++ post.
Proof.
  unfold strip_chars.
  destruct (drop_while_suffix Chars.is_space l) as [pre Hpre].
  set (x := drop_while Chars.is_space l) in *.
  destruct (drop_while_suffix Chars.is_space (rev x)) as [post Hpost].
  exists pre, (rev post). rewrite Hpre at 1. f_equal.
  rewrite <- (rev_involutive x) at 1. rewrite Hpost at 1.
  now rewrite rev_app_distr.
Qed.

Lemma take_while_all {A} (p : A -> bool) (l : list A) :
  Forall (fun x => p x = true) (take_while p l).
Proof.
  induction l as [|x l IH]; cbn; [constructor|].
  destruct (p x) eqn:E; constructor; assumption.
Qed.

Lemma spaces_then_name_run (k : nat) (r g : chars) :
  Parse.spaces_then_name k r = Some g ->
  Forall (fun c => Parse.not_sep c = true) g.
Proof.
  induction k as [|k IH]; cbn [Parse.spaces_then_name]; [discriminate|].
  unfold Parse.name_run.
  destruct (take_while Parse.not_sep (skipn (Datatypes.S k) r)) as [|c g'] eqn:E;
    [exact IH|].
  intros [= <-]. rewrite <- E. apply take_while_all.
Qed.

Lemma date_shaped_frame (d : chars) :
  date_shaped d = true ->
  length d = 10%nat /\ d !! 4%nat = Some "-"%char /\ d !! 7%nat = Some "-"%char.
Proof.
  unfold date_shaped.
  do 10 (destruct d as [|? d]; [discriminate|]).
  destruct d; [|discriminate]. intros H.
  apply andb_prop in H. destruct H as [H H2].
  apply andb_prop in H. destruct H as [_ H1].
  apply Ascii.eqb_eq in H1, H2. subst. repeat split.
Qed.

(** X14. Whenever the parser returns a date, the date is ten characters
    long with a hyphen in the fifth and in the eighth place, and it
    occurs in the path as it is returned; a client name never comes
    without a date; and a client name contains no path separator and
    neither starts nor ends with whitespace (it may be empty). *)
Theorem parse_client_info_shape (path : string) :
  match Parse.parse_client_info path with
  | (client, Some d) =>
      (length (to_chars d) = 10%nat
       /\ to_chars d !! 4%nat = Some "-"%char
       /\ to_chars d !! 7%nat = Some "-"%char)
      /\ (exists pre post, to_chars path = pre ++ to_chars d ++ post)
      /\ match client with
         | Some c =>
             Forall (fun x => Parse.not_sep x = true) (to_chars c)
             /\ no_edge_space (to_chars c)
         | None => True
         end
  | (Some _, None) => False
  | (None, None) => True
  end.
Proof.
  unfold Parse.parse_client_info.
  destruct (Parse.search Parse.pattern1_at (to_chars path)) as [[d g]|] eqn:E1.
  - apply search_some in E1. destruct E1 as (pre & post & Hpath & H).
    unfold Parse.pattern1_at in H.
    destruct (Parse.date_token post) as [[d' r]|] eqn:Ed; [|discriminate].
    destruct (Parse.spaces_then_name _ r) as [g'|] eqn:Eg; [|discriminate].
    injection H as <- <-. rewrite !to_of_chars.
    apply date_token_shaped in Ed. destruct Ed as [Hshape ->].
    split; [exact (date_shaped_frame _ Hshape)|]. split; [now exists pre, r|].
    split; [|apply strip_no_edge].
    apply spaces_then_name_run in Eg.
    destruct (strip_within g') as (a & b & Hg). rewrite Hg in Eg.
    apply Forall_app in Eg. destruct Eg as [_ Eg].
    apply Forall_app in Eg. now destruct Eg.
  - destruct (Parse.search Parse.pattern2_at (to_chars path)) as [d|] eqn:E2;
      [|exact Logic.I].
    apply search_some in E2. destruct E2 as (pre & post & Hpath & H).
    unfold Parse.pattern2_at in H.
    destruct (Parse.date_token post) as [[d' r]|] eqn:Ed; [|discriminate].
    destruct r as [|c r]; [discriminate|].
    destruct (Parse.is_sep c); [|discriminate].
    injection H as <-. rewrite to_of_chars.
    apply date_token_shaped in Ed. destruct Ed as [Hshape ->].
    split; [exact (date_shaped_frame _ Hshape)|].
    split; [now exists pre, (c :: r)|exact Logic.I].
Qed.

(** ** Ordering by date *)


Lemma chars_leb_total (a b : chars) :
  PhotoSearch.chars_leb a b = false -> PhotoSearch.chars_leb b a = true.
Proof.
  revert b. induction a as [|x a IH]; intros [|y b];
    cbn [PhotoSearch.chars_leb]; try discriminate; [reflexivity|].
  set (cx := Chars.code x). set (cy := Chars.code y).
  destruct (cx <? cy)%nat eqn:E1; [discriminate|].
  destruct (cx =? cy)%nat eqn:E2; cbn [orb andb].
  - intros H. apply Nat.eqb_eq in E2. rewrite <- E2, Nat.eqb_refl, (IH b H).
    apply orb_true_r.
  - intros _. apply Nat.ltb_ge in E1. apply Nat.eqb_neq in E2.
    assert (Hlt : (cy <? cx)%nat = true) by (apply Nat.ltb_lt; lia).
    now rewrite Hlt.
Qed.

Lemma date_order_total (a b : option string) :
  date_order a b = false -> date_order b a = true.
Proof.
  destruct a as [x|], b as [y|]; cbn; try discriminate; try reflexivity.
  apply chars_leb_total.
Qed.

Section SortBy.
Context {A : Type} (key : A -> option string).

Lemma insert_by_perm (r : A) (l : list A) :
  Permutation (insert_by key r l) (r :: l).
Proof.
  induction l as [|x l IH]; cbn; [reflexivity|].
  destruct (date_order (key x) (key r)); [|reflexivity].
  rewrite IH. apply perm_swap.
Qed.

Lemma sort_by_perm (l : list A) : Permutation (sort_by key l) l.
Proof.
  unfold sort_by.
  assert (H : forall acc,
             Permutation (fold_left (fun acc r => insert_by key r acc) l acc)
                         (acc ++ l)).
  { induction l as [|x l IH]; intros acc; cbn.
    - now rewrite app_nil_r.
    - rewrite IH, insert_by_perm.
      change (x :: acc) with ([x] ++ acc).
      change (x :: l) with ([x] ++ l).
      rewrite (Permutation_app_comm [x] acc), <- !List.app_assoc.
      reflexivity. }
  apply (H []).
Qed.

Lemma insert_by_sorted (r : A) (l : list A) :
  descending key l -> descending key (insert_by key r l).
Proof.
  unfold descending.
  induction l as [|x l IH]; cbn; intros Hs.
  - repeat constructor.
  - destruct (date_order (key x) (key r)) eqn:E.
    + apply Sorted_inv in Hs. destruct Hs as [Hs Hx].
      constructor; [now apply IH|].
      destruct l as [|y l]; cbn.
      * constructor. exact E.
      * destruct (date_order (key y) (key r)); constructor;
          [now inversion Hx | exact E].
    + constructor; [exact Hs|]. constructor. now apply date_order_total.
Qed.

Lemma sort_by_sorted (l : list A) : descending key (sort_by key l).
Proof.
  unfold sort_by.
  assert (H : forall acc, descending key acc ->
             descending key (fold_left (fun acc r => insert_by key r acc) l acc)).
  { induction l as [|x l IH]; intros acc Hacc; cbn; [exact Hacc|].
    apply IH, insert_by_sorted, Hacc. }
  apply H. constructor.
Qed.

Lemma descending_firstn (n : nat) (l : list A) :
  descending key l -> descending key (firstn n l).
Proof.
  unfold descending. revert l. induction n as [|n IH]; intros l Hs; cbn;
    [constructor|].
  destruct l as [|x l]; [constructor|].
  apply Sorted_inv in Hs. destruct Hs as [Hs Hx].
  constructor; [now apply IH|].
  destruct l as [|y l]; [destruct n; constructor|].
  destruct n; cbn; constructor. now inversion Hx.
Qed.

End SortBy.

Lemma descending_map {A B} (f : A -> B) (kb : B -> option string) (l : list A) :
  descending (fun a => kb (f a)) l -> descending kb (map f l).
Proof.
  unfold descending. induction 1 as [|x l Hs IH Hx]; cbn; constructor;
    [exact IH|].
  destruct Hx; cbn; constructor. assumption.
Qed.

Lemma photo_insert_by (r : PhotoSearch.photo_row) l :
  PhotoSearch.insert_desc r l = insert_by PhotoSearch.ph_date r l.
Proof.
  induction l as [|x l IH]; cbn; [reflexivity|].
  change (PhotoSearch.date_desc x r)
    with (date_order (PhotoSearch.ph_date x) (PhotoSearch.ph_date r)).
  now rewrite IH.
Qed.

Lemma photo_sort_by (l : list PhotoSearch.photo_row) :
  PhotoSearch.order_by_date_desc l = sort_by PhotoSearch.ph_date l.
Proof.
  unfold PhotoSearch.order_by_date_desc, sort_by. generalize (@nil PhotoSearch.photo_row).
  induction l as [|x l IH]; intros acc; cbn; [reflexivity|].
  now rewrite photo_insert_by, IH.
Qed.

Lemma sql_limit_descending (n : Z) l :
  descending PhotoSearch.ph_date l ->
  descending PhotoSearch.ph_date (PhotoSearch.sql_limit n l).
Proof.
  intros H. unfold PhotoSearch.sql_limit.
  destruct (n <? 0)%Z; [exact H | now apply descending_firstn].
Qed.

Lemma sql_limit_in (n : Z) l r :
  In r (PhotoSearch.sql_limit n l) -> In r l.
Proof.
  unfold PhotoSearch.sql_limit. destruct (n <? 0)%Z; [auto|].
  intros H. rewrite <- (firstn_skipn (Z.to_nat n) l).
  apply in_or_app. now left.
Qed.

(** ** More on the unified search *)

(** X15. Each catalog's rows come back in descending order of date, rows
    without a date last: both the JPG rows and the RAW rows of the result
    are sorted, although their concatenation need not be. *)
Theorem search_each_catalog_sorted rows client date camera location limit :
  descending PhotoSearch.res_date
    (PhotoSearch.select_jpg rows client date camera location limit)
  /\ descending PhotoSearch.res_date
       (PhotoSearch.select_raw rows client date camera location limit).
Proof.
  unfold PhotoSearch.select_jpg, PhotoSearch.select_raw.
  split; apply descending_map; cbn;
    apply sql_limit_descending; rewrite photo_sort_by; apply sort_by_sorted.
Qed.


Lemma decimal_aux_length (fuel : nat) (n : Z) (acc : chars) :
  (length (decimal_aux fuel n acc) <= fuel + length acc)%nat.
Proof.
  revert n acc. induction fuel as [|fuel IH]; intros n acc; cbn [decimal_aux].
  - lia.
  - destruct (n / 10 =? 0)%Z; [cbn [length]; lia|].
    etransitivity; [apply IH|]. cbn [length]. lia.
Qed.

(** A limit that fits 64 bits is printed and accepted. *)
Lemma limit_error_int64 (limit : Z) :
  Sqlite.int64_ok limit = true -> limit_error limit = None.
Proof.
  intros H. unfold limit_error. rewrite H.
  replace (int_too_long limit) with false; [reflexivity|].
  symmetry. unfold int_too_long, int_max_str_digits, decimal_chars.
  apply Nat.ltb_ge.
  etransitivity; [apply decimal_aux_length|]. cbn [length].
  unfold Sqlite.int64_ok in H. apply andb_prop in H. destruct H as [H1 H2].
  apply Z.leb_le in H1. apply Z.ltb_lt in H2.
  assert (Z.log2 (Z.abs limit) < 64)%Z.
  { destruct (Z.eq_dec limit 0%Z) as [->|Hn]; [now vm_compute|].
    apply Z.log2_lt_pow2; lia. }
  lia.
Qed.

Lemma select_in (ty : string) (keep : PhotoSearch.photo_row -> bool)
    (rows : list PhotoSearch.photo_row) (limit : Z) row :
  In row (map (PhotoSearch.tag ty)
            (PhotoSearch.sql_limit limit
               (PhotoSearch.order_by_date_desc (List.filter keep rows)))) ->
  exists r, In r rows /\ keep r = true /\ row = PhotoSearch.tag ty r.
Proof.
  intros H. apply in_map_iff in H. destruct H as (r & <- & Hr).
  apply sql_limit_in in Hr. rewrite photo_sort_by in Hr.
  apply (Permutation_in _ (sort_by_perm _ _)) in Hr.
  apply List.filter_In in Hr. destruct Hr as [Hin Hk]. eauto.
Qed.

(** X16. Every row the unified search returns is the tagged copy of a row
    of one of the two catalogs, and that row passes every filter that was
    given: the client and camera patterns, the exact date and the GPS
    test; a RAW row also has a preview path. *)
Theorem search_all_sound jpg_db raw_db client date camera location limit row :
  In row (PhotoSearch.search_all_photos jpg_db raw_db
            client date camera location limit) ->
  exists r, comes_from jpg_db raw_db row r
            /\ PhotoSearch.where_clause client date camera location r = true.
Proof.
  unfold PhotoSearch.search_all_photos, PhotoSearch.extend_from,
    PhotoSearch.fetch_from, comes_from.
  intros H.
  assert (Hj : forall rows,
             In row (PhotoSearch.select_jpg rows client date camera location limit) ->
             exists r, In r rows /\ row = PhotoSearch.tag "JPG" r
                       /\ PhotoSearch.where_clause client date camera location r
                          = true).
  { intros rows Hin. apply select_in in Hin.
    destruct Hin as (r & ? & ? & ?). eauto. }
  assert (Hr : forall rows,
             In row (PhotoSearch.select_raw rows client date camera location limit) ->
             exists r, In r rows /\ row = PhotoSearch.tag "RAW" r
                       /\ PhotoSearch.has_path r = true
                       /\ PhotoSearch.where_clause client date camera location r
                          = true).
  { intros rows Hin. apply select_in in Hin.
    destruct Hin as (r & ? & Hk & ?). apply andb_prop in Hk. destruct Hk.
    eauto 6. }
  destruct jpg_db as [| |jpg], raw_db as [| |raw], (limit_error limit);
    cbn [app] in H;
    try contradiction;
    try (apply in_app_or in H; destruct H as [H|H]);
    try (apply Hj in H; destruct H as (r & ? & ? & ?);
         exists r; split; [left; eauto | assumption]);
    try (apply Hr in H; destruct H as (r & ? & ? & ? & ?);
         exists r; split; [right; eauto 6 | assumption]).
Qed.

Lemma search_all_sound_witness :
  exists r,
    comes_from jpg_one raw_one
      (PhotoSearch.ResultRow (Some "/p/a_preview.jpg") (Some "Smith")
         (Some "2024-05-02") None "RAW") r
    /\ PhotoSearch.where_clause (Some "smi") None None false r = true.
Proof.
  apply (search_all_sound jpg_one raw_one (Some "smi") None None false 1).
  vm_compute. tauto.
Defined.

(** X17. A negative limit that SQLite takes for an integer (not below
    [-2^63]) drops nothing: every row of a catalog that passes the
    filters (and, in the RAW catalog, has a preview path) is in the
    result. *)
Theorem search_all_complete jpg_db raw_db client date camera location limit r :
  (- 2 ^ 63 <= limit < 0)%Z ->
  PhotoSearch.where_clause client date camera location r = true ->
  (forall rows, jpg_db = PhotoSearch.Present rows -> In r rows ->
     In (PhotoSearch.tag "JPG" r)
        (PhotoSearch.search_all_photos jpg_db raw_db
           client date camera location limit))
  /\ (forall rows, raw_db = PhotoSearch.Present rows -> In r rows ->
        PhotoSearch.has_path r = true ->
        In (PhotoSearch.tag "RAW" r)
           (PhotoSearch.search_all_photos jpg_db raw_db
              client date camera location limit)).
Proof.
  intros Hl Hw.
  assert (Hsel : forall ty keep rows,
             In r rows -> keep r = true ->
             In (PhotoSearch.tag ty r)
                (map (PhotoSearch.tag ty)
                   (PhotoSearch.sql_limit limit
                      (PhotoSearch.order_by_date_desc (List.filter keep rows))))).
  { intros ty keep rows Hin Hk. apply in_map. unfold PhotoSearch.sql_limit.
    destruct Hl as [_ Hl]. apply Z.ltb_lt in Hl. rewrite Hl, photo_sort_by.
    apply (Permutation_in _ (Permutation_sym (sort_by_perm _ _))).
    apply List.filter_In. auto. }
  unfold PhotoSearch.search_all_photos, PhotoSearch.extend_from,
    PhotoSearch.fetch_from.
  rewrite (limit_error_int64 limit) by (unfold Sqlite.int64_ok; lia).
  split.
  - intros rows -> Hin. cbn [app].
    assert (In (PhotoSearch.tag "JPG" r)
              (PhotoSearch.select_jpg rows client date camera location limit))
      by (apply Hsel; assumption).
    destruct raw_db; try assumption. apply in_or_app. now left.
  - intros rows -> Hin Hp.
    assert (In (PhotoSearch.tag "RAW" r)
              (PhotoSearch.select_raw rows client date camera location limit))
      by (apply Hsel; [assumption | now rewrite Hp, Hw]).
    destruct jpg_db; cbn [app]; try assumption. apply in_or_app. now right.
Qed.

Lemma search_all_complete_witness :
  In (PhotoSearch.ResultRow (Some "/jpg/a.jpg") (Some "Smith")
        (Some "2024-05-01") (Some "EOS R5") "JPG")
     (PhotoSearch.search_all_photos jpg_one raw_one None None None false (-1)).
Proof.
  refine (proj1 (search_all_complete jpg_one raw_one None None None false (-1)
                   (PhotoSearch.PhotoRow (Some "/jpg/a.jpg") (Some "Smith")
                      (Some "2024-05-01") (Some "EOS R5") false false)
                   _ eq_refl) _ eq_refl _).
  - lia.
  - now left.
Defined.

(** ** [LIKE] *)


Lemma like_percent (p t : chars) :
  PhotoSearch.like ("%"%char :: p) t
  = PhotoSearch.like p t
    || match t with
       | [] => false
       | _ :: t' => PhotoSearch.like ("%"%char :: p) t'
       end.
Proof. destruct t; reflexivity. Qed.

Lemma like_literal (c : ascii) (p t : chars) :
  Chars.eqb c "%"%char = false -> Chars.eqb c "_"%char = false ->
  PhotoSearch.like (c :: p) t
  = match t with
    | [] => false
    | c' :: t' => Chars.eqb (Chars.sql_fold c) (Chars.sql_fold c')
                  && PhotoSearch.like p t'
    end.
Proof.
  intros H1 H2. cbn [PhotoSearch.like]. rewrite H1, H2. reflexivity.
Qed.

Lemma like_any (t : chars) : PhotoSearch.like ["%"%char] t = true.
Proof.
  induction t as [|c t IH]; rewrite like_percent; [reflexivity|].
  rewrite IH. apply orb_true_r.
Qed.

Lemma like_prefix (a t : chars) :
  no_wildcard a ->
  PhotoSearch.like (a ++ ["%"%char]) t = true
  <-> exists post, map Chars.sql_fold t = map Chars.sql_fold a ++ post.
Proof.
  intros Ha. revert t. induction Ha as [|c a [H1 H2] _ IH]; intros t.
  - cbn [app map]. rewrite like_any. split; [eauto | reflexivity].
  - cbn [app map]. rewrite (like_literal c _ t H1 H2).
    destruct t as [|c' t]; cbn [map].
    + split; [discriminate | intros [post H]; discriminate H].
    + rewrite andb_true_iff, IH. unfold Chars.eqb. rewrite Ascii.eqb_eq.
      split.
      * intros [-> [post ->]]. eauto.
      * intros [post [= -> ->]]. eauto.
Qed.

Lemma like_contains (a t : chars) :
  no_wildcard a ->
  PhotoSearch.like ("%"%char :: a ++ ["%"%char]) t = true <-> occurs_nocase a t.
Proof.
  intros Ha. unfold occurs_nocase.
  induction t as [|c t IH]; rewrite like_percent, orb_true_iff,
    (like_prefix a _ Ha).
  - split.
    + intros [[post H] | H]; [|discriminate]. exists [], post. exact H.
    + intros (pre & post & H). left. destruct pre; [|discriminate].
      exists post. exact H.
  - rewrite IH. split.
    + intros [[post H] | (pre & post & H)].
      * exists [], post. exact H.
      * exists (Chars.sql_fold c :: pre), post. cbn. now rewrite H.
    + intros (pre & post & H). destruct pre as [|x pre].
      * left. exists post. exact H.
      * right. cbn in H. injection H as _ H. eauto.
Qed.

Lemma to_chars_append (s1 s2 : string) :
  to_chars (s1 +:+ s2) = to_chars s1 ++ to_chars s2.
Proof.
  unfold to_chars. induction s1 as [|c s1 IH]; [reflexivity|].
  change (String c s1 +:+ s2) with (String c (s1 +:+ s2)).
  cbn [list_ascii_of_string app]. f_equal. exact IH.
Qed.

(** X18. For a client or camera argument that is not empty and contains
    neither [%] nor [_], the filter keeps exactly the rows whose column
    contains the argument, ignoring the case of ASCII letters; a row whose
    column is [NULL] is never kept. *)
Theorem like_clause_substring (arg : string) (col : option string) :
  arg <> "" ->
  no_wildcard (to_chars arg) ->
  PhotoSearch.like_clause (Some arg) col = true
  <-> exists v, col = Some v /\ occurs_nocase (to_chars arg) (to_chars v).
Proof.
  intros Hne Hw. unfold PhotoSearch.like_clause.
  destruct (String.eqb arg "") eqn:E; [apply String.eqb_eq in E; contradiction|].
  destruct col as [v|].
  - rewrite !to_chars_append.
    change (to_chars "%") with ["%"%char]. cbn [app].
    rewrite (like_contains _ _ Hw). split; [eauto|].
    now intros (v' & [= <-] & H).
  - split; [discriminate | intros (v & H & _); discriminate H].
Qed.

Lemma like_clause_substring_witness :
  PhotoSearch.like_clause (Some "smith") (Some "2024 SMITH Wedding") = true
  <-> exists v, Some "2024 SMITH Wedding" = Some v
                /\ occurs_nocase (to_chars "smith") (to_chars v).
Proof.
  apply (like_clause_substring "smith" (Some "2024 SMITH Wedding")).
  - discriminate.
  - repeat constructor.
Defined.

(** ** The command line of the unified search *)


Lemma count_type_app ty l1 l2 :
  count_type ty (l1 ++ l2) = (count_type ty l1 + count_type ty l2)%Z.
Proof. unfold count_type. rewrite List.filter_app, length_app. lia. Qed.

Lemma count_type_tagged (ty ty' : string) (l : list PhotoSearch.photo_row) :
  count_type ty' (map (PhotoSearch.tag ty) l)
  = if String.eqb ty ty' then Z.of_nat (length l) else 0%Z.
Proof.
  unfold count_type. induction l as [|x l IH]; cbn; [now destruct (_ =? _)%string|].
  destruct (String.eqb ty ty') eqn:E; cbn; [|exact IH].
  cbn in IH. lia.
Qed.

Lemma search_all_counts jpg_db raw_db client date camera location limit :
  let results :=
    PhotoSearch.search_all_photos jpg_db raw_db client date camera location limit in
  (count_type "JPG" results + count_type "RAW" results
   = Z.of_nat (length results))%Z.
Proof.
  intros results. subst results.
  unfold PhotoSearch.search_all_photos, PhotoSearch.extend_from,
    PhotoSearch.fetch_from, PhotoSearch.select_jpg, PhotoSearch.select_raw.
  destruct jpg_db as [| |jpg], raw_db as [| |raw], (limit_error limit);
    cbn [app];
    rewrite ?count_type_app, ?count_type_tagged, ?length_app, ?length_map;
    cbn; try reflexivity; lia.
Qed.

(** X19. With [--count] the command prints, after the warning of each
    catalog whose search raised (at most two), exactly three lines, also
    when [--simple] is given; the JPG and RAW numbers it prints add up to
    the total it prints: every result carries one of the two tags. *)
Theorem search_main_count (a : search_args)
    (jpg_db raw_db : PhotoSearch.catalog) :
  arg_count a = true ->
  let warnings :=
    PhotoSearch.search_all_warnings jpg_db raw_db (effective_client a)
      (arg_date a) (arg_camera a) (arg_location a) (arg_limit a) in
  (length warnings <= 2)%nat
  /\ exists j r : Z,
       search_main a jpg_db raw_db
       = warnings ++ ["Total photos found: " +:+ str_of_int (j + r);
                      "  JPG: " +:+ str_of_int j;
                      "  RAW previews: " +:+ str_of_int r].
Proof.
  intros H warnings. split.
  - subst warnings.
    unfold PhotoSearch.search_all_warnings, PhotoSearch.warning,
      PhotoSearch.fetch_from.
    destruct jpg_db, raw_db, (limit_error (arg_limit a)); cbn; lia.
  - unfold search_main, report. rewrite H. fold warnings.
    eexists _, _. rewrite <- search_all_counts. reflexivity.
Qed.

Lemma search_main_count_witness :
  let a := SearchArgs (Some "Smith") None None None false 1 true true in
  let warnings :=
    ["Warning: Could not search JPG database: database is locked"] in
  (length warnings <= 2)%nat
  /\ exists j r : Z,
       search_main a (PhotoSearch.Failing Sim.locked) raw_one
       = warnings ++ ["Total photos found: " +:+ str_of_int (j + r);
                      "  JPG: " +:+ str_of_int j;
                      "  RAW previews: " +:+ str_of_int r].
Proof.
  intros a warnings.
  exact (search_main_count a (PhotoSearch.Failing Sim.locked) raw_one eq_refl).
Defined.

(** ** [search_raw_photos] *)


Lemma raw_sql_limit_in (n : Z) l r :
  In r (RawSearch.sql_limit n l) -> In r l.
Proof.
  unfold RawSearch.sql_limit. destruct (n <? 0)%Z; [auto|].
  intros H. rewrite <- (firstn_skipn (Z.to_nat n) l).
  apply in_or_app. now left.
Qed.

Lemma search_raw_photos_ret (client date : option string) (limit : Z)
    (db db' : Sqlite.database) (l : list event) (res : list RawSearch.fetched) :
  RawSearch.search_raw_photos client date limit db = (db', l, Ret res) ->
  res = RawSearch.select (Sqlite.tbl_rows (Sqlite.db_saved db)) client date limit.
Proof.
  unfold RawSearch.search_raw_photos. intros H.
  apply bind_ret_inv in H. destruct H as (db1 & l1 & [] & l1' & Hc & H & _).
  apply bind_ret_inv in H. destruct H as (db2 & l2 & [] & l2' & Hf & H & _).
  assert (Hlive : Sqlite.db_live db1 = Sqlite.db_saved db).
  { unfold Sqlite.connect, Sqlite.next_fault in Hc.
    destruct (Sqlite.db_faults db) as [|[e|] rest]; cbn in Hc;
      try discriminate Hc; now injection Hc as <- _. }
  assert (db2 = db1).
  { unfold RawSearch.format_limit in Hf.
    destruct (int_too_long limit); [discriminate Hf | now injection Hf]. }
  subst db2. rewrite <- Hlive.
  unfold RawSearch.fetchall, Sqlite.next_fault in H.
  destruct (Sqlite.db_faults db1) as [|[e|] rest]; cbn in H;
    try discriminate H;
    destruct (Sqlite.tbl_exists (Sqlite.db_live db1)); cbn in H;
    try discriminate H;
    destruct (Sqlite.int64_ok limit); cbn in H; try discriminate H;
    congruence.
Qed.

(** X20. Every row the RAW search returns is fetched from a committed row
    that passes the client and date filters; the rows come in descending
    order of date, and with a non-negative limit there are at most
    [limit] of them. *)
Theorem search_raw_photos_sound (client date : option string) (limit : Z)
    (db db' : Sqlite.database) (l : list event) (res : list RawSearch.fetched) :
  RawSearch.search_raw_photos client date limit db = (db', l, Ret res) ->
  (forall x, In x res ->
     exists row, In row (Sqlite.tbl_rows (Sqlite.db_saved db))
                 /\ RawSearch.where_clause client date row = true
                 /\ x = RawSearch.fetch row)
  /\ descending (fun x : RawSearch.fetched => x.1.2) res
  /\ ((0 <= limit)%Z -> (Z.of_nat (length res) <= limit)%Z).
Proof.
  intros H. apply search_raw_photos_ret in H. subst res.
  unfold RawSearch.select. split; [|split].
  - intros x Hx. apply in_map_iff in Hx. destruct Hx as (row & <- & Hrow).
    apply raw_sql_limit_in in Hrow.
    apply (Permutation_in _ (sort_by_perm _ _)) in Hrow.
    apply List.filter_In in Hrow. destruct Hrow. eauto.
  - apply (descending_map RawSearch.fetch (fun x : RawSearch.fetched => x.1.2)).
    change (fun a => (RawSearch.fetch a).1.2) with RawSearch.date_of.
    unfold RawSearch.sql_limit.
    destruct (limit <? 0)%Z; [|apply descending_firstn]; apply sort_by_sorted.
  - intros Hl. rewrite length_map. unfold RawSearch.sql_limit.
    destruct (limit <? 0)%Z eqn:E; [apply Z.ltb_lt in E; lia|].
    rewrite length_firstn. lia.
Qed.


Lemma search_raw_photos_sound_witness :
  let db := run_world (Sqlite.commit
                         (run_world (Sqlite.upsert photo_A ready_catalog))) in
  let res := [("/p/a.CR2", "/p/a_preview.jpg", Some "Smith",
               Some "2024-05-01", Some "EOS R5")] in
  (forall x, In x res ->
     exists row, In row (Sqlite.tbl_rows (Sqlite.db_saved db))
                 /\ RawSearch.where_clause (Some "smi") None row = true
                 /\ x = RawSearch.fetch row)
  /\ descending (fun x : RawSearch.fetched => x.1.2) res
  /\ ((0 <= 50)%Z -> (Z.of_nat (length res) <= 50)%Z).
Proof.
  intros db res.
  refine (search_raw_photos_sound (Some "smi") None 50 db db [] res _).
  vm_compute. reflexivity.
Defined.

Lemma date_clause_same (d : option string) :
  PhotoSearch.date_clause d d = true.
Proof.
  unfold PhotoSearch.date_clause. destruct d as [a|]; [|reflexivity].
  destruct (String.eqb a ""); [reflexivity | apply String.eqb_refl].
Qed.

(** X21. What a scan wrote can be found again: after an upsert that
    returned and a commit that returned, a RAW search by the date of the
    record, with no limit or a limit that covers the table, returns the
    row of the record. *)
Theorem upsert_then_search (r : raw_photo) (limit : Z)
    (db db1 db2 db3 : Sqlite.database) (l1 l2 l3 : list event)
    (res : list RawSearch.fetched) :
  Sqlite.upsert r db = (db1, l1, Ret true) ->
  Sqlite.commit db1 = (db2, l2, Ret tt) ->
  RawSearch.search_raw_photos None (date r) limit db2 = (db3, l3, Ret res) ->
  (limit < 0)%Z
  \/ (Z.of_nat (length (Sqlite.tbl_rows (Sqlite.db_saved db2))) <= limit)%Z ->
  In (filepath r, preview_path r, client_name r, date r,
      PhotoSearch.sql_text (camera_model r)) res.
Proof.
  intros Hup Hcommit Hsearch Hlimit.
  apply upsert_live in Hup. destruct Hup as (Hlive & _ & _).
  assert (Hsaved : Sqlite.db_saved db2 = Sqlite.db_live db1).
  { unfold Sqlite.commit, call, Sqlite.next_fault in Hcommit.
    destruct (Sqlite.db_faults db1) as [|[e|] rest]; cbn in Hcommit;
      try discriminate Hcommit; now injection Hcommit as <- _. }
  set (row := StoredRow (Sqlite.tbl_seq (Sqlite.db_live db) + 1) r).
  assert (Hin : In row (Sqlite.tbl_rows (Sqlite.db_saved db2))).
  { rewrite Hsaved, Hlive. unfold Sqlite.insert_or_replace. cbn.
    apply in_or_app. right. now left. }
  apply search_raw_photos_ret in Hsearch. rename Hsearch into Hres.
  rewrite Hres. unfold RawSearch.select.
  change (filepath r, preview_path r, client_name r, date r,
          PhotoSearch.sql_text (camera_model r)) with (RawSearch.fetch row).
  apply in_map.
  set (kept := List.filter (RawSearch.where_clause None (date r))
                 (Sqlite.tbl_rows (Sqlite.db_saved db2))).
  assert (Hk : In row (sort_by RawSearch.date_of kept)).
  { apply (Permutation_in _ (Permutation_sym (sort_by_perm _ _))).
    apply List.filter_In. split; [exact Hin|].
    unfold RawSearch.where_clause, RawSearch.date_of. cbn.
    apply date_clause_same. }
  unfold RawSearch.sql_limit.
  destruct (limit <? 0)%Z eqn:E; [exact Hk|].
  apply Z.ltb_ge in E. destruct Hlimit as [Hl | Hl]; [lia|].
  rewrite List.firstn_all2; [exact Hk|].
  rewrite (Permutation_length (sort_by_perm _ _)).
  pose proof (List.filter_length_le (RawSearch.where_clause None (date r))
                (Sqlite.tbl_rows (Sqlite.db_saved db2))) as Hle.
  fold kept in Hle. lia.
Qed.

Lemma upsert_then_search_witness :
  let db1 := run_world (Sqlite.upsert photo_A ready_catalog) in
  let db2 := run_world (Sqlite.commit db1) in
  In ("/p/a.CR2", "/p/a_preview.jpg", Some "Smith", Some "2024-05-01",
      Some "EOS R5")
     match run_result (RawSearch.search_raw_photos None (Some "2024-05-01") 50 db2)
     with Ret res => res | Raise _ => [] end.
Proof.
  intros db1 db2.
  refine (upsert_then_search photo_A 50 ready_catalog db1 db2 db2
            (run_log (Sqlite.upsert photo_A ready_catalog))
            (run_log (Sqlite.commit db1)) [] _ _ _ _ _).
  - vm_compute. reflexivity.
  - vm_compute. reflexivity.
  - vm_compute. reflexivity.
  - right. vm_compute. discriminate.
Defined.

(** ** What a scan touches *)


Lemma sat_lift_snd_inv {W V A} (I2 : V -> Prop)
    (P : event -> Prop) (Q : outcome A -> Prop) (m : M V A) :
  sat I2 P Q m ->
  sat (fun wv : W * V => I2 wv.2) P Q (lift_snd m).
Proof.
  intros Hm [w v] Hv. unfold lift_snd; cbn in *.
  destruct (Hm v Hv) as (Hi & Hl & Hq).
  destruct (m v) as [[v' l] r]; cbn in *. auto.
Qed.

Lemma sat_if {W A} (J : W -> Prop) (P : event -> Prop) (Q : outcome A -> Prop)
    (b : bool) (m1 m2 : M W A) :
  (b = true -> sat J P Q m1) -> (b = false -> sat J P Q m2) ->
  sat J P Q (if b then m1 else m2).
Proof. destruct b; auto. Qed.

Section RetryInvariant.
Context {W : Type} (cur : cursor W) (q : statement).
Context (J : W -> Prop) (P : event -> Prop).
Context (Hexec : P (EvExecute q)) (Hsleep : forall d, P (EvSleep d)).
Context (Hcur : forall w, J w -> J (cur q w).1).

Lemma time_sleep_inv (d : Float.t) : sat J P any_outcome (time_sleep d).
Proof.
  unfold time_sleep.
  repeat match goal with |- context [if ?b then _ else _] => destruct b end;
    try (apply sat_raise; exact Logic.I).
  apply logs_call; [apply Hsleep | auto].
Qed.

Lemma retry_attempt_inv max_retries delay attempt :
  sat J P any_outcome (retry_attempt cur q max_retries delay attempt).
Proof.
  unfold retry_attempt.
  apply logs_try_except.
  - apply logs_bind; [ | intros ? | trivial_post].
    + apply logs_call; [exact Hexec | exact Hcur].
    + apply sat_ret. exact Logic.I.
  - intros e.
    repeat match goal with |- context [if ?b then _ else _] => destruct b end;
      try (apply sat_raise; exact Logic.I).
    apply logs_bind; [apply time_sleep_inv | intros ?; apply sat_ret; exact Logic.I
                     | trivial_post].
Qed.

Lemma retry_loop_inv max_retries delay attempts :
  sat J P any_outcome (retry_loop cur q max_retries delay attempts).
Proof.
  induction attempts as [|a rest IH]; cbn [retry_loop].
  - apply sat_ret. exact Logic.I.
  - apply logs_bind; [apply retry_attempt_inv | intros [b|] | trivial_post].
    + apply sat_ret. exact Logic.I.
    + exact IH.
Qed.

End RetryInvariant.

Lemma upsert_params_fields (S : System) (P : event -> Prop)
    (raw_path pp : string) (cn d : option string) (metadata : dict)
    (raw_size_mb kb : Float.t) :
  sat any_world P
      (fun r => forall row, r = Ret row ->
         filepath row = raw_path /\ preview_path row = pp
         /\ client_name row = cn /\ date row = d)
      (upsert_params S raw_path pp cn d metadata raw_size_mb kb).
Proof.
  intros w _.
  unfold upsert_params, bind, of_outcome, getitem, ret, raise.
  repeat match goal with
         | |- context [metadata !! ?k] => destruct (metadata !! k)
         end;
    cbn; (split; [exact Logic.I | split; [constructor|]]);
    intros row [= <-]; repeat split.
Qed.

Section ScanInvariant.
Context (S : System) (update_db regenerate : bool) (files : list string).
Context (J : Sqlite.database -> Prop).
Context (Hexecute : update_db = true ->
           forall q db, J db -> J (Sqlite.execute q db).1).
Context (Hcommit : update_db = true ->
           forall db, J db -> J (run_world (Sqlite.commit db))).
Context (Hconnect : update_db = true ->
           forall db, J db -> J (run_world (Sqlite.connect db))).

#[local] Abbreviation SE := (scan_event update_db regenerate files).
#[local] Abbreviation DJ := (fun wv : world S * Sqlite.database => J wv.2).

Ltac scan_ev :=
  repeat split; cbn; unfold preview_among;
  first [ exact Logic.I | reflexivity | assumption | discriminate
        | solve [eauto 6] ].

Ltac events_auto :=
  repeat first
    [ apply sat_ret; trivial_post
    | apply sat_raise; trivial_post
    | apply sat_of_outcome; trivial_post
    | apply logs_call; [scan_ev | trivial_post]
    | apply sat_query; [scan_ev | trivial_post]
    | apply logs_try_except; [|intros ?]
    | apply logs_try_finally
    | apply logs_bind; [ | intros ? | trivial_post]
    | apply sat_when_some; [trivial_post | intros ? _] ].

Lemma convert_events (raw_path : string) :
  In raw_path files ->
  sat any_world SE any_outcome
      (convert_raw_to_preview S raw_path (get_preview_path raw_path)
         PREVIEW_SIZE PREVIEW_QUALITY).
Proof.
  intros Hin. unfold convert_raw_to_preview, with_imread, getsize. events_auto.
Qed.

Lemma commit_inv :
  update_db = true -> sat J SE any_outcome Sqlite.commit.
Proof.
  intros Hu. unfold Sqlite.commit.
  apply logs_call; [scan_ev|]. intros db Hdb.
  pose proof (Hcommit Hu db Hdb) as H.
  unfold Sqlite.commit, call, run_world in H.
  destruct (Sqlite.next_fault db) as [[e|] db']; exact H.
Qed.

Lemma connect_inv :
  update_db = true -> sat J SE any_outcome Sqlite.connect.
Proof.
  intros Hu db Hdb. pose proof (Hconnect Hu db Hdb) as H.
  unfold Sqlite.connect in *.
  destruct (Sqlite.next_fault db) as [[e|] db']; cbn in *;
    (split; [exact H | split; [constructor | exact Logic.I]]).
Qed.

Lemma index_file_events (raw_path : string) (kb : Float.t) :
  update_db = true -> In raw_path files ->
  sat DJ SE any_outcome (index_file S raw_path (get_preview_path raw_path) kb).
Proof.
  intros Hu Hin. unfold index_file.
  destruct (Parse.parse_client_info raw_path) as [cn d] eqn:Hparse.
  apply logs_bind; [ | intros metadata | trivial_post ].
  { apply (sat_lift_fst J).
    eapply sat_weaken;
      [ apply (extract_exif_inv S (fun _ => True) SE raw_path);
        [ auto | scan_ev | scan_ev | exact Logic.I ]
      | trivial_post ]. }
  apply logs_bind; [ | intros size | trivial_post ].
  { apply (sat_lift_fst J). unfold getsize. events_auto. }
  apply logs_try_except; [|intros e; apply sat_ret; exact Logic.I].
  eapply sat_bind;
    [ apply (sat_lift_fst J), upsert_params_fields
    | intros row Hrow
    | trivial_post ].
  destruct (Hrow row eq_refl) as (Hf & Hp & Hc & Hd).
  apply logs_bind; [ | intros ?; apply sat_ret; exact Logic.I | trivial_post].
  apply sat_lift_snd_inv.
  apply retry_loop_inv.
  - repeat split; cbn; [now rewrite Hf | now rewrite Hp, Hf
                       | now rewrite Hc, Hd, Hf | auto].
  - intros; scan_ev.
  - intros db Hdb. exact (Hexecute Hu _ db Hdb).
Qed.

(** Whatever the loop does, it does to the files it was given. *)
Lemma scan_loop_events (raw_files : list string) :
  incl raw_files files ->
  forall st, sat DJ SE any_outcome
               (scan_loop S update_db regenerate raw_files st).
Proof.
  induction raw_files as [|raw_path rest IH]; intros Hincl st; cbn [scan_loop].
  { apply sat_ret. exact Logic.I. }
  assert (Hin : In raw_path files) by (apply Hincl; now left).
  assert (Hrest : incl rest files) by (intros f Hf; apply Hincl; now right).
  specialize (IH Hrest).
  apply logs_bind; [ | intros skip | trivial_post ].
  { apply sat_if; intros Hr; [|apply sat_ret; exact Logic.I].
    apply negb_true_iff in Hr.
    apply (sat_lift_fst J). apply sat_query; [scan_ev | trivial_post]. }
  destruct skip; [apply IH|].
  apply logs_bind;
    [ apply (sat_lift_fst J), convert_events, Hin
    | intros [success result] | trivial_post ].
  destruct success; cbn [negb]; [|apply IH].
  apply logs_bind;
    [ apply sat_of_outcome; exact Logic.I | intros kb | trivial_post ].
  apply logs_bind; [ | intros c | trivial_post ].
  { apply sat_if; intros Hu;
      [apply index_file_events; auto | apply sat_ret; exact Logic.I]. }
  apply logs_bind; [ | intros _; apply IH | trivial_post ].
  apply sat_if; intros Hb; [|apply sat_ret; exact Logic.I].
  apply andb_true_iff in Hb. destruct Hb as [Hu _].
  apply sat_lift_snd_inv, commit_inv, Hu.
Qed.

Lemma scan_raw_files_events (directory : string) (limit : option Z)
    (w : world S * Sqlite.database) :
  candidates S directory limit w.1 = files ->
  J w.2 ->
  let r := scan_raw_files S directory update_db regenerate limit w in
  J (run_world r).2 /\ Forall SE (run_log r).
Proof.
  intros Hc Hw r. subst r. unfold scan_raw_files. rewrite Hc. cbv zeta.
  assert (H : sat DJ SE any_outcome
                ((if update_db
                  then lift_snd (Sqlite.connect ;;;
                                 db_execute_with_retry_default
                                   Sqlite.execute CreateTableIfNotExists ;;;
                                 Sqlite.commit)
                  else ret tt) ;;;
                 st <- scan_loop S update_db regenerate files initial_state ;;
                 (if update_db then lift_snd Sqlite.commit else ret tt) ;;;
                 ret (Some st))).
  { apply logs_bind; [ | intros _ | trivial_post ].
    { apply sat_if; intros Hu; [|apply sat_ret; exact Logic.I].
      apply sat_lift_snd_inv.
      apply logs_bind; [apply connect_inv, Hu | intros _ | trivial_post].
      apply logs_bind;
        [ | intros _; apply commit_inv, Hu | trivial_post].
      apply retry_loop_inv; [scan_ev | intros; scan_ev |].
      intros db Hdb. exact (Hexecute Hu _ db Hdb). }
    apply logs_bind;
      [ apply scan_loop_events, incl_refl | intros st | trivial_post ].
    apply logs_bind; [ | intros _; apply sat_ret; exact Logic.I | trivial_post ].
    apply sat_if; intros Hu; [|apply sat_ret; exact Logic.I].
    apply sat_lift_snd_inv, commit_inv, Hu. }
  destruct (H w Hw) as (Hj & Hl & _).
  clear H Hc.
  match type of Hl with Forall _ (run_log ?b) => set (body := b) in * end.
  clearbody body.
  destruct files; [cbn; split; [exact Hw | constructor] | split; assumption].
Qed.

End ScanInvariant.

(** X22. A scan opens only its candidate files and saves only their
    previews. Every preview is written as a progressive, optimised JPEG
    of quality 85 after a LANCZOS thumbnail within 1080 x 1080; whether a
    preview exists is asked only when previews are not regenerated. *)
Theorem scan_touches_only_candidates (S : System) (directory : string)
    (update_db regenerate : bool) (limit : option Z)
    (w : world S * Sqlite.database) :
  Forall (file_event regenerate (candidates S directory limit w.1))
         (run_log (scan_raw_files S directory update_db regenerate limit w)).
Proof.
  destruct (scan_raw_files_events S update_db regenerate
              (candidates S directory limit w.1) any_world
              ltac:(intros; exact Logic.I) ltac:(intros; exact Logic.I)
              ltac:(intros; exact Logic.I)
              directory limit w eq_refl Logic.I) as [_ H].
  revert H. apply List.Forall_impl. intros ev (Hf & _ & _). exact Hf.
Qed.

(** X23. Every record a scan writes to the catalog describes one of its
    candidate files: the preview path is the one derived from the file
    path, and the client and the date are those parsed from the file
    path. *)
Theorem scan_records_describe_candidates (S : System) (directory : string)
    (update_db regenerate : bool) (limit : option Z)
    (w : world S * Sqlite.database) :
  Forall (record_event (candidates S directory limit w.1))
         (run_log (scan_raw_files S directory update_db regenerate limit w)).
Proof.
  destruct (scan_raw_files_events S update_db regenerate
              (candidates S directory limit w.1) any_world
              ltac:(intros; exact Logic.I) ltac:(intros; exact Logic.I)
              ltac:(intros; exact Logic.I)
              directory limit w eq_refl Logic.I) as [_ H].
  revert H. apply List.Forall_impl. intros ev (_ & Hr & _). exact Hr.
Qed.

(** X24. A scan with [update_db] off never calls the catalog store and
    leaves the catalog as it found it. *)
Theorem scan_without_db_keeps_catalog (S : System) (directory : string)
    (regenerate : bool) (limit : option Z) (w : world S * Sqlite.database) :
  let r := scan_raw_files S directory false regenerate limit w in
  (run_world r).2 = w.2
  /\ Forall (fun ev => is_catalog_event ev = false) (run_log r).
Proof.
  intros r. subst r.
  destruct (scan_raw_files_events S false regenerate
              (candidates S directory limit w.1) (fun db => db = w.2)
              ltac:(discriminate) ltac:(discriminate) ltac:(discriminate)
              directory limit w eq_refl eq_refl) as [Hw H].
  split; [exact Hw|].
  revert H. apply List.Forall_impl. intros ev (_ & _ & Hc).
  destruct (is_catalog_event ev); [discriminate (Hc eq_refl) | reflexivity].
Qed.

Lemma commit_ok (db : Sqlite.database) :
  database_ok db -> database_ok (run_world (Sqlite.commit db)).
Proof.
  intros [Hl Hs]. unfold Sqlite.commit, call, run_world, Sqlite.next_fault.
  destruct (Sqlite.db_faults db) as [|[e|] rest]; cbn; split; assumption.
Qed.

Lemma connect_ok (db : Sqlite.database) :
  database_ok db -> database_ok (run_world (Sqlite.connect db)).
Proof.
  intros [Hl Hs]. unfold Sqlite.connect, run_world, Sqlite.next_fault.
  destruct (Sqlite.db_faults db) as [|[e|] rest]; cbn; split; assumption.
Qed.

(** X25. A scan keeps the constraints of the schema, in the open
    transaction and in what is committed, however it ends: no two rows
    share a file path or an id. *)
Theorem scan_keeps_schema (S : System) (directory : string)
    (update_db regenerate : bool) (limit : option Z)
    (w : world S * Sqlite.database) :
  database_ok w.2 ->
  database_ok
    (run_world (scan_raw_files S directory update_db regenerate limit w)).2.
Proof.
  intros Hok.
  exact (proj1 (scan_raw_files_events S update_db regenerate
                  (candidates S directory limit w.1) database_ok
                  (fun _ q db => execute_ok q db)
                  (fun _ => commit_ok) (fun _ => connect_ok)
                  directory limit w eq_refl Hok)).
Qed.

Lemma scan_keeps_schema_witness :
  database_ok
    (run_world (scan_raw_files Sim.system "/p" true false None
                  (shoot, idle_catalog))).2.
Proof.
  apply (scan_keeps_schema Sim.system "/p" true false None (shoot, idle_catalog)).
  repeat split; cbn; constructor.
Defined.

(** ** A scan over files that all have their preview *)


Lemma scan_loop_all_skipped (S : System) (update_db : bool)
    (raw_files : list string) (wv : world S * Sqlite.database) :
  Forall (fun f => os_path_exists S (get_preview_path f) wv.1 = true) raw_files ->
  forall st,
    scan_loop S update_db false raw_files st wv
    = (wv, map (fun f => EvExists (get_preview_path f)) raw_files,
       Ret (ScanState (processed st)
              (skipped st + Z.of_nat (length raw_files)) (failed st)
              (outcomes st ++ repeat FileSkipped (length raw_files)))).
Proof.
  induction 1 as [|f rest Hf _ IH]; intros st.
  - cbn. rewrite Z.add_0_r, app_nil_r. now destruct st.
  - cbn [scan_loop negb]. unfold bind at 1. unfold lift_fst, query.
    rewrite Hf. cbv beta iota. rewrite <- surjective_pairing. rewrite IH.
    cbn [fst snd app map processed skipped failed outcomes length repeat].
    rewrite <- List.app_assoc.
    replace (skipped st + 1 + Z.of_nat (length rest))%Z
      with (skipped st + Z.of_nat (Datatypes.S (length rest)))%Z by lia.
    reflexivity.
Qed.

Lemma commit_sat (P : event -> Prop) :
  P EvCommit -> sat any_world P any_outcome Sqlite.commit.
Proof.
  intros H. unfold Sqlite.commit. apply logs_call; [exact H | trivial_post].
Qed.

Lemma connect_sat (P : event -> Prop) :
  sat any_world P any_outcome Sqlite.connect.
Proof.
  intros db _. unfold Sqlite.connect.
  destruct (Sqlite.next_fault db) as [[e|] db']; cbn;
    (split; [exact Logic.I | split; [constructor | exact Logic.I]]).
Qed.

(** X26. When every candidate file already has its preview and previews
    are not regenerated, a scan skips every file: it opens and writes no
    file, leaves the file system as it is and writes no record; when it
    returns its counters, all the files are counted as skipped. It can
    only raise from the catalog store. *)
Theorem rescan_skips_everything (S : System) (directory : string)
    (update_db : bool) (limit : option Z) (w : world S * Sqlite.database) :
  Forall (fun f => os_path_exists S (get_preview_path f) w.1 = true)
         (candidates S directory limit w.1) ->
  let r := scan_raw_files S directory update_db false limit w in
  (run_world r).1 = w.1
  /\ Forall (fun ev => is_probe ev = true) (run_log r)
  /\ match run_result r with
     | Ret (Some st) =>
         processed st = 0%Z /\ failed st = 0%Z
         /\ skipped st = Z.of_nat (length (candidates S directory limit w.1))
     | Ret None => candidates S directory limit w.1 = []
     | Raise _ => update_db = true
     end.
Proof.
  intros Hall r. subst r. unfold scan_raw_files.
  destruct (candidates S directory limit w.1) as [|f fs] eqn:Hc.
  { cbn. repeat split. constructor. }
  rewrite <- Hc in *.
  set (files := candidates S directory limit w.1) in *.
  set (PR := fun ev => is_probe ev = true).
  assert (H : sat (fun wv : world S * Sqlite.database => wv.1 = w.1) PR
                (fun r => match r with
                          | Ret (Some st) =>
                              processed st = 0%Z /\ failed st = 0%Z
                              /\ skipped st = Z.of_nat (length files)
                          | Ret None => False
                          | Raise _ => update_db = true
                          end)
                ((if update_db
                  then lift_snd (Sqlite.connect ;;;
                                 db_execute_with_retry_default
                                   Sqlite.execute CreateTableIfNotExists ;;;
                                 Sqlite.commit)
                  else ret tt) ;;;
                 st <- scan_loop S update_db false files initial_state ;;
                 (if update_db then lift_snd Sqlite.commit else ret tt) ;;;
                 ret (Some st))).
  { eapply sat_bind with (Q1 := fun r => raised r = true -> update_db = true);
      [ | intros _ _ | intros e He; exact (He eq_refl) ].
    { destruct update_db; [|apply sat_ret; discriminate].
      apply (sat_lift_snd (fun w1 => w1 = w.1)).
      apply sat_weaken with (Q1 := any_outcome); [|intros; reflexivity].
      apply logs_bind; [apply connect_sat | intros _ | trivial_post].
      apply logs_bind;
        [ | intros _; apply commit_sat; reflexivity | trivial_post].
      apply retry_loop_logs; [reflexivity | intros; reflexivity]. }
    eapply sat_bind
      with (Q1 := fun r => exists st', r = Ret st' /\ processed st' = 0%Z
                           /\ failed st' = 0%Z
                           /\ skipped st' = Z.of_nat (length files));
      [ | intros st (st' & [= <-] & Hp & Hf & Hs)
        | intros e (st' & E & _); discriminate E ].
    { intros wv Hwv.
      rewrite (scan_loop_all_skipped S update_db files wv)
        by (now rewrite Hwv).
      cbn. split; [exact Hwv|]. split.
      - apply List.Forall_map. apply Forall_forall. intros; reflexivity.
      - eexists. split; [reflexivity|]. cbn. auto. }
    eapply sat_bind with (Q1 := fun r => raised r = true -> update_db = true);
      [ | intros _ _; apply sat_ret; auto | intros e He; exact (He eq_refl) ].
    destruct update_db; [|apply sat_ret; discriminate].
    apply (sat_lift_snd (fun w1 => w1 = w.1)).
    apply sat_weaken with (Q1 := any_outcome);
      [apply commit_sat; reflexivity | intros; reflexivity]. }
  destruct (H w eq_refl) as (Hw & Hl & Hq).
  split; [exact Hw|]. split; [exact Hl|].
  destruct (run_result _) as [[st|]|e]; [exact Hq | contradiction | exact Hq].
Qed.

Lemma rescan_skips_everything_witness :
  let r := scan_raw_files Sim.system "/p" true false None
             (shoot_done, idle_catalog) in
  (run_world r).1 = shoot_done
  /\ Forall (fun ev => is_probe ev = true) (run_log r)
  /\ run_result r = Ret (Some (ScanState 0 1 0 [FileSkipped])).
Proof.
  intros r.
  destruct (rescan_skips_everything Sim.system "/p" true None
              (shoot_done, idle_catalog)) as (Hw & Hl & _).
  - vm_compute. repeat constructor.
  - split; [exact Hw|]. split; [exact Hl|]. vm_compute. reflexivity.
Defined.

(** ** The final commit *)

(** X27. When a scan that updates the catalog returns its counters, its
    last call was a commit that went through: the open transaction holds
    nothing that is not committed. *)
Theorem scan_returns_committed (S : System) (directory : string)
    (regenerate : bool) (limit : option Z)
    (w w' : world S * Sqlite.database) (l : list event) (st : scan_state) :
  scan_raw_files S directory true regenerate limit w = (w', l, Ret (Some st)) ->
  Sqlite.db_saved w'.2 = Sqlite.db_live w'.2
  /\ exists l0, l = l0 ++ [EvCommit].
Proof.
  unfold scan_raw_files.
  destruct (candidates S directory limit w.1) as [|f fs]; [discriminate|].
  intros H.
  apply bind_ret_inv in H. destruct H as (w1 & l1 & [] & l1' & _ & H & ->).
  apply bind_ret_inv in H. destruct H as (w2 & l2 & st2 & l2' & _ & H & ->).
  apply bind_ret_inv in H. destruct H as (w3 & l3 & [] & l3' & H & Hret & ->).
  injection Hret as <- <- _.
  unfold lift_snd, Sqlite.commit, call, Sqlite.next_fault in H.
  destruct w2 as [fs2 db2]. cbn [fst snd] in H.
  destruct (Sqlite.db_faults db2) as [|[e|] rest]; try discriminate H;
    injection H as <- <-; cbn;
    (split; [reflexivity|]);
    exists (l1 ++ l2); now rewrite List.app_assoc.
Qed.

Lemma scan_returns_committed_witness :
  let r := scan_raw_files Sim.system "/p" true false None (shoot, idle_catalog) in
  Sqlite.db_saved (run_world r).2 = Sqlite.db_live (run_world r).2
  /\ exists l0, run_log r = l0 ++ [EvCommit].
Proof.
  intros r.
  refine (scan_returns_committed Sim.system "/p" false None
            (shoot, idle_catalog) (run_world r) (run_log r)
            match run_result r with
            | Ret (Some st) => st
            | _ => initial_state
            end _).
  vm_compute. reflexivity.
Defined.

(** ** The RAW file is closed *)


(** X28. The conversion opens the RAW file first. When that fails it
    does nothing else and reports the error; when it succeeds the file is
    developed and then closed, whether or not the development failed,
    before anything else is called, and it is never opened or closed
    again. *)
Theorem convert_closes_raw (S : System) (raw_path preview_path : string)
    (max_size quality : Z) (w : world S) :
  let r := convert_raw_to_preview S raw_path preview_path max_size quality w in
  match (rawpy_imread S raw_path w).2 with
  | Raise e =>
      run_log r = [EvImread raw_path]
      /\ run_result r = Ret (false, VStr (exn_str e))
  | Ret _ =>
      exists rest,
        run_log r = EvImread raw_path :: EvPostprocess postprocess_kwargs
                    :: EvClose :: rest
        /\ forallb no_raw_handle rest = true
  end.
Proof.
  intros r. subst r. run_convert.
  all: first [ split; reflexivity
             | eexists; split; reflexivity ].
Qed.

(** ** The catalog write of one file *)

Lemma bind_run_ret {W A B} (m : M W A) (k : A -> M W B)
    (w w1 : W) (l1 : list event) (a : A) :
  m w = (w1, l1, Ret a) ->
  bind m k w = (let '(w2, l2, r) := k a w1 in (w2, l1 ++ l2, r)).
Proof. intros H. unfold bind. now rewrite H. Qed.

Lemma bind_run_raise {W A B} (m : M W A) (k : A -> M W B)
    (w w1 : W) (l1 : list event) (e : exn) :
  m w = (w1, l1, Raise e) ->
  bind m k w = (w1, l1, Raise e).
Proof. intros H. unfold bind. now rewrite H. Qed.

(** X29. The catalog write of a converted file raises only when the size
    of the RAW file cannot be read, and then before any statement is
    executed; an error of the catalog store is caught and the scan goes
    on. *)
Theorem index_file_outcomes (S : System) (raw_path pp : string)
    (kb : Float.t) (wv : world S * Sqlite.database) :
  let r := index_file S raw_path pp kb wv in
  let w1 := run_world (extract_exif_from_raw S raw_path wv.1) in
  match os_path_getsize S raw_path w1 with
  | Raise e =>
      run_result r = Raise e
      /\ (run_world r).2 = wv.2
      /\ attempts_of (run_log r) = 0%nat
  | Ret _ => returns (run_result r)
  end.
Proof.
  intros r w1. subst r w1. unfold index_file.
  destruct (Parse.parse_client_info raw_path) as [cn d].
  destruct wv as [w db].
  destruct (extract_exif_inv S (fun _ => True) (fun ev => is_execute ev = false)
              raw_path ltac:(auto) eq_refl eq_refl Logic.I w Logic.I)
    as (_ & Hlog & md & Hmd & _).
  cbn [fst snd].
  destruct (extract_exif_from_raw S raw_path w) as [[w1 l1] r1] eqn:Hex.
  cbn [run_world run_result run_log fst snd] in *. subst r1.
  assert (Hl1 : attempts_of l1 = 0%nat).
  { unfold attempts_of. clear - Hlog.
    induction Hlog as [|ev l Hev _ IH]; [reflexivity|].
    cbn [List.filter]. now rewrite Hev. }
  rewrite (bind_run_ret _ _ (w, db) (w1, db) l1 md)
    by (unfold lift_fst; cbn [fst snd]; now rewrite Hex).
  destruct (os_path_getsize S raw_path w1) as [n|e] eqn:Hsize.
  - rewrite (bind_run_ret _ _ (w1, db) (w1, db) [EvGetsize raw_path] n)
      by (unfold lift_fst, getsize, call; cbn [fst snd]; now rewrite Hsize).
    unfold try_except.
    match goal with
    | |- context [match ?b (w1, db) with _ => _ end] =>
        destruct (b (w1, db)) as [[w2 l2] [c|e]]
    end; reflexivity.
  - rewrite (bind_run_raise _ _ (w1, db) (w1, db) [EvGetsize raw_path] e)
      by (unfold lift_fst, getsize, call; cbn [fst snd]; now rewrite Hsize).
    cbn [run_result run_world run_log fst snd].
    split; [reflexivity|]. split; [reflexivity|].
    unfold attempts_of in *. rewrite List.filter_app, length_app, Hl1.
    reflexivity.
Qed.
